(** * Hand-Tracking-3D: the interaction core, embedded and verified

    The development follows the JavaScript sources:

    - [Gestures]      js/gestures.js of Hand Magic Studio (finger states,
                      raw classification with the pinch hysteresis, the
                      majority vote over the last three raw types);
    - [GridGestures]  js/gestures.js of Hand Grid Controller (FIST / OPEN /
                      NONE only, same hysteresis code);
    - [HandTracking]  js/handTracking.js (landmark smoothing, detectHands);
    - [Grid]          js/main.js of Hand Grid Controller (cell mapping,
                      grab / drop, flip tracking, the frame loop);
    - [Doubles]       the cell mapping of js/main.js once more, in the
                      arithmetic of IEEE doubles;
    - [Swarm]         js/effects.js, class MagicParticleField (gather);
    - [Recognizer]    js/gestures.js of Hand Magic Studio, the rest of the
                      class (getHandsDistance, reset);
    - [Utils]         js/utils.js (normalizedToWorld, lerp);
    - [Field]         js/effects.js, the rest of MagicParticleField
                      (scatter, updateGatherCenter, update);
    - [Studio]        js/main.js of Hand Magic Studio (the frame loop).

    Numbers.  A JavaScript number that stays inside field arithmetic and
    [Math.floor] is a rational [Q]; rounding of IEEE doubles is not
    modelled there.  Where a result depends on the rounding, in the cell
    mapping at the edges of the image and of the cells, the number is a
    binary64 double of [SpecFloat], with the operations of IEEE 754
    (round to nearest, ties to even).  The results of [Math.sqrt],
    [Math.atan2], [Math.acos], [Math.sin] and [Math.cos] are real numbers
    [R], and a comparison of such numbers is the boolean [Rltb].  Arrays are
    lists, [Map]s and objects used as maps are [gmap]s, DOM elements are
    identified by a number. *)

From Stdlib Require Import ZArith QArith Qround Qabs Lia Lqa Reals Lra Qreals.
From Stdlib Require Import SpecFloat.
From stdpp Require Import base option list gmap strings.

(** ** Real-valued parts of [Math] *)

Module JsMath.

(** [a < b] on numbers that came out of a transcendental function. *)
Definition Rltb (a b : R) : bool := if Rlt_dec a b then true else false.

(** [a < b] on rationals. *)
Definition Qltb (a b : Q) : bool :=
  (Qnum a * QDen b <? Qnum b * QDen a)%Z.

(** [Math.atan2(y, x)], the angle of the vector [(x, y)] in [[-PI, PI]]
    (signed zeros are not distinguished). *)
Definition Math_atan2 (y x : R) : R :=
  if Rlt_dec 0 x then atan (y / x)
  else if Rlt_dec x 0 then
    (if Rlt_dec y 0 then atan (y / x) - PI else atan (y / x) + PI)
  else if Rlt_dec 0 y then PI / 2
  else if Rlt_dec y 0 then - (PI / 2)
  else 0.

End JsMath.

(** ** js/gestures.js (Hand Magic Studio) *)

Module Gestures.
Import JsMath.

Inductive GestureType :=
  NONE | OPEN | PINCH | FIST | PEACE | THUMBS_UP | POINTING | ROCK.

#[global] Instance GestureType_eq_dec : EqDecision GestureType.
Proof. solve_decision. Defined.

(** A landmark [{x, y, z}]. *)
Record Landmark := mkLandmark { px : Q; py : Q; pz : Q }.

#[global] Instance Landmark_inhabited : Inhabited Landmark :=
  populate (mkLandmark 0 0 0).

(** [landmarks[i]]; every use is behind the guard [landmarks.length >= 21]
    (or [>= 10], [>= 18] in main.js), so the default is never read. *)
Definition at_ (landmarks : list Landmark) (i : nat) : Landmark :=
  landmarks !!! i.

Module HAND_LANDMARKS.
Definition WRIST : nat := 0.
Definition THUMB_CMC : nat := 1.
Definition THUMB_MCP : nat := 2.
Definition THUMB_IP : nat := 3.
Definition THUMB_TIP : nat := 4.
Definition INDEX_MCP : nat := 5.
Definition INDEX_PIP : nat := 6.
Definition INDEX_TIP : nat := 8.
Definition MIDDLE_MCP : nat := 9.
Definition RING_MCP : nat := 13.
Definition PINKY_MCP : nat := 17.
End HAND_LANDMARKS.

(** utils.js: [distance2D]. *)
Definition distance2D (p1 p2 : Landmark) : R :=
  let dx := (px p2 - px p1)%Q in
  let dy := (py p2 - py p1)%Q in
  sqrt (Q2R (dx * dx + dy * dy)).

(** The fields the constructor sets and nothing assigns afterwards. *)
Definition pinchStartThreshold : R := 0.06.
Definition pinchEndThreshold : R := 0.10.
Definition historySize : nat := 3.

(** What [classifyGesture] returns, and what [applyHysteresis] handles. *)
Record Classified := mkClassified { gtype : GestureType; confidence : Q }.

(** The state that persists across frames. *)
Record GestureRecognizer := mkRecognizer {
  prevGestures : gmap nat Classified;
  gestureHistory : gmap nat (list GestureType)
}.

Definition new_GestureRecognizer : GestureRecognizer :=
  mkRecognizer ∅ ∅.

Definition isThumbExtended (landmarks : list Landmark) : bool :=
  let thumbTip := at_ landmarks HAND_LANDMARKS.THUMB_TIP in
  let thumbMCP := at_ landmarks HAND_LANDMARKS.THUMB_MCP in
  let indexMCP := at_ landmarks HAND_LANDMARKS.INDEX_MCP in
  let tipToIndex := distance2D thumbTip indexMCP in
  let mcpToIndex := distance2D thumbMCP indexMCP in
  Rltb (mcpToIndex * 0.8) tipToIndex.

Inductive Finger := INDEX | MIDDLE | RING | PINKY.

Record FingerIndices := mkIdx { tip : nat; pip : nat; mcp : nat }.

Definition indices (finger : Finger) : FingerIndices :=
  match finger with
  | INDEX => mkIdx 8 6 5
  | MIDDLE => mkIdx 12 10 9
  | RING => mkIdx 16 14 13
  | PINKY => mkIdx 20 18 17
  end.

Definition isFingerExtended (landmarks : list Landmark) (finger : Finger)
  : bool :=
  let idx := indices finger in
  let wrist := at_ landmarks HAND_LANDMARKS.WRIST in
  let tipToWrist := distance2D (at_ landmarks (tip idx)) wrist in
  let pipToWrist := distance2D (at_ landmarks (pip idx)) wrist in
  Rltb (pipToWrist * 1.1) tipToWrist.

Record FingerStates := mkFingerStates {
  thumb : bool; index : bool; middle : bool; ring : bool; pinky : bool;
  extendedCount : nat
}.

(** [Object.values(states).filter(v => v === true).length], taken while
    [states] has its five boolean entries. *)
Definition getFingerStates (landmarks : list Landmark) : FingerStates :=
  let t := isThumbExtended landmarks in
  let i := isFingerExtended landmarks INDEX in
  let m := isFingerExtended landmarks MIDDLE in
  let r := isFingerExtended landmarks RING in
  let p := isFingerExtended landmarks PINKY in
  mkFingerStates t i m r p
    (length (filter (λ v : bool, v = true) [t; i; m; r; p])).

Definition getPinchDistance (landmarks : list Landmark) : R :=
  distance2D (at_ landmarks HAND_LANDMARKS.THUMB_TIP)
             (at_ landmarks HAND_LANDMARKS.INDEX_TIP).

Definition getPinchCenter (landmarks : list Landmark) : Landmark :=
  let thumbTip := at_ landmarks HAND_LANDMARKS.THUMB_TIP in
  let indexTip := at_ landmarks HAND_LANDMARKS.INDEX_TIP in
  mkLandmark ((px thumbTip + px indexTip) / 2)
             ((py thumbTip + py indexTip) / 2)
             ((pz thumbTip + pz indexTip) / 2).

Definition getPalmCenter (landmarks : list Landmark) : Landmark :=
  let points :=
    [ at_ landmarks HAND_LANDMARKS.WRIST;
      at_ landmarks HAND_LANDMARKS.INDEX_MCP;
      at_ landmarks HAND_LANDMARKS.MIDDLE_MCP;
      at_ landmarks HAND_LANDMARKS.RING_MCP;
      at_ landmarks HAND_LANDMARKS.PINKY_MCP ] in
  let center :=
    fold_left (λ c p, mkLandmark (px c + px p) (py c + py p) (pz c + pz p))
              points (mkLandmark 0 0 0) in
  let n := inject_Z (Z.of_nat (length points)) in
  mkLandmark (px center / n) (py center / n) (pz center / n).

(** [classifyGesture]: the tests in the order of the source. *)
Definition classifyGesture (self : GestureRecognizer)
  (fingerStates : FingerStates) (pinchDistance : R) (handIndex : nat)
  : Classified :=
  let 'mkFingerStates thumb index middle ring pinky extendedCount :=
    fingerStates in
  if (extendedCount <=? 1)%nat then mkClassified FIST 0.9
  else
    let wasPinching :=
      match prevGestures self !! handIndex with
      | Some g => bool_decide (gtype g = PINCH)
      | None => false
      end in
    let isPinching :=
      if wasPinching then Rltb pinchDistance pinchEndThreshold
      else Rltb pinchDistance pinchStartThreshold in
    if isPinching then mkClassified PINCH 0.9
    else if (4 <=? extendedCount)%nat then mkClassified OPEN 0.9
    else if index && middle && negb ring && negb pinky
      then mkClassified PEACE 0.85
    else if thumb && negb index && negb middle && negb ring && negb pinky
      then mkClassified THUMBS_UP 0.8
    else if negb thumb && index && negb middle && negb ring && negb pinky
      then mkClassified POINTING 0.8
    else if index && negb middle && negb ring && pinky
      then mkClassified ROCK 0.8
    else mkClassified NONE 0.5.

(** The object [counts]: string keys keep their insertion order, which is
    the order [Object.entries] walks. *)
Fixpoint count_incr (counts : list (GestureType * nat)) (type : GestureType)
  : list (GestureType * nat) :=
  match counts with
  | [] => [(type, 1%nat)]
  | (k, n) :: rest =>
      if decide (k = type) then (k, S n) :: rest
      else (k, n) :: count_incr rest type
  end.

(** [history.push(type)], then [history.shift()] when it got too long. *)
Definition push_history (history : list GestureType) (type : GestureType)
  : list GestureType :=
  let history := history ++ [type] in
  if (historySize <? length history)%nat then tail history else history.

(** The loop over [Object.entries(counts)], with its strict [>]. *)
Definition pick_stable (counts : list (GestureType * nat))
  (init : nat * GestureType) : nat * GestureType :=
  fold_left (λ '(maxCount, stableType) '(type, count),
               if (maxCount <? count)%nat then (count, type)
               else (maxCount, stableType))
            counts init.

(** [Math.ceil(this.historySize / 2)]. *)
Definition majority : nat :=
  Z.to_nat (Qceiling (inject_Z (Z.of_nat historySize) / 2)).

Definition applyHysteresis (self : GestureRecognizer) (gesture : Classified)
  (handIndex : nat) : Classified * GestureRecognizer :=
  let history :=
    push_history (default [] (gestureHistory self !! handIndex))
                 (gtype gesture) in
  let counts := fold_left count_incr history [] in
  let '(maxCount, stableType) := pick_stable counts (0%nat, gtype gesture) in
  let self' :=
    mkRecognizer (<[handIndex := gesture]> (prevGestures self))
                 (<[handIndex := history]> (gestureHistory self)) in
  if (majority <=? maxCount)%nat
  then (mkClassified stableType (confidence gesture), self')
  else (gesture, self').

(** What [recognize] adds to the classified gesture. *)
Record GestureInfo := mkInfo {
  pinchDistance : R;
  fingerStates : FingerStates;
  pinchCenter : Landmark;
  palmCenter : Landmark
}.

Record Gesture := mkGesture {
  classified : Classified;
  info : option GestureInfo
}.

(** The raw classification of a well-formed landmark set: the value that
    [recognize] hands to [applyHysteresis]. *)
Definition rawGesture (self : GestureRecognizer) (landmarks : list Landmark)
  (handIndex : nat) : Classified :=
  classifyGesture self (getFingerStates landmarks)
                  (getPinchDistance landmarks) handIndex.

Definition recognize (self : GestureRecognizer) (landmarks : list Landmark)
  (handIndex : nat) : Gesture * GestureRecognizer :=
  if (length landmarks <? 21)%nat
  then (mkGesture (mkClassified NONE 0) None, self)
  else
    let fingerStates := getFingerStates landmarks in
    let pinchDistance := getPinchDistance landmarks in
    let gesture := classifyGesture self fingerStates pinchDistance handIndex in
    let '(gesture, self') := applyHysteresis self gesture handIndex in
    (mkGesture gesture
       (Some (mkInfo pinchDistance fingerStates
                     (getPinchCenter landmarks) (getPalmCenter landmarks))),
     self').

End Gestures.

(** ** js/gestures.js (Hand Grid Controller)

    The grid variant has its own, smaller recogniser.  Its finger tests,
    palm centre and [applyHysteresis] are the same code as above and are
    shared; the classification knows FIST, OPEN and NONE only, and a
    malformed landmark set yields the palm centre [(0.5, 0.5)]. *)

Module GridGestures.
Import Gestures.

(** [classifyGesture(fingerStates, handIndex)]. *)
Definition classifyGesture (fingerStates : FingerStates) (handIndex : nat)
  : Classified :=
  let extendedCount := extendedCount fingerStates in
  if (extendedCount <=? 1)%nat then mkClassified FIST 0.9
  else if (4 <=? extendedCount)%nat then mkClassified OPEN 0.9
  else mkClassified NONE 0.5.

(** [{type, confidence, palmCenter}]; on the malformed path [palmCenter]
    has no [z], which nothing reads: it is 0 here. *)
Record Gesture := mkGesture {
  type : GestureType;
  confidence : Q;
  palmCenter : Landmark
}.

Definition recognize (self : GestureRecognizer) (landmarks : list Landmark)
  (handIndex : nat) : Gesture * GestureRecognizer :=
  if (length landmarks <? 21)%nat
  then (mkGesture NONE 0 (mkLandmark 0.5 0.5 0), self)
  else
    let fingerStates := getFingerStates landmarks in
    let gesture := classifyGesture fingerStates handIndex in
    let '(gesture, self') := applyHysteresis self gesture handIndex in
    (mkGesture (gtype gesture) (Gestures.confidence gesture)
               (getPalmCenter landmarks),
     self').

End GridGestures.

(** ** js/handTracking.js *)

Module HandTracking.
Import Gestures.

(** One entry of [result.handednesses[index]]. *)
Record Category := mkCategory { categoryName : string; score : Q }.

(** What [detectForVideo] returns. *)
Record DetectorResult := mkResult {
  r_landmarks : list (list Landmark);
  r_worldLandmarks : option (list (list Landmark));
  r_handednesses : option (list (list Category))
}.

(** One detected hand, as [detectHands] hands it on. *)
Record Hand := mkHand {
  landmarks : list Landmark;
  worldLandmarks : option (list Landmark);
  handedness : string;
  handednessScore : Q
}.

Record HandTracker := mkTracker {
  lastVideoTime : Q;
  lastResult : option (list Hand);
  prevLandmarks : gmap nat (list Landmark)
}.

Definition smoothingFactor : Q := 0.8.

Definition new_HandTracker : HandTracker := mkTracker (-1) None ∅.

(** [prev * (1 - f) + raw * f] on the three coordinates. *)
Definition blend (prevLm lm : Landmark) : Landmark :=
  mkLandmark
    (px prevLm * (1 - smoothingFactor) + px lm * smoothingFactor)
    (py prevLm * (1 - smoothingFactor) + py lm * smoothingFactor)
    (pz prevLm * (1 - smoothingFactor) + pz lm * smoothingFactor).

(** [landmarks.map((lm, idx) => ...)] against [prev]. *)
Definition smooth_against (prev landmarks : list Landmark) : list Landmark :=
  imap (λ idx lm,
          match prev !! idx with
          | None => lm
          | Some prevLm => blend prevLm lm
          end) landmarks.

Definition smoothLandmarks (self : HandTracker) (landmarks : list Landmark)
  (handIndex : nat) : list Landmark * HandTracker :=
  match prevLandmarks self !! handIndex with
  | None =>
      (landmarks,
       mkTracker (lastVideoTime self) (lastResult self)
                 (<[handIndex := landmarks]> (prevLandmarks self)))
  | Some prev =>
      let smoothed := smooth_against prev landmarks in
      (smoothed,
       mkTracker (lastVideoTime self) (lastResult self)
                 (<[handIndex := smoothed]> (prevLandmarks self)))
  end.

(** [result.handednesses?.[index]?.[0]]. *)
Definition firstCategory (result : DetectorResult) (index : nat)
  : option Category :=
  hs ← r_handednesses result; cs ← hs !! index; cs !! 0%nat.

(** [x || 'Unknown'] and [x || 0]. *)
Definition nameOr (c : option Category) : string :=
  match c with
  | Some c => if decide (categoryName c = "") then "Unknown"
              else categoryName c
  | None => "Unknown"
  end.

Definition scoreOr (c : option Category) : Q :=
  match c with Some c => score c | None => 0 end.

(** The body of [result.landmarks.map((landmarks, index) => ...)], from
    [index] on; the tracker is threaded through the calls. *)
Fixpoint mapHands (self : HandTracker) (result : DetectorResult)
  (index : nat) (rest : list (list Landmark)) : list Hand * HandTracker :=
  match rest with
  | [] => ([], self)
  | landmarks :: rest =>
      let '(smoothedLandmarks, self) :=
        smoothLandmarks self landmarks index in
      let hand :=
        mkHand smoothedLandmarks
               (ws ← r_worldLandmarks result; ws !! index)
               (nameOr (firstCategory result index))
               (scoreOr (firstCategory result index)) in
      let '(hands, self) := mapHands self result (S index) rest in
      (hand :: hands, self)
  end.

(** [detectHands].  [active] stands for the two guards at its top (the
    landmarker exists, the webcam runs, the video has a size);
    [currentTime] is [videoEl.currentTime]; [result] is what
    [detectForVideo] returns for this frame, [None] when it throws. *)
Definition detectHands (self : HandTracker) (active : bool)
  (currentTime : Q) (result : option DetectorResult)
  : option (list Hand) * HandTracker :=
  if negb active then (None, self)
  else if Qeq_bool currentTime (lastVideoTime self)
  then (lastResult self, self)
  else
    let self := mkTracker currentTime (lastResult self) (prevLandmarks self) in
    match result with
    | None => (None, self)
    | Some result =>
        match r_landmarks result with
        | _ :: _ =>
            let '(hands, self) := mapHands self result 0 (r_landmarks result) in
            (Some hands,
             mkTracker (lastVideoTime self) (Some hands) (prevLandmarks self))
        | [] =>
            (None, mkTracker (lastVideoTime self) None ∅)
        end
    end.

End HandTracking.

(** ** js/main.js (Hand Grid Controller) *)

Module Grid.
Import JsMath Gestures HandTracking.

Definition OBJECT_SIZE : Q := 280.
Definition gridCols : Z := 3.
Definition gridRows : Z := 3.

(** [getCellIndex(x, y)]. *)
Definition getCellIndex (x y : Q) : Z :=
  let flippedX := (1 - x)%Q in
  let col := Qfloor (flippedX * inject_Z gridCols) in
  let row := Qfloor (y * inject_Z gridRows) in
  if ((col <? 0) || (col >=? gridCols) || (row <? 0) || (row >=? gridRows))%Z
  then (-1)%Z
  else (row * gridCols + col)%Z.

(** The DOM as far as the controller reads or writes it.  An object (the
    wrapper [div.grid-object]) is a number; it sits in a grid cell or in
    [#object-drag-layer], may carry the class [held], its inner element may
    carry the class [flipped], and its style has [left] and [top] or not. *)
Inductive Parent := InCell (cellIndex : Z) | DragLayer.

Record ElemState := mkElem {
  parent : Parent;
  heldClass : bool;
  flipped : bool;
  styleLeftTop : option (Q * Q)
}.

(** An entry of [heldObjects]. *)
Record Held := mkHeld {
  element : nat;
  fromCellIndex : Z;
  grabAngle : R;
  grabNormalZ : option Q;
  grabWasBack : bool;
  isBack : bool
}.

Record HandGridController := mkController {
  cellObjects : gmap Z (list nat);
  heldObjects : gmap nat Held;
  elements : gmap nat ElemState;
  activeCells : gset Z;
  gestureRecognizer : GestureRecognizer
}.

(** [window.innerWidth], [window.innerHeight]. *)
Record Viewport := mkViewport { innerWidth : Q; innerHeight : Q }.

Definition new_HandGridController : HandGridController :=
  mkController ∅ ∅ ∅ ∅ new_GestureRecognizer.

(** index.html has nine [.grid-cell] elements: [gridCells[cellIndex]] is
    defined for 0..8 and [undefined] elsewhere. *)
Definition hasGridCell (cellIndex : Z) : bool :=
  ((0 <=? cellIndex) && (cellIndex <? 9))%Z.

(** One round of [createGridObjects]: the [el]-th wrapper goes into
    [cellIndex] and becomes the whole collection of that cell. *)
Definition createGridObject (self : HandGridController) (el : nat)
  (cellIndex : Z) : HandGridController :=
  mkController
    (<[cellIndex := [el]]> (cellObjects self))
    (heldObjects self)
    (<[el := mkElem (InCell cellIndex) false false None]> (elements self))
    (activeCells self)
    (gestureRecognizer self).

Definition createGridObjects (self : HandGridController)
  (cellIndices : list Z) : HandGridController :=
  fold_left (λ self '(el, cellIndex), createGridObject self el cellIndex)
            (imap (λ el cellIndex, (el, cellIndex)) cellIndices) self.

(** The state in which [start] enters the frame loop. *)
Definition start : HandGridController :=
  createGridObjects new_HandGridController [0%Z; 4%Z].

Definition getPalmAngle (landmarks : list Landmark) : R :=
  if (length landmarks <? 10)%nat then 0%R
  else
    let wrist := at_ landmarks 0 in
    let middleMcp := at_ landmarks 9 in
    Math_atan2 (Q2R (py middleMcp - py wrist)) (Q2R (px middleMcp - px wrist)).

(** [getPalmNormalZ] on an array; [None] is its [null]. *)
Definition getPalmNormalZ (worldLandmarks : list Landmark) : option Q :=
  if (length worldLandmarks <? 18)%nat then None
  else
    let wrist := at_ worldLandmarks 0 in
    let indexMcp := at_ worldLandmarks 5 in
    let pinkyMcp := at_ worldLandmarks 17 in
    let ax := (px indexMcp - px wrist)%Q in
    let ay := (py indexMcp - py wrist)%Q in
    let bx := (px pinkyMcp - px wrist)%Q in
    let by_ := (py pinkyMcp - py wrist)%Q in
    Some (ax * by_ - ay * bx)%Q.

(** [while (diff > Math.PI) diff -= 2 * Math.PI], run for at most [fuel]
    rounds, and its mirror image. *)
Fixpoint wrapDown (fuel : nat) (diff : R) : R :=
  match fuel with
  | O => diff
  | S fuel => if Rltb PI diff then wrapDown fuel (diff - 2 * PI) else diff
  end.

Fixpoint wrapUp (fuel : nat) (diff : R) : R :=
  match fuel with
  | O => diff
  | S fuel => if Rltb diff (- PI) then wrapUp fuel (diff + 2 * PI) else diff
  end.

(** A number of rounds after which either loop has stopped. *)
Definition turns (diff : R) : nat := Z.to_nat (up (Rabs diff / (2 * PI))).

Definition wrapAngle (diff : R) : R :=
  let diff := wrapDown (turns diff) diff in
  wrapUp (turns diff) diff.

(** The body of [if (held.grabNormalZ == null) { ... }]. *)
Definition handRotated (currentAngle grabAngle : R) : bool :=
  let diff := wrapAngle (currentAngle - grabAngle) in
  Rltb (PI / 6) (Rabs diff).

(** The value of [isBack] when [updateHeldObjectFlip] reaches its last
    [if]. *)
Definition flipState (held : Held) (hand : Hand) : bool :=
  let isBack := false in
  let grabWasBack := grabWasBack held in
  let isBack :=
    match worldLandmarks hand, grabNormalZ held with
    | Some worldLandmarks, Some grabNormalZ =>
        match getPalmNormalZ worldLandmarks with
        | Some currentNormalZ =>
            let handFlipped :=
              Qltb (currentNormalZ * grabNormalZ) 0 in
            negb (eqb handFlipped grabWasBack)
        | None => isBack
        end
    | _, _ => isBack
    end in
  match grabNormalZ held with
  | None =>
      let currentAngle := getPalmAngle (landmarks hand) in
      negb (eqb (handRotated currentAngle (grabAngle held)) grabWasBack)
  | Some _ => isBack
  end.

Definition setFlipped (isBack : bool) (e : ElemState) : ElemState :=
  mkElem (parent e) (heldClass e) isBack (styleLeftTop e).

Definition updateHeldObjectFlip (self : HandGridController)
  (handIndex : nat) (hand : Hand) : HandGridController :=
  match heldObjects self !! handIndex with
  | None => self
  | Some held =>
      let isBack := flipState held hand in
      if eqb isBack (Grid.isBack held) then self
      else
        mkController
          (cellObjects self)
          (<[handIndex :=
               mkHeld (element held) (fromCellIndex held) (grabAngle held)
                      (grabNormalZ held) (grabWasBack held) isBack]>
             (heldObjects self))
          (alter (setFlipped isBack) (element held) (elements self))
          (activeCells self)
          (gestureRecognizer self)
  end.

Definition updateHeldObjectPosition (vp : Viewport)
  (elements : gmap nat ElemState) (element : nat) (palmCenter : Landmark)
  : gmap nat ElemState :=
  let w := innerWidth vp in
  let h := innerHeight vp in
  let flippedX := (1 - px palmCenter)%Q in
  let left := (flippedX * w - OBJECT_SIZE / 2)%Q in
  let top := (py palmCenter * h - OBJECT_SIZE / 2)%Q in
  alter (λ e, mkElem (parent e) (heldClass e) (flipped e) (Some (left, top)))
        element elements.

(** [grabObject(handIndex, cellIndex, palmCenter, hand)]: [arr.pop()]
    takes the last element of the cell's array. *)
Definition grabObject (vp : Viewport) (self : HandGridController)
  (handIndex : nat) (cellIndex : Z) (palmCenter : Landmark) (hand : Hand)
  : HandGridController :=
  match cellObjects self !! cellIndex with
  | None => self
  | Some arr =>
      match last arr with
      | None => self
      | Some el =>
          let arr := removelast arr in
          let cellObjects :=
            match arr with
            | [] => delete cellIndex (cellObjects self)
            | _ :: _ => <[cellIndex := arr]> (cellObjects self)
            end in
          let elements :=
            alter (λ e, mkElem DragLayer true (flipped e) (styleLeftTop e))
                  el (elements self) in
          let grabAngle := getPalmAngle (landmarks hand) in
          let grabNormalZ := worldLandmarks hand ≫= getPalmNormalZ in
          let grabWasBack :=
            match elements !! el with
            | Some inner => flipped inner
            | None => false
            end in
          let heldObjects :=
            <[handIndex :=
                mkHeld el cellIndex grabAngle grabNormalZ grabWasBack
                       grabWasBack]> (heldObjects self) in
          mkController cellObjects heldObjects
            (updateHeldObjectPosition vp elements el palmCenter)
            (activeCells self) (gestureRecognizer self)
      end
  end.

(** [dropObject(handIndex, cellIndex)].  [None] is the TypeError that
    [this.gridCells[cellIndex].appendChild] raises when there is no such
    grid cell; [processHands] never calls it that way. *)
Definition dropObject (self : HandGridController) (handIndex : nat)
  (cellIndex : Z) : option HandGridController :=
  match heldObjects self !! handIndex with
  | None => Some self
  | Some held =>
      let el := element held in
      if hasGridCell cellIndex then
        let elements :=
          alter (λ e, mkElem (InCell cellIndex) false (flipped e) None)
                el (elements self) in
        let arr := default [] (cellObjects self !! cellIndex) in
        Some (mkController
                (<[cellIndex := arr ++ [el]]> (cellObjects self))
                (delete handIndex (heldObjects self))
                elements (activeCells self) (gestureRecognizer self))
      else None
  end.

Definition nonEmpty (arr : option (list nat)) : bool :=
  match arr with
  | Some (_ :: _) => true
  | _ => false
  end.

(** What the callback of [hands.forEach] in [processHands] does once
    [recognize] has returned [gesture] and left the recogniser in the
    state [recognizer]. *)
Definition processGesture (vp : Viewport) (self : HandGridController)
  (handIndex : nat) (hand : Hand) (gesture : GridGestures.Gesture)
  (recognizer : GestureRecognizer) : HandGridController :=
  let palmCenter := GridGestures.palmCenter gesture in
  let cellIndex := getCellIndex (px palmCenter) (py palmCenter) in
  let self :=
    mkController (cellObjects self) (heldObjects self) (elements self)
      (if ((0 <=? cellIndex) && (cellIndex <? 9))%Z
       then {[cellIndex]} ∪ activeCells self else activeCells self)
      recognizer in
  let self :=
    if decide (GridGestures.type gesture = FIST) then
      let arr := cellObjects self !! cellIndex in
      if negb (bool_decide (is_Some (heldObjects self !! handIndex)))
         && (0 <=? cellIndex)%Z && nonEmpty arr
      then grabObject vp self handIndex cellIndex palmCenter hand
      else self
    else self in
  if decide (GridGestures.type gesture = OPEN) then
    if bool_decide (is_Some (heldObjects self !! handIndex))
       && (0 <=? cellIndex)%Z && (cellIndex <? 9)%Z
    then default self (dropObject self handIndex cellIndex)
    else self
  else self.

(** The callback of [hands.forEach] in [processHands], for one hand. *)
Definition processHand (vp : Viewport) (self : HandGridController)
  (handIndex : nat) (hand : Hand) : HandGridController :=
  let '(gesture, recognizer) :=
    GridGestures.recognize (gestureRecognizer self) (landmarks hand)
                           handIndex in
  processGesture vp self handIndex hand gesture recognizer.

(** [hands.forEach], from [handIndex] on. *)
Fixpoint processHandsFrom (vp : Viewport) (self : HandGridController)
  (handIndex : nat) (hands : list Hand) : HandGridController :=
  match hands with
  | [] => self
  | hand :: hands =>
      processHandsFrom vp (processHand vp self handIndex hand)
                       (S handIndex) hands
  end.

Definition processHands (vp : Viewport) (self : HandGridController)
  (hands : list Hand) : HandGridController :=
  processHandsFrom vp self 0 hands.

(** The callback of [Object.keys(this.heldObjects).forEach] in [animate]
    for the key [handIndex], when [hands[handIndex]] exists. *)
Definition followHand (vp : Viewport) (self : HandGridController)
  (handIndex : nat) (hand : Hand) : HandGridController :=
  match heldObjects self !! handIndex with
  | None => self
  | Some held =>
      let '(gesture, recognizer) :=
        GridGestures.recognize (gestureRecognizer self) (landmarks hand)
                               handIndex in
      let self :=
        mkController (cellObjects self) (heldObjects self)
          (updateHeldObjectPosition vp (elements self) (element held)
             (GridGestures.palmCenter gesture))
          (activeCells self) recognizer in
      updateHeldObjectFlip self handIndex hand
  end.

(** The keys of [heldObjects] are walked in ascending order; a key does
    something only when [hands] has that index, so the walk is the one
    over the indices of [hands] that are keys. *)
Fixpoint followHandsFrom (vp : Viewport) (self : HandGridController)
  (handIndex : nat) (hands : list Hand) : HandGridController :=
  match hands with
  | [] => self
  | hand :: hands =>
      followHandsFrom vp (followHand vp self handIndex hand)
                      (S handIndex) hands
  end.

(** One frame: [animate], with the result of [detectHands] as [hands]. *)
Definition animate (vp : Viewport) (self : HandGridController)
  (hands : option (list Hand)) : HandGridController :=
  let self :=
    mkController (cellObjects self) (heldObjects self) (elements self) ∅
                 (gestureRecognizer self) in
  match hands with
  | None => self
  | Some hands =>
      let self :=
        match hands with
        | [] => self
        | _ :: _ => processHands vp self hands
        end in
      followHandsFrom vp self 0 hands
  end.

End Grid.

(** ** js/main.js (Hand Grid Controller): the cell mapping in doubles

    A number is a [spec_float] with 53 bits of precision and the exponent
    range of binary64; [-], [*], [+], [<] and [>=] are the operations of
    IEEE 754 as [SpecFloat] defines them. *)

Module Doubles.

Definition prec : Z := 53.
Definition emax : Z := 1024.

(** A number literal with an integer value. *)
Definition js (z : Z) : spec_float := binary_normalize prec emax z 0 false.

Definition minus (a b : spec_float) : spec_float := SFsub prec emax a b.
Definition times (a b : spec_float) : spec_float := SFmul prec emax a b.
Definition plus (a b : spec_float) : spec_float := SFadd prec emax a b.
Definition lt (a b : spec_float) : bool := SFltb a b.
Definition ge (a b : spec_float) : bool := SFleb b a.

(** [Math.floor]: a double with a non-negative exponent is an integer;
    otherwise the mantissa is divided, rounding down.  NaN, the
    infinities and the two zeros are returned as they are. *)
Definition Math_floor (x : spec_float) : spec_float :=
  match x with
  | S754_finite s m e =>
      if (0 <=? e)%Z then x
      else binary_normalize prec emax (cond_Zopp s (Z.pos m) / 2 ^ (- e)) 0 s
  | _ => x
  end.

(** [getCellIndex(x, y)]. *)
Definition getCellIndex (x y : spec_float) : spec_float :=
  let flippedX := minus (js 1) x in
  let col := Math_floor (times flippedX (js Grid.gridCols)) in
  let row := Math_floor (times y (js Grid.gridRows)) in
  if lt col (js 0) || ge col (js Grid.gridCols)
     || lt row (js 0) || ge row (js Grid.gridRows)
  then js (-1)
  else plus (times row (js Grid.gridCols)) col.

End Doubles.

(** ** js/effects.js: [MagicParticleField]

    The typed arrays are lists of reals (the rounding of a store into a
    [Float32Array] is not modelled); a store outside the array is ignored,
    as it is for a typed array. *)

Module Swarm.

Record Vector3 := mkVector3 { vx : R; vy : R; vz : R }.

Inductive FieldState := scattered | gathering | gathered.

Record MagicParticleField := mkField {
  particleCount : nat;
  positions : list R;
  targetPositions : list R;
  velocities : list R;
  originalScatterPositions : list R;
  state : FieldState;
  targetCenter : Vector3;
  sphereRadius : R;
  scatterRange : R;
  velocity : Vector3
}.

(** The three coordinates [init] gives particle [i]; [random k] is the
    [k]-th value [Math.random] returns (seven draws per particle). *)
Definition scatterPoint (scatterRange : R) (random : nat → R) (i : nat)
  : list R :=
  [ (random (7 * i)%nat - 0.5) * scatterRange;
    (random (7 * i + 1)%nat - 0.5) * scatterRange * 0.6;
    (random (7 * i + 2)%nat - 0.5) * scatterRange * 0.5 ]%R.

Definition driftPoint (random : nat → R) (i : nat) : list R :=
  [ (random (7 * i + 3)%nat - 0.5) * 0.002;
    (random (7 * i + 4)%nat - 0.5) * 0.002;
    (random (7 * i + 5)%nat - 0.5) * 0.002 ]%R.

(** The constructor followed by [init], without the colours and the
    scene graph. *)
Definition new_MagicParticleField (random : nat → R) : MagicParticleField :=
  let particleCount := 800%nat in
  let scatterRange := 8%R in
  let xyz := seq 0 particleCount ≫= scatterPoint scatterRange random in
  mkField particleCount xyz xyz
    (seq 0 particleCount ≫= driftPoint random) xyz
    scattered (mkVector3 0 0 0) 1.2 scatterRange (mkVector3 0 0 0).

Definition phi (particleCount i : nat) : R :=
  acos (1 - 2 * (INR i + 0.5) / INR particleCount).

Definition theta (i : nat) : R := PI * (1 + sqrt 5) * INR i.

(** One round of the loop of [gather]. *)
Definition gatherParticle (center : Vector3) (sphereRadius : R)
  (particleCount : nat) (targetPositions : list R) (i : nat) : list R :=
  let i3 := (i * 3)%nat in
  let phi := phi particleCount i in
  let theta := theta i in
  let x := (vx center + sphereRadius * sin phi * cos theta)%R in
  let y := (vy center + sphereRadius * sin phi * sin theta)%R in
  let z := (vz center + sphereRadius * cos phi)%R in
  <[(i3 + 2)%nat := z]>
    (<[(i3 + 1)%nat := y]> (<[i3 := x]> targetPositions)).

Definition gather (self : MagicParticleField) (center : Vector3)
  : MagicParticleField :=
  mkField (particleCount self) (positions self)
    (fold_left (gatherParticle center (sphereRadius self) (particleCount self))
               (seq 0 (particleCount self)) (targetPositions self))
    (velocities self) (originalScatterPositions self)
    gathering center (sphereRadius self) (scatterRange self) (velocity self).

Definition getState (self : MagicParticleField) : FieldState := state self.

End Swarm.

(** ** js/gestures.js (Hand Magic Studio): the rest of [GestureRecognizer] *)

Module Recognizer.
Import JsMath Gestures.



(** [reset()]. *)
Definition reset (self : GestureRecognizer) : GestureRecognizer :=
  mkRecognizer ∅ ∅.

End Recognizer.

(** ** js/utils.js: [normalizedToWorld] and [lerp] *)

Module Utils.
Import JsMath Gestures.

(** The [options] of [normalizedToWorld]; a property that is missing is
    [None] and takes its default. *)
Record WorldOptions := mkOptions {
  scaleX : option Q; scaleY : option Q; scaleZ : option Q;
  offsetZ : option Q
}.

Definition normalizedToWorld (landmark : Landmark) (options : WorldOptions)
  : Landmark :=
  let scaleX := default 8%Q (scaleX options) in
  let scaleY := default 6%Q (scaleY options) in
  let scaleZ := default 4%Q (scaleZ options) in
  let offsetZ := default 0%Q (offsetZ options) in
  mkLandmark ((px landmark - 0.5) * - scaleX)%Q
             (- (py landmark - 0.5) * scaleY)%Q
             (- pz landmark * scaleZ + offsetZ)%Q.

(** [lerp] is used on colour channels, which are real numbers here. *)
Definition lerp (start end_ t : R) : R := (start + (end_ - start) * t)%R.

End Utils.

(** ** js/effects.js: the rest of [MagicParticleField]

    The colours live in a typed array of their own and are handed to
    [update] and returned by it.  [THREE.Color.setHSL], [Date.now()] and
    [Math.random()] are arguments: [setHSL h s l] is the colour
    (its [r], [g], [b] as the three coordinates), [now i k] is the value of
    the [k]-th call of [Date.now()] in round [i] of a loop, and [random k]
    the value of the [k]-th call of [Math.random()].  The typed arrays have
    [3 * particleCount] entries from [init] on, so every read is in
    range. *)

Module Field.
Import JsMath Swarm.

#[global] Instance R_inhabited : Inhabited R := populate 0%R.

(** Set by the constructor and never assigned again. *)
Definition lerpSpeed : R := 0.08.
Definition gravity : R := 0.3.
Definition inertia : R := 0.15.
Definition damping : R := 0.92.


(** One round of the loop of [scatter]. *)
Definition scatterParticle (random : nat → R)
  (originalScatterPositions targetPositions : list R) (i : nat) : list R :=
  let i3 := (i * 3)%nat in
  let targetPositions :=
    <[i3 := (originalScatterPositions !!! i3
             + (random (3 * i)%nat - 0.5) * 2)%R]> targetPositions in
  let targetPositions :=
    <[(i3 + 1)%nat := (originalScatterPositions !!! (i3 + 1)%nat
                       + (random (3 * i + 1)%nat - 0.5) * 2)%R]>
      targetPositions in
  <[(i3 + 2)%nat := (originalScatterPositions !!! (i3 + 2)%nat
                     + (random (3 * i + 2)%nat - 0.5) * 1)%R]>
    targetPositions.

Definition scatter (self : MagicParticleField) (random : nat → R)
  : MagicParticleField :=
  match state self with
  | scattered => self
  | _ =>
      mkField (particleCount self) (positions self)
        (fold_left (scatterParticle random (originalScatterPositions self))
                   (seq 0 (particleCount self)) (targetPositions self))
        (velocities self) (originalScatterPositions self)
        scattered (targetCenter self) (sphereRadius self)
        (scatterRange self) (velocity self)
  end.

(** One round of the loop of [updateGatherCenter]. *)
Definition shiftParticle (delta : Vector3) (targetPositions : list R)
  (i : nat) : list R :=
  let i3 := (i * 3)%nat in
  let targetPositions :=
    <[i3 := (targetPositions !!! i3 + vx delta)%R]> targetPositions in
  let targetPositions :=
    <[(i3 + 1)%nat := (targetPositions !!! (i3 + 1)%nat + vy delta)%R]>
      targetPositions in
  <[(i3 + 2)%nat := (targetPositions !!! (i3 + 2)%nat + vz delta)%R]>
    targetPositions.

Definition updateGatherCenter (self : MagicParticleField) (center : Vector3)
  : MagicParticleField :=
  match state self with
  | scattered => self
  | _ =>
      let delta :=
        mkVector3 (vx center - vx (targetCenter self))
                  (vy center - vy (targetCenter self))
                  (vz center - vz (targetCenter self)) in
      let velocity :=
        mkVector3 (vx (velocity self) + vx delta * inertia)
                  (vy (velocity self) + vy delta * inertia)
                  (vz (velocity self) + vz delta * inertia) in
      mkField (particleCount self) (positions self)
        (fold_left (shiftParticle delta) (seq 0 (particleCount self))
                   (targetPositions self))
        (velocities self) (originalScatterPositions self)
        (state self) center (sphereRadius self) (scatterRange self) velocity
  end.

(** [state === 'gathering' || state === 'gathered']. *)
Definition drawnIn (state : FieldState) : bool :=
  match state with scattered => false | _ => true end.

(** What the loop of [update] carries from round to round. *)
Record Round := mkRound {
  r_positions : list R;
  r_colors : list R;
  allReached : bool
}.

Section Update.

Variable setHSL : R → R → R → Vector3.
Variable now : nat → nat → R.
Variable random : nat → R.

(** One round of the loop of [update]; [self] has the velocity of this
    frame already. *)
Definition updateParticle (self : MagicParticleField) (round : Round)
  (i : nat) : Round :=
  let positions := r_positions round in
  let colors := r_colors round in
  let i3 := (i * 3)%nat in
  let x := positions !!! i3 in
  let y := positions !!! (i3 + 1)%nat in
  let z := positions !!! (i3 + 2)%nat in
  let tx := targetPositions self !!! i3 in
  let ty := targetPositions self !!! (i3 + 1)%nat in
  let tz := targetPositions self !!! (i3 + 2)%nat in
  let '(tx, ty, tz) :=
    if drawnIn (state self) then
      let centerDist :=
        sqrt ((tx - vx (targetCenter self)) ^ 2
              + (ty - vy (targetCenter self)) ^ 2
              + (tz - vz (targetCenter self)) ^ 2) in
      let delayFactor := (1 + (centerDist / sphereRadius self) * 0.5)%R in
      let k := (delayFactor * 0.3)%R in
      ((tx - vx (velocity self) * k)%R,
       (ty - vy (velocity self) * k)%R,
       (tz - vz (velocity self) * k)%R)
    else (tx, ty, tz) in
  let dx := (tx - x)%R in
  let dy := (ty - y)%R in
  let dz := (tz - z)%R in
  let dist := sqrt (dx * dx + dy * dy + dz * dz) in
  let allReached := if Rltb 0.01 dist then false else allReached round in
  let speed :=
    match state self with
    | scattered => (lerpSpeed * 0.5)%R
    | _ => 0.12%R
    end in
  let x := (x + dx * speed)%R in
  let y := (y + dy * speed)%R in
  let z := (z + dz * speed)%R in
  let '(x, y, z) :=
    match state self with
    | scattered =>
        ((x + sin (now i 0%nat * 0.001 + INR i) * 0.002)%R,
         (y + cos (now i 1%nat * 0.001 + INR i * 1.5) * 0.002)%R,
         (z + sin (now i 2%nat * 0.0015 + INR i * 0.5) * 0.001)%R)
    | _ => (x, y, z)
    end in
  let positions :=
    <[(i3 + 2)%nat := z]> (<[(i3 + 1)%nat := y]> (<[i3 := x]> positions)) in
  let '(color, t) :=
    if drawnIn (state self) then
      (setHSL (0.08 + random i * 0.05)%R 0.9%R 0.6%R, 0.05%R)
    else
      (setHSL (0.6 + (INR i / INR (particleCount self)) * 0.3)%R 0.8%R 0.6%R,
       0.02%R) in
  let colors :=
    <[i3 := Utils.lerp (colors !!! i3) (vx color) t]> colors in
  let colors :=
    <[(i3 + 1)%nat := Utils.lerp (colors !!! (i3 + 1)%nat) (vy color) t]>
      colors in
  let colors :=
    <[(i3 + 2)%nat := Utils.lerp (colors !!! (i3 + 2)%nat) (vz color) t]>
      colors in
  mkRound positions colors allReached.

(** [update()]: the field and its colours after the frame. *)
Definition update (self : MagicParticleField) (colors : list R)
  : MagicParticleField * list R :=
  let velocity :=
    mkVector3 (vx (velocity self) * damping) (vy (velocity self) * damping)
              (vz (velocity self) * damping) in
  let velocity :=
    if drawnIn (state self)
    then mkVector3 (vx velocity) (vy velocity - gravity * 0.01) (vz velocity)
    else velocity in
  let self :=
    mkField (particleCount self) (positions self) (targetPositions self)
      (velocities self) (originalScatterPositions self) (state self)
      (targetCenter self) (sphereRadius self) (scatterRange self) velocity in
  let round :=
    fold_left (updateParticle self) (seq 0 (particleCount self))
              (mkRound (positions self) colors true) in
  let state :=
    match state self with
    | gathering => if allReached round then gathered else gathering
    | state => state
    end in
  (mkField (particleCount self) (r_positions round) (targetPositions self)
     (velocities self) (originalScatterPositions self) state
     (targetCenter self) (sphereRadius self) (scatterRange self)
     (Swarm.velocity self),
   r_colors round).

End Update.

End Field.

(** ** js/main.js (Hand Magic Studio)

    The frame loop of the Studio: the first hand's gesture steers the
    particle field.  Drawing on the canvas and rendering are output only
    and are left out. *)

Module Studio.
Import JsMath Gestures HandTracking Swarm.

Record HandMagicStudio := mkStudio {
  gestureRecognizer : GestureRecognizer;
  magicField : MagicParticleField;
  colors : list R
}.


(** The point of the scene under a landmark; [videoAspect] is
    [videoWidth / videoHeight] and [screenAspect] is
    [innerWidth / innerHeight]. *)
Definition toWorld (videoAspect screenAspect : Q) (lm : Landmark)
  : Landmark :=
  let baseScale := 8%Q in
  let '(scaleX, scaleY, offsetX, offsetY) :=
    if Qltb screenAspect videoAspect then
      let scaleY := (baseScale / screenAspect)%Q in
      let scaleX := (scaleY * screenAspect)%Q in
      let visibleWidthRatio := (screenAspect / videoAspect)%Q in
      let clipRatio := ((1 - visibleWidthRatio) / 2)%Q in
      (scaleX, scaleY, clipRatio, 0%Q)
    else
      let scaleX := baseScale in
      let scaleY := (scaleX / screenAspect)%Q in
      let visibleHeightRatio := (videoAspect / screenAspect)%Q in
      let clipRatio := ((1 - visibleHeightRatio) / 2)%Q in
      (scaleX, scaleY, 0%Q, clipRatio) in
  let adjustedX := ((px lm - offsetX) / (1 - 2 * offsetX))%Q in
  let adjustedY := ((py lm - offsetY) / (1 - 2 * offsetY))%Q in
  mkLandmark ((adjustedX - 0.5) * - scaleX)
             (- (adjustedY - 0.5) * scaleY)
             (- pz lm * 4).

(** [new THREE.Vector3(p.x, p.y, p.z)]. *)
Definition toVector3 (p : Landmark) : Vector3 :=
  mkVector3 (Q2R (px p)) (Q2R (py p)) (Q2R (pz p)).

(** What a frame reads from outside: the result of [detectHands], the two
    aspect ratios, and the values of [Math.random()] and [Date.now()]. *)
Record Frame := mkFrame {
  hands : option (list Hand);
  videoAspect : Q;
  screenAspect : Q;
  scatterRandom : nat → R;
  updateRandom : nat → R;
  now : nat → nat → R
}.

(** The callback of [hands.forEach] in [processHands] for [index = 0];
    for the other hands it only draws.  [None] is the TypeError that
    reading [gesture.palmCenter.x] raises when [recognize] has returned no
    palm centre. *)
Definition processFirstHand (self : HandMagicStudio) (frame : Frame)
  (hand : Hand) : option HandMagicStudio :=
  let '(gesture, recognizer) :=
    recognize (gestureRecognizer self) (landmarks hand) 0 in
  match gtype (classified gesture) with
  | FIST =>
      info ← info gesture;
      let palmWorld :=
        toWorld (videoAspect frame) (screenAspect frame) (palmCenter info) in
      let handPos := toVector3 palmWorld in
      let magicField :=
        match getState (magicField self) with
        | scattered => gather (magicField self) handPos
        | _ => Field.updateGatherCenter (magicField self) handPos
        end in
      Some (mkStudio recognizer magicField (colors self))
  | OPEN =>
      Some (mkStudio recognizer
              (Field.scatter (magicField self) (scatterRandom frame))
              (colors self))
  | _ => Some (mkStudio recognizer (magicField self) (colors self))
  end.

Definition processHands (self : HandMagicStudio) (frame : Frame)
  (hands : list Hand) : option HandMagicStudio :=
  match hands with
  | [] => Some self
  | hand :: _ => processFirstHand self frame hand
  end.

(** One frame of [animate], once the Studio runs. *)
Definition animate (setHSL : R → R → R → Vector3) (self : HandMagicStudio)
  (frame : Frame) : option HandMagicStudio :=
  self ←
    match hands frame with
    | Some (hand :: rest) => processHands self frame (hand :: rest)
    | _ =>
        Some (mkStudio (gestureRecognizer self)
                (Field.scatter (magicField self) (scatterRandom frame))
                (colors self))
    end;
  let '(magicField, colors) :=
    Field.update setHSL (now frame) (updateRandom frame)
                 (magicField self) (colors self) in
  Some (mkStudio (gestureRecognizer self) magicField colors).

End Studio.

(** * Specifications

    The vocabulary in which the properties are stated, and the concrete
    inputs of the examples. *)

Import JsMath Gestures HandTracking Grid Swarm.

(** The rational [lra]; the plain name is the one for real numbers. *)
Ltac qlra := Lqa.lra.

(** ** The recogniser *)

(** How often [t] occurs in a history buffer. *)
Definition occurrences (t : GestureType) (buf : list GestureType) : nat :=
  length (filter (λ u, u = t) buf).

(** The entry of the object [counts] under the key [t], 0 when absent. *)
Fixpoint tally_get (counts : list (GestureType * nat)) (t : GestureType)
  : nat :=
  match counts with
  | [] => 0
  | (k, n) :: rest => if decide (k = t) then n else tally_get rest t
  end.

(** The type [applyHysteresis] emits for a buffer and a raw type. *)
Definition vote (buf : list GestureType) (raw : GestureType) : GestureType :=
  let '(maxCount, stableType) :=
    pick_stable (fold_left count_incr buf []) (0%nat, raw) in
  if (majority <=? maxCount)%nat then stableType else raw.

(** The named shapes, tested in the order of the source. *)
Definition shapeOf (fs : FingerStates) : GestureType :=
  if index fs && middle fs && negb (ring fs) && negb (pinky fs) then PEACE
  else if thumb fs && negb (index fs) && negb (middle fs) && negb (ring fs)
          && negb (pinky fs) then THUMBS_UP
  else if negb (thumb fs) && index fs && negb (middle fs) && negb (ring fs)
          && negb (pinky fs) then POINTING
  else if index fs && negb (middle fs) && negb (ring fs) && pinky fs then ROCK
  else NONE.

(** The previous raw gesture of the slot was a pinch. *)
Definition wasPinching (self : GestureRecognizer) (handIndex : nat) : Prop :=
  gtype <$> prevGestures self !! handIndex = Some PINCH.

(** The two-threshold test on the thumb-tip / index-tip distance [d]. *)
Definition isPinching (self : GestureRecognizer) (handIndex : nat) (d : R)
  : Prop :=
  (wasPinching self handIndex ∧ (d < 0.10)%R) ∨
  (¬ wasPinching self handIndex ∧ (d < 0.06)%R).

(** ** Example inputs *)

(** Twenty-one landmarks at the point [(x, y)]: no finger is extended, and
    the palm centre is [(x, y)]. *)
Definition handAt (x y : Q) : list Landmark :=
  replicate 21 (mkLandmark x y 0).

(** Such a hand as [detectHands] reports it, without world landmarks. *)
Definition fistAt (x y : Q) : Hand := mkHand (handAt x y) None "Right" 1.

(** Twenty-one landmarks with the wrist at the centre of the image and
    every other joint at the offset [(dx, dy)] from it. *)
Definition palmTowards (dx dy : Q) : list Landmark :=
  mkLandmark 0.5 0.5 0 :: replicate 20 (mkLandmark (0.5 + dx) (0.5 + dy) 0).

(** World landmarks of a palm whose normal has z-component 1. *)
Definition worldPalm : list Landmark :=
  <[5%nat := mkLandmark 1 0 0]>
    (<[17%nat := mkLandmark 0 1 0]> (replicate 21 (mkLandmark 0 0 0))).

(** Twenty-one landmarks of a spread hand: the wrist below [(x, y)], the
    thumb tip to its side, the four finger tips above it, and every other
    joint at [(x, y)].  All five fingers are extended, and thumb tip and
    index tip are far apart. *)
Definition openAt (x y : Q) : list Landmark :=
  (λ i : nat,
     if decide (i = 0) then mkLandmark x (y + 0.4) 0
     else if decide (i = 4) then mkLandmark (x - 0.4) y 0
     else if decide (i ∈ [8; 12; 16; 20]) then mkLandmark x (y - 0.4) 0
     else mkLandmark x y 0) <$> seq 0 21.

(** The spread hand at the centre of the image with the thumb tip moved
    next to the index tip, at the distance [d] from it. *)
Definition pinchedAt (d : Q) : list Landmark :=
  <[4%nat := mkLandmark (0.5 + d) 0.1 0]> (openAt 0.5 0.5).

(** World landmarks of the same palm turned away from the camera: index
    and pinky root have changed places, and the normal has z-component
    -1. *)
Definition worldBack : list Landmark :=
  <[5%nat := mkLandmark 0 1 0]>
    (<[17%nat := mkLandmark 1 0 0]> (replicate 21 (mkLandmark 0 0 0))).

(** A detector result with the given hands and nothing else. *)
Definition detected (hands : list (list Landmark)) : option DetectorResult :=
  Some (mkResult hands None None).

Definition viewport : Viewport := mkViewport 1280 720.

(** ** Ownership in the grid *)

(** All objects that rest in some cell, cell by cell. *)
Definition resting (cells : gmap Z (list nat)) : list nat :=
  map_to_list cells ≫= snd.

(** All objects that some hand slot holds. *)
Definition carried (held : gmap nat Held) : list nat :=
  (λ kv, element kv.2) <$> map_to_list held.

Definition inCell (st : HandGridController) (c : Z) (o : nat) : Prop :=
  ∃ arr, cellObjects st !! c = Some arr ∧ o ∈ arr.

Definition heldBy (st : HandGridController) (h : nat) (o : nat) : Prop :=
  ∃ held, heldObjects st !! h = Some held ∧ element held = o.

(** The objects [start] creates. *)
Definition scene : list nat := [0; 1]%nat.

(** The invariant: cells and hand slots together list every object of the
    scene once. *)
Definition ownership (st : HandGridController) : Prop :=
  resting (cellObjects st) ++ carried (heldObjects st) ≡ₚ scene.

(** [o] is in exactly one cell and in no hand, or in exactly one hand and
    in no cell. *)
Definition exactlyOnePlace (st : HandGridController) (o : nat) : Prop :=
  (∃ c, inCell st c o ∧ (∀ c', inCell st c' o → c' = c) ∧
        (∀ h, ¬ heldBy st h o)) ∨
  (∃ h, heldBy st h o ∧ (∀ h', heldBy st h' o → h' = h) ∧
        (∀ c, ¬ inCell st c o)).

(** The states of a session: the initial placement, and from there any
    grab into an empty hand slot, any drop that does not raise, any
    per-hand callback of [processHands] or of the follow loop, and any
    whole frame. *)
Inductive reachable : HandGridController → Prop :=
| reach_start : reachable start
| reach_grab vp st h c palm hand :
    reachable st → heldObjects st !! h = None →
    reachable (grabObject vp st h c palm hand)
| reach_drop st h c st' :
    reachable st → dropObject st h c = Some st' → reachable st'
| reach_hand vp st h hand :
    reachable st → reachable (processHand vp st h hand)
| reach_follow vp st h hand :
    reachable st → reachable (followHand vp st h hand)
| reach_frame vp st hands :
    reachable st → reachable (animate vp st hands).

(** Every entry of [cellObjects] belongs to a grid cell and is not empty. *)
Definition cellsWellFormed (st : HandGridController) : Prop :=
  ∀ c arr, cellObjects st !! c = Some arr →
           hasGridCell c = true ∧ arr ≠ [].

(** Every object that [cellObjects] lists for a cell is a child of that
    grid cell, without the class [held] and without a position of its
    own. *)
Definition restingShown (st : HandGridController) : Prop :=
  ∀ c arr o, cellObjects st !! c = Some arr → o ∈ arr →
    ∃ e, elements st !! o = Some e ∧ parent e = InCell c ∧
         heldClass e = false ∧ styleLeftTop e = None.

(** Every object that a hand slot holds is a child of the drag layer,
    carries the class [held], has a position, and shows the side that the
    slot records in [isBack]. *)
Definition heldShown (st : HandGridController) : Prop :=
  ∀ h held, heldObjects st !! h = Some held →
    ∃ e, elements st !! element held = Some e ∧ parent e = DragLayer ∧
         heldClass e = true ∧ is_Some (styleLeftTop e) ∧
         flipped e = isBack held.

Definition domConsistent (st : HandGridController) : Prop :=
  restingShown st ∧ heldShown st.

(** A grab fires for slot [h] between [st] and [st']: the slot was empty
    and holds something afterwards. *)
Definition grabFires (st st' : HandGridController) (h : nat) : Prop :=
  heldObjects st !! h = None ∧ is_Some (heldObjects st' !! h).

(** A frame without the part of [animate] that follows the held objects. *)
Definition frameHands (vp : Viewport) (st : HandGridController)
  (hands : list Hand) : HandGridController :=
  processHandsFrom vp
    (mkController (cellObjects st) (heldObjects st) (elements st) ∅
                  (gestureRecognizer st)) 0 hands.

(** The entry of [heldObjects] after hand 0 grabbed the object of cell 0
    with the palm pointing right and no world landmarks. *)
Definition heldWithoutNormal : Held :=
  mkHeld 0 0 (getPalmAngle (palmTowards 0.1 0)) None false false.

(** ** The swarm *)

(** The point of the sphere assigned to particle [i] out of [n]. *)
Definition spherePoint (center : Vector3) (radius : R) (n i : nat) : Vector3 :=
  mkVector3
    (vx center + radius * sin (phi n i) * cos (theta i))
    (vy center + radius * sin (phi n i) * sin (theta i))
    (vz center + radius * cos (phi n i)).

(** The three entries of a flat coordinate array that belong to particle
    [i]. *)
Definition particleAt (xs : list R) (i : nat) : option Vector3 :=
  x ← xs !! (i * 3)%nat; y ← xs !! (i * 3 + 1)%nat; z ← xs !! (i * 3 + 2)%nat;
  Some (mkVector3 x y z).

Definition squaredDistance (p q : Vector3) : R :=
  (vx p - vx q) ^ 2 + (vy p - vy q) ^ 2 + (vz p - vz q) ^ 2.

(** ** Doubles *)

Section DoublesSpec.
Import Doubles.

(** The double nearest to [n / d]: the division of IEEE 754 is correctly
    rounded, so [ratio 9 10] is the double that the literal [0.9]
    denotes. *)
Definition ratio (n d : Z) : spec_float := SFdiv prec emax (js n) (js d).

(** The double [2 ^ k]. *)
Definition pow2 (k : Z) : spec_float := SFldexp prec emax (js 1) k.

(** A double in its one representation: the mantissa has at most 53 bits,
    and exactly 53 unless the exponent is the smallest one. *)
Definition valid (x : spec_float) : Prop := valid_binary prec emax x = true.

(** A double below zero: the negative infinity or a negative finite
    number. *)
Definition negative (z : spec_float) : Prop :=
  z = S754_infinity true ∨ ∃ m e, z = S754_finite true m e.

(** A double that is zero or above: a zero of either sign, a positive
    finite number or the positive infinity. *)
Definition nonnegative (z : spec_float) : Prop :=
  (∃ s, z = S754_zero s) ∨ z = S754_infinity false ∨
  ∃ m e, z = S754_finite false m e.

(** A double that is zero or positive, and below 3. *)
Definition below3 (w : spec_float) : Prop :=
  w = S754_zero false ∨
  ∃ M E, w = S754_finite false M E ∧
         (E < -51 ∨ (E = -51 ∧ Z.pos M < 3 * 2 ^ 51))%Z.

(** The smallest exponent of a double. *)
Definition emin : Z := -1074.

(** The state of the shifter of [SpecFloat] after [k] steps on the
    mantissa [m]: the quotient, the bit shifted out last, and whether a bit
    shifted out before was set. *)
Definition shifted (m k : Z) : shr_record :=
  Build_shr_record (m / 2 ^ k)
    (2 ^ k <=? 2 * (m mod 2 ^ k))%Z
    (negb ((2 * (m mod 2 ^ k)) mod 2 ^ k =? 0)%Z).

(** [m / 2 ^ n] rounded to the nearest integer, ties to even. *)
Definition nearest (m n : Z) : Z :=
  let q := (m / 2 ^ n)%Z in
  let r := (m mod 2 ^ n)%Z in
  if ((2 ^ n <? 2 * r) || ((2 ^ n =? 2 * r) && Z.odd q))%Z
  then (q + 1)%Z else q.

(** A mantissa and an exponent as a double; an exponent too large gives
    an infinity. *)
Definition finish (s : bool) (m e : Z) : spec_float :=
  if (e <=? 971)%Z then S754_finite s (Z.to_pos m) e else S754_infinity s.

(** The same after rounding: the mantissa may be zero, and it may have
    reached [2 ^ 53]. *)
Definition pack (s : bool) (m1 e1 : Z) : spec_float :=
  if (m1 =? 0)%Z then S754_zero s
  else if (m1 =? 2 ^ 53)%Z then finish s (2 ^ 52) (e1 + 1)
  else finish s m1 e1.

End DoublesSpec.

(** ** The recogniser over a session *)

(** The recogniser states of a session: a fresh recogniser, and from there
    any call of [recognize] of either variant, and any [reset]. *)
Inductive session : GestureRecognizer → Prop :=
| session_new : session new_GestureRecognizer
| session_recognize self lms h :
    session self → session (recognize self lms h).2
| session_grid self lms h :
    session self → session (GridGestures.recognize self lms h).2
| session_reset self : session self → session (Recognizer.reset self).

(** No buffer of the recogniser holds the type [t]. *)
Definition neverSeen (t : GestureType) (self : GestureRecognizer) : Prop :=
  ∀ h buf, gestureHistory self !! h = Some buf → t ∉ buf.

(** Two points have the same coordinates as rational numbers. *)
Definition sameLandmark (p q : Landmark) : Prop :=
  (px p == px q ∧ py p == py q ∧ pz p == pz q)%Q.

(** ** The tracker over several frames *)

(** The same raw landmarks observed [n] times in a row in one slot. *)
Fixpoint observe (n : nat) (self : HandTracker) (lms : list Landmark)
  (handIndex : nat) : HandTracker :=
  match n with
  | O => self
  | S n => observe n (smoothLandmarks self lms handIndex).2 lms handIndex
  end.

(** The difference of two points is the [c]-fold of the difference of two
    other points, coordinate by coordinate. *)
Definition errorScaled (c : Q) (s r p r' : Landmark) : Prop :=
  (px s - px r == c * (px p - px r') ∧
   py s - py r == c * (py p - py r') ∧
   pz s - pz r == c * (pz p - pz r'))%Q.

(** [(1/5)^n], the share of the initial error left after [n] frames. *)
Definition fifths (n : nat) : Q := 1 / inject_Z (5 ^ Z.of_nat n).

(** [v] lies between [a] and [b], whichever is the larger. *)
Definition between (a b v : Q) : Prop :=
  (a <= v ∧ v <= b)%Q ∨ (b <= v ∧ v <= a)%Q.

(** ** The document and the two maps of the grid *)

(** A drop fires for slot [h] between [st] and [st']: the slot held
    something and is empty afterwards. *)
Definition dropFires (st st' : HandGridController) (h : nat) : Prop :=
  is_Some (heldObjects st !! h) ∧ heldObjects st' !! h = None.

(** Nothing was moved between [st] and [st']: the two maps and the
    document are the same. *)
Definition nothingMoved (st st' : HandGridController) : Prop :=
  cellObjects st' = cellObjects st ∧ heldObjects st' = heldObjects st ∧
  elements st' = elements st.

(** Such a hand as [detectHands] reports it, without world landmarks. *)
Definition spreadAt (x y : Q) : Hand := mkHand (openAt x y) None "Right" 1.

(** ** The highlighted cells and the position of a held object *)



(** ** The particle field over a session *)

#[global] Instance FieldState_eq_dec : EqDecision FieldState.
Proof. solve_decision. Defined.

(** The typed arrays have three entries per particle. *)
Definition wellFormed (f : MagicParticleField) : Prop :=
  length (positions f) = (3 * particleCount f)%nat ∧
  length (targetPositions f) = (3 * particleCount f)%nat ∧
  length (originalScatterPositions f) = (3 * particleCount f)%nat.

(** The fields of a session: the field as constructed, and from there any
    call of [gather], [updateGatherCenter], [scatter] and [update]. *)
Inductive fieldSession : MagicParticleField → Prop :=
| field_new random : fieldSession (new_MagicParticleField random)
| field_gather f center : fieldSession f → fieldSession (gather f center)
| field_shift f center :
    fieldSession f → fieldSession (Field.updateGatherCenter f center)
| field_scatter f random :
    fieldSession f → fieldSession (Field.scatter f random)
| field_update setHSL now random f colors :
    fieldSession f →
    fieldSession (Field.update setHSL now random f colors).1.

(** The sum of two vectors. *)
Definition translate (p delta : Vector3) : Vector3 :=
  mkVector3 (vx p + vx delta) (vy p + vy delta) (vz p + vz delta).

(** The difference [center - from]. *)
Definition offsetTo (center from : Vector3) : Vector3 :=
  mkVector3 (vx center - vx from) (vy center - vy from)
            (vz center - vz from).

(** Every target is the point of the golden-angle sphere around the
    target centre. *)
Definition targetsOnSphere (f : MagicParticleField) : Prop :=
  ∀ i, i < particleCount f →
    particleAt (targetPositions f) i
    = Some (spherePoint (targetCenter f) (sphereRadius f)
                        (particleCount f) i).

(** Every value of [Math.random()] lies in [[0, 1)]. *)
Definition unitDraws (random : nat → R) : Prop :=
  ∀ k, (0 <= random k < 1)%R.

(** The position a round of [update] steers a particle to: its target,
    held back by the velocity of the swarm while it is drawn in. *)
Definition aim (f : MagicParticleField) (target : Vector3) : Vector3 :=
  if Field.drawnIn (state f) then
    let centerDist := sqrt (squaredDistance target (targetCenter f)) in
    let k := ((1 + centerDist / sphereRadius f * 0.5) * 0.3)%R in
    mkVector3 (vx target - vx (velocity f) * k)
              (vy target - vy (velocity f) * k)
              (vz target - vz (velocity f) * k)
  else target.

(** The share of the way to its aim that a particle covers in a frame. *)
Definition pace (f : MagicParticleField) : R :=
  match state f with
  | scattered => (Field.lerpSpeed * 0.5)%R
  | _ => 0.12%R
  end.

(** The flutter that a scattered particle gets on top. *)
Definition flutter (f : MagicParticleField) (now : nat → nat → R) (i : nat)
  : Vector3 :=
  match state f with
  | scattered =>
      mkVector3 (sin (now i 0 * 0.001 + INR i) * 0.002)
                (cos (now i 1 * 0.001 + INR i * 1.5) * 0.002)
                (sin (now i 2 * 0.0015 + INR i * 0.5) * 0.001)
  | _ => mkVector3 0 0 0
  end.

(** Where round [i] of [update] puts a particle that is at [p]. *)
Definition moved (f : MagicParticleField) (now : nat → nat → R) (i : nat)
  (target p : Vector3) : Vector3 :=
  let a := aim f target in
  translate
    (mkVector3 (vx p + (vx a - vx p) * pace f) (vy p + (vy a - vy p) * pace f)
               (vz p + (vz a - vz p) * pace f))
    (flutter f now i).

(** The particle at [p] is within 0.01 of its aim. *)
Definition arrived (f : MagicParticleField) (target p : Vector3) : Prop :=
  (sqrt (squaredDistance (aim f target) p) <= 0.01)%R.

(** The field with the velocity that [update] gives it first. *)
Definition slowed (f : MagicParticleField) : MagicParticleField :=
  mkField (particleCount f) (positions f) (targetPositions f)
    (velocities f) (originalScatterPositions f) (state f) (targetCenter f)
    (sphereRadius f) (scatterRange f)
    (mkVector3 (vx (velocity f) * 0.92)
               (vy (velocity f) * 0.92
                - (if Field.drawnIn (state f) then 0.3 * 0.01 else 0))
               (vz (velocity f) * 0.92)).

(** ** The Studio *)




(** The factor by which [toWorld] scales the horizontal offset from the
    centre of the image. *)
Definition coverScale (videoAspect screenAspect : Q) : Q :=
  if Qltb screenAspect videoAspect then 8 * (videoAspect / screenAspect)
  else 8.


(** * Proofs *)

(** ** Comparisons *)

Lemma Qltb_lt (a b : Q) : Qltb a b = true ↔ (a < b)%Q.
Proof. unfold Qltb, Qlt. apply Z.ltb_lt. Qed.

Lemma Rltb_lt (a b : R) : Rltb a b = true ↔ (a < b)%R.
Proof. unfold Rltb. destruct (Rlt_dec a b); split; intros; try done. Qed.

Lemma Rltb_ge (a b : R) : Rltb a b = false ↔ ¬ (a < b)%R.
Proof. unfold Rltb. destruct (Rlt_dec a b); split; intros; try done. Qed.

(** ** The cell mapping *)

Lemma Qfloor_ge_iff (z : Z) (q : Q) :
  (z <= Qfloor q)%Z ↔ (inject_Z z <= q)%Q.
Proof.
  split.
  - intros H. apply Qle_trans with (inject_Z (Qfloor q)).
    + now rewrite <- Zle_Qle.
    + apply Qfloor_le.
  - intros H.
    assert (Hlt : (inject_Z z < inject_Z (Qfloor q + 1))%Q).
    { eapply Qle_lt_trans; [exact H | apply Qlt_floor]. }
    rewrite <- Zlt_Qlt in Hlt. lia.
Qed.

Lemma Qfloor_lt_iff (z : Z) (q : Q) :
  (Qfloor q < z)%Z ↔ (q < inject_Z z)%Q.
Proof.
  split.
  - intros H. apply Qlt_le_trans with (inject_Z (Qfloor q + 1)).
    + apply Qlt_floor.
    + rewrite <- Zle_Qle. lia.
  - intros H. destruct (Z_lt_le_dec (Qfloor q) z) as [Hz|Hz]; [exact Hz|].
    apply Qfloor_ge_iff in Hz. exfalso. exact (Qlt_not_le _ _ H Hz).
Qed.

Lemma col_in_range (x : Q) :
  (0 <= Qfloor ((1 - x) * inject_Z gridCols) < gridCols)%Z ↔
  (0 < x ∧ x <= 1)%Q.
Proof.
  rewrite Qfloor_ge_iff, Qfloor_lt_iff. unfold gridCols.
  change (inject_Z 0) with 0%Q. change (inject_Z 3) with 3%Q.
  split; intros [H1 H2]; split; qlra.
Qed.

Lemma row_in_range (y : Q) :
  (0 <= Qfloor (y * inject_Z gridRows) < gridRows)%Z ↔ (0 <= y ∧ y < 1)%Q.
Proof.
  rewrite Qfloor_ge_iff, Qfloor_lt_iff. unfold gridRows.
  change (inject_Z 0) with 0%Q. change (inject_Z 3) with 3%Q.
  split; intros [H1 H2]; split; qlra.
Qed.

Lemma getCellIndex_unfold (x y : Q) :
  let col := Qfloor ((1 - x) * 3) in
  let row := Qfloor (y * 3) in
  getCellIndex x y =
    if decide ((0 <= col < 3) ∧ (0 <= row < 3))%Z
    then (row * 3 + col)%Z else (-1)%Z.
Proof.
  intros col row. unfold getCellIndex. fold col. fold row.
  change (inject_Z gridCols) with 3%Q. change (inject_Z gridRows) with 3%Q.
  fold col row. unfold gridCols, gridRows.
  destruct (decide _) as [H|H].
  - replace (col <? 0)%Z with false by lia.
    replace (col >=? 3)%Z with false by lia.
    replace (row <? 0)%Z with false by lia.
    replace (row >=? 3)%Z with false by lia. reflexivity.
  - destruct (col <? 0)%Z eqn:E1; [reflexivity|].
    destruct (col >=? 3)%Z eqn:E2; [reflexivity|].
    destruct (row <? 0)%Z eqn:E3; [reflexivity|].
    destruct (row >=? 3)%Z eqn:E4; [reflexivity|].
    exfalso. apply H. lia.
Qed.

Lemma getCellIndex_no_cell (x y : Q) :
  getCellIndex x y = (-1)%Z ↔ ¬ ((0 < x ∧ x <= 1)%Q ∧ (0 <= y ∧ y < 1)%Q).
Proof.
  pose proof (getCellIndex_unfold x y) as Hu. cbv zeta in Hu.
  pose proof (col_in_range x) as Hc. pose proof (row_in_range y) as Hr.
  change (inject_Z gridCols) with 3%Q in Hc.
  change (inject_Z gridRows) with 3%Q in Hr.
  unfold gridCols in Hc. unfold gridRows in Hr.
  rewrite Hu. destruct (decide _) as [[H1 H2]|Hn].
  - split; [lia|]. intros Hn. destruct Hn. split; [by apply Hc|by apply Hr].
  - split; [|done]. intros _ [H1 H2]. apply Hn.
    split; [by apply Hc|by apply Hr].
Qed.

Lemma getCellIndex_range (x y : Q) :
  (0 <= getCellIndex x y)%Z → (0 <= getCellIndex x y <= 8)%Z.
Proof.
  pose proof (getCellIndex_unfold x y) as Hu. cbv zeta in Hu.
  rewrite Hu. destruct (decide _) as [[H1 H2]|Hn]; lia.
Qed.

(** C10.  For every [y] the cell mapping returns -1 at [x = 0], although 0
    lies in [[0, 1)]: the mirror flip gives [flippedX = 1], so
    [col = floor(3) = 3] fails the column check. *)
Theorem getCellIndex_left_edge (y : Q) :
  (0 <= 0 ∧ 0 < 1)%Q ∧
  Qfloor ((1 - 0) * inject_Z gridCols) = 3%Z ∧
  getCellIndex 0 y = (-1)%Z.
Proof.
  split; [split; qlra|]. split; [reflexivity|].
  apply getCellIndex_no_cell. intros [[H0 _] _]. qlra.
Qed.

(** ** The cell mapping in doubles

    What [SpecFloat] computes when it rounds, and from there the regions
    of the plane on which [getCellIndex] returns a cell. *)

Section Binary64.
Import Doubles.

(** ** Digits *)

Lemma digits2_size (m : positive) : digits2_pos m = Pos.size m.
Proof. induction m; simpl; congruence. Qed.

Lemma digits_bounds (m : positive) :
  (2 ^ (Z.pos (digits2_pos m) - 1) <= Z.pos m < 2 ^ Z.pos (digits2_pos m))%Z.
Proof.
  rewrite digits2_size.
  pose proof (Pos.size_gt m) as Hgt. pose proof (Pos.size_le m) as Hle.
  assert (H2 : (2 ^ Z.pos (Pos.size m) = Z.pos (2 ^ Pos.size m))%Z).
  { rewrite Pos2Z.inj_pow. reflexivity. }
  assert (Hs : (2 ^ Z.pos (Pos.size m) = 2 * 2 ^ (Z.pos (Pos.size m) - 1))%Z).
  { rewrite <- Z.pow_succ_r by lia. f_equal. lia. }
  split; [|lia].
  assert (Hz : (Z.pos (2 ^ Pos.size m) <= Z.pos m~0)%Z)
    by (apply Pos2Z.pos_le_pos; exact Hle).
  lia.
Qed.

(** ** Shifting right *)

Lemma shr_1_nonneg (m : Z) (r s : bool) :
  (0 <= m)%Z →
  shr_1 (Build_shr_record m r s) = Build_shr_record (m / 2) (Z.odd m) (r || s).
Proof.
  intros Hm. destruct m as [|p|p]; [reflexivity| |lia].
  destruct p as [p|p|]; simpl; f_equal.
  - rewrite Pos2Z.inj_xI. apply Z.div_unique with 1%Z; lia.
  - rewrite Pos2Z.inj_xO. apply Z.div_unique with 0%Z; lia.
Qed.

Lemma shifted_0 (m : Z) : shifted m 0 = Build_shr_record m false false.
Proof.
  unfold shifted. rewrite Z.pow_0_r, Z.div_1_r, Z.mod_1_r. reflexivity.
Qed.

Lemma shifted_step (m k : Z) :
  (0 <= m)%Z → (0 <= k)%Z → shr_1 (shifted m k) = shifted m (k + 1).
Proof.
  intros Hm Hk. unfold shifted.
  assert (HP : (0 < 2 ^ k)%Z) by (apply Z.pow_pos_nonneg; lia).
  rewrite shr_1_nonneg by (apply Z.div_pos; lia).
  rewrite Z.pow_add_r, Z.pow_1_r by lia.
  set (P := (2 ^ k)%Z) in *.
  pose proof (Z.mod_pos_bound m P HP) as Hrho.
  rewrite Z.rem_mul_r by lia. rewrite Z.div_div by lia.
  set (rho := (m mod P)%Z) in *.
  pose proof (Z.mod_pos_bound (m / P) 2 ltac:(lia)) as Hb.
  rewrite Zodd_mod.
  set (b := ((m / P) mod 2)%Z) in *.
  f_equal.
  - destruct (Z.eqb_spec b 1) as [->|Hb1].
    + symmetry. apply Z.leb_le. lia.
    + symmetry. apply Z.leb_gt. assert (Hb0 : (b = 0)%Z) by lia. rewrite Hb0. lia.
  - assert (Hs : ((2 * (rho + P * b)) mod (P * 2) =? 0)%Z = (rho =? 0)%Z).
    { replace (2 * (rho + P * b))%Z with ((rho + P * b) * 2)%Z by lia.
      rewrite Zmult_mod_distr_r.
      rewrite (Z.mul_comm P b), Z_mod_plus_full.
      rewrite (Z.mod_small rho P) by lia.
      destruct (Z.eqb_spec rho 0), (Z.eqb_spec (rho * 2)%Z 0); lia. }
    rewrite Hs.
    destruct (Z.eqb_spec rho 0) as [H0|Hne].
    + rewrite H0. rewrite Z.mul_0_r, Z.mod_0_l by lia.
      replace (P <=? 0)%Z with false by (symmetry; apply Z.leb_gt; lia).
      reflexivity.
    + destruct (Z.leb_spec P (2 * rho)%Z) as [H1|H1]; [reflexivity|].
      rewrite Z.mod_small by lia.
      destruct (Z.eqb_spec (2 * rho)%Z 0); [lia|reflexivity].
Qed.

Lemma iter_shifted (m : Z) (p : positive) : ∀ k,
  (0 <= m)%Z → (0 <= k)%Z →
  SpecFloat.iter_pos shr_1 p (shifted m k) = shifted m (k + Z.pos p).
Proof.
  induction p as [p IH|p IH|]; intros k Hm Hk; cbn [SpecFloat.iter_pos].
  - rewrite shifted_step, !IH by lia. f_equal. lia.
  - rewrite !IH by lia. f_equal. lia.
  - by apply shifted_step.
Qed.

Lemma shr_exact (m e n : Z) :
  (0 <= m)%Z →
  shr (Build_shr_record m false false) e n =
    if (0 <? n)%Z then (shifted m n, (e + n)%Z)
    else (Build_shr_record m false false, e).
Proof.
  intros Hm. unfold shr. destruct n as [|p|p]; try reflexivity.
  rewrite <- shifted_0, iter_shifted by lia. reflexivity.
Qed.

Lemma round_shifted (m n : Z) :
  (0 <= m)%Z → (0 <= n)%Z →
  round_nearest_even (shr_m (shifted m n)) (loc_of_shr_record (shifted m n))
  = nearest m n.
Proof.
  intros Hm Hn. unfold shifted, nearest. cbn [shr_m].
  assert (HP : (0 < 2 ^ n)%Z) by (apply Z.pow_pos_nonneg; lia).
  set (P := (2 ^ n)%Z) in *.
  pose proof (Z.mod_pos_bound m P HP) as Hrho.
  set (rho := (m mod P)%Z) in *. set (q := (m / P)%Z).
  unfold loc_of_shr_record.
  destruct (Z.leb_spec P (2 * rho)%Z) as [H1|H1].
  - destruct (Z.eqb_spec ((2 * rho) mod P)%Z 0) as [H2|H2]; simpl.
    + assert (Heq : (2 * rho = P)%Z).
      { destruct (Z.eq_dec (2 * rho)%Z P) as [|Hne]; [done|].
        rewrite <- (Z_mod_plus_full _ (-1)) in H2.
        rewrite Z.mod_small in H2 by lia. lia. }
      replace (P <? 2 * rho)%Z with false by (symmetry; apply Z.ltb_ge; lia).
      replace (P =? 2 * rho)%Z with true by (symmetry; apply Z.eqb_eq; lia).
      simpl. rewrite <- Z.negb_odd. by destruct (Z.odd q).
    + assert (Hlt : (P < 2 * rho)%Z).
      { destruct (Z.eq_dec (2 * rho)%Z P) as [He|Hne]; [|lia].
        rewrite He, Z_mod_same_full in H2. done. }
      replace (P <? 2 * rho)%Z with true by (symmetry; apply Z.ltb_lt; lia).
      reflexivity.
  - replace (P <? 2 * rho)%Z with false by (symmetry; apply Z.ltb_ge; lia).
    replace (P =? 2 * rho)%Z with false by (symmetry; apply Z.eqb_neq; lia).
    simpl. by destruct (negb _).
Qed.

(** ** Rounding *)

Lemma fexp_eq (e : Z) : fexp prec emax e = Z.max (e - 53) emin.
Proof. reflexivity. Qed.

Lemma nearest_0 (m : Z) : nearest m 0 = m.
Proof.
  unfold nearest. rewrite Z.pow_0_r, Z.div_1_r, Z.mod_1_r. reflexivity.
Qed.

Lemma nearest_bounds (m n : Z) :
  (0 <= m)%Z → (0 <= n)%Z →
  (m / 2 ^ n <= nearest m n <= m / 2 ^ n + 1)%Z.
Proof. intros Hm Hn. unfold nearest. destruct (_ || _); lia. Qed.

Lemma Zdigits2_le (m1 : Z) (k : Z) :
  (0 < m1 < 2 ^ k)%Z → (0 <= k)%Z → (Zdigits2 m1 <= k)%Z.
Proof.
  intros [H0 Hm] Hk. destruct m1 as [|p|p]; try lia. simpl.
  pose proof (digits_bounds p) as [Hlo _].
  destruct (Z_lt_le_dec k (Z.pos (digits2_pos p))) as [Hlt|Hle]; [|done].
  assert (Hpw : (2 ^ k <= 2 ^ (Z.pos (digits2_pos p) - 1))%Z)
    by (apply Z.pow_le_mono_r; lia).
  lia.
Qed.

Lemma round_aux_spec (s : bool) (m : positive) (e : Z) :
  let e1 := fexp prec emax (Z.pos (digits2_pos m) + e) in
  (e <= e1)%Z →
  binary_round_aux prec emax s (Z.pos m) e loc_Exact
  = pack s (nearest (Z.pos m) (e1 - e)) e1.
Proof.
  intros e1 Hn. unfold binary_round_aux, shr_fexp.
  cbn [Zdigits2 shr_record_of_loc]. fold e1.
  assert (He1 : (emin <= e1 ∧ Z.pos (digits2_pos m) + e - 53 <= e1)%Z).
  { subst e1. rewrite fexp_eq. lia. }
  clearbody e1. remember (e1 - e)%Z as n eqn:Hndef.
  pose proof (digits_bounds m) as [_ Hd].
  assert (Hq : (Z.pos m / 2 ^ n < 2 ^ 53)%Z).
  { apply Z.div_lt_upper_bound; [apply Z.pow_pos_nonneg; lia|].
    rewrite <- Z.pow_add_r by lia.
    eapply Z.lt_le_trans; [exact Hd|]. apply Z.pow_le_mono_r; lia. }
  pose proof (nearest_bounds (Z.pos m) n ltac:(lia) ltac:(lia)) as Hm1.
  assert (Hq0 : (0 <= Z.pos m / 2 ^ n)%Z)
    by (apply Z.div_pos; [lia|apply Z.pow_pos_nonneg; lia]).
  assert (Hfirst :
    (let '(mrs', e') := shr (Build_shr_record (Z.pos m) false false) e n in
     (round_nearest_even (shr_m mrs') (loc_of_shr_record mrs'), e'))
    = (nearest (Z.pos m) n, e1)).
  { rewrite shr_exact by lia. destruct (Z.ltb_spec 0 n) as [H|H].
    - rewrite round_shifted by lia. f_equal. lia.
    - assert (Hn0 : n = 0%Z) by lia. rewrite Hn0, nearest_0. cbn. f_equal. lia. }
  destruct (shr _ e n) as [mrs' e']. inversion Hfirst as [[Hm' He']].
  rewrite Hm'. clear Hfirst Hm' He' mrs' e'.
  set (m1 := nearest (Z.pos m) n) in *.
  unfold pack. rewrite shr_exact by lia.
  destruct (Z.eqb_spec m1 0) as [H0|H0].
  { rewrite H0. cbn [Zdigits2]. rewrite fexp_eq.
    replace (0 <? Z.max (0 + e1 - 53) emin - e1)%Z with false
      by (symmetry; apply Z.ltb_ge; lia).
    reflexivity. }
  destruct (Z.eqb_spec m1 (2 ^ 53)) as [H53|H53].
  { rewrite H53. change (Zdigits2 (2 ^ 53)) with 54%Z. rewrite fexp_eq.
    replace (Z.max (54 + e1 - 53) emin - e1)%Z with 1%Z by lia.
    cbn [Z.ltb Z.compare]. unfold shifted. cbn [shr_m].
    change (2 ^ 53 / 2 ^ 1)%Z with (2 ^ 52)%Z.
    unfold finish, emax, prec. reflexivity. }
  assert (Hd1 : (Zdigits2 m1 <= 53)%Z) by (apply Zdigits2_le; lia).
  rewrite fexp_eq.
  replace (0 <? Z.max (Zdigits2 m1 + e1 - 53) emin - e1)%Z with false
    by (symmetry; apply Z.ltb_ge; lia).
  cbn [shr_m]. destruct m1 as [|p|p]; try lia.
  unfold finish, emax, prec. reflexivity.
Qed.

Lemma iter_xO (m d : positive) :
  Z.pos (Pos.iter xO m d) = (Z.pos m * 2 ^ Z.pos d)%Z.
Proof.
  induction d as [|d IH] using Pos.peano_ind.
  - simpl. rewrite Z.pow_1_r. lia.
  - rewrite Pos.iter_succ, Pos2Z.inj_succ, Z.pow_succ_r by lia.
    rewrite Pos2Z.inj_xO, IH. lia.
Qed.

Lemma digits_shift (m : positive) (k : Z) (mz : positive) :
  (0 <= k)%Z → Z.pos mz = (Z.pos m * 2 ^ k)%Z →
  Z.pos (digits2_pos mz) = (Z.pos (digits2_pos m) + k)%Z.
Proof.
  intros Hk Hmz.
  pose proof (digits_bounds m) as [Hlo Hhi].
  pose proof (digits_bounds mz) as [Hlo' Hhi']. rewrite Hmz in Hlo', Hhi'.
  assert (HP : (0 < 2 ^ k)%Z) by (apply Z.pow_pos_nonneg; lia).
  set (d := Z.pos (digits2_pos m)) in *.
  set (d' := Z.pos (digits2_pos mz)) in *.
  assert (H1 : (2 ^ (d' - 1) < 2 ^ (d + k))%Z).
  { rewrite Z.pow_add_r by lia. nia. }
  assert (H2 : (2 ^ (d - 1 + k) < 2 ^ d')%Z).
  { rewrite Z.pow_add_r by lia. nia. }
  apply Z.pow_lt_mono_r_iff in H1; [|lia|lia].
  apply Z.pow_lt_mono_r_iff in H2; [|lia|lia].
  lia.
Qed.

Lemma binary_round_spec (s : bool) (m : positive) (e : Z) :
  let e1 := fexp prec emax (Z.pos (digits2_pos m) + e) in
  binary_round prec emax s m e
  = if (e1 <=? e)%Z then finish s (Z.pos m * 2 ^ (e - e1)) e1
    else pack s (nearest (Z.pos m) (e1 - e)) e1.
Proof.
  intros e1. unfold binary_round, shl_align. fold e1.
  assert (He1 : (emin <= e1 ∧ Z.pos (digits2_pos m) + e - 53 <= e1)%Z).
  { subst e1. rewrite fexp_eq. lia. }
  destruct (Z.leb_spec e1 e) as [Hle|Hgt].
  - destruct (e1 - e)%Z as [|d|d] eqn:Ed; try lia.
    + rewrite round_aux_spec by (fold e1; lia). fold e1.
      replace (e - e1)%Z with 0%Z by lia. rewrite Ed.
      rewrite nearest_0, Z.pow_0_r, Z.mul_1_r. unfold pack.
      pose proof (digits_bounds m) as [_ Hd].
      assert (Hlt : (Z.pos m < 2 ^ 53)%Z).
      { eapply Z.lt_le_trans; [exact Hd|]. apply Z.pow_le_mono_r; lia. }
      destruct (Z.eqb_spec (Z.pos m) 0); [lia|].
      destruct (Z.eqb_spec (Z.pos m) (2 ^ 53)); [lia|done].
    + assert (Hk : (e - e1 = Z.pos d)%Z) by lia.
      pose proof (iter_xO m d) as Hmz.
      set (mz := Pos.iter xO m d) in *.
      pose proof (digits_shift m (Z.pos d) mz ltac:(lia) Hmz) as Hdz.
      assert (Hc : fexp prec emax (Z.pos (digits2_pos mz) + e1) = e1).
      { rewrite Hdz. replace (Z.pos (digits2_pos m) + Z.pos d + e1)%Z
          with (Z.pos (digits2_pos m) + e)%Z by lia. done. }
      rewrite round_aux_spec by (rewrite Hc; lia). rewrite Hc.
      replace (e1 - e1)%Z with 0%Z by lia. rewrite nearest_0, Hmz, Hk.
      unfold pack.
      pose proof (digits_bounds mz) as [_ Hd]. rewrite Hmz in Hd.
      assert (Hlt : (Z.pos m * 2 ^ Z.pos d < 2 ^ 53)%Z).
      { eapply Z.lt_le_trans; [exact Hd|]. apply Z.pow_le_mono_r; lia. }
      destruct (Z.eqb_spec (Z.pos m * 2 ^ Z.pos d) 0); [lia|].
      destruct (Z.eqb_spec (Z.pos m * 2 ^ Z.pos d) (2 ^ 53)); [lia|done].
  - destruct (e1 - e)%Z as [|d|d] eqn:Ed; try lia.
    rewrite round_aux_spec by (fold e1; lia). fold e1. by rewrite Ed.
Qed.

(** ** Valid doubles *)

Lemma digits_unique (p : positive) (k : Z) :
  (2 ^ (k - 1) <= Z.pos p < 2 ^ k)%Z → Z.pos (digits2_pos p) = k.
Proof.
  intros [Hlo Hhi]. pose proof (digits_bounds p) as [Dlo Dhi].
  set (d := Z.pos (digits2_pos p)) in *.
  assert (Hk : (0 < k)%Z).
  { destruct k as [|k|k]; [simpl in Hhi; lia|lia|].
    rewrite Z.pow_neg_r in Hhi by lia. lia. }
  assert (H1 : (2 ^ (k - 1) < 2 ^ d)%Z) by lia.
  assert (H2 : (2 ^ (d - 1) < 2 ^ k)%Z) by lia.
  apply Z.pow_lt_mono_r_iff in H1; [|lia|lia].
  apply Z.pow_lt_mono_r_iff in H2; [|lia|lia].
  lia.
Qed.

Lemma valid_finite (s : bool) (m : positive) (e : Z) :
  valid (S754_finite s m e) ↔
  (Z.pos m < 2 ^ 53 ∧ emin <= e <= 971 ∧ (e = emin ∨ 2 ^ 52 <= Z.pos m))%Z.
Proof.
  unfold valid, valid_binary, bounded, canonical_mantissa.
  rewrite andb_true_iff, Z.eqb_eq, Z.leb_le, fexp_eq.
  pose proof (digits_bounds m) as [Dlo Dhi].
  set (d := Z.pos (digits2_pos m)) in *.
  change (emax - prec)%Z with 971%Z. split.
  - intros [Hc He].
    assert (Hd : (d <= 53)%Z) by lia.
    assert (Hm : (Z.pos m < 2 ^ 53)%Z).
    { eapply Z.lt_le_trans; [exact Dhi|]. apply Z.pow_le_mono_r; lia. }
    split; [done|]. split; [lia|].
    destruct (Z.eq_dec e emin) as [|Hne]; [by left|right].
    assert (d = 53)%Z as Hd53 by lia. rewrite Hd53 in Dlo. exact Dlo.
  - intros (Hm & He & Hn).
    assert (Hd : (d <= 53)%Z).
    { destruct (Z_lt_le_dec 53 d) as [Hlt|]; [|done].
      assert ((2 ^ 53 <= 2 ^ (d - 1))%Z) by (apply Z.pow_le_mono_r; lia).
      lia. }
    split; [|lia]. destruct Hn as [->|Hn]; [lia|].
    assert (Hd53 : (53 <= d)%Z).
    { destruct (Z_lt_le_dec d 53) as [Hlt|]; [|done].
      assert ((2 ^ d <= 2 ^ 52)%Z) by (apply Z.pow_le_mono_r; lia).
      lia. }
    lia.
Qed.

Lemma finish_valid (s : bool) (m e : Z) :
  (0 < m < 2 ^ 53)%Z → (emin <= e)%Z → (e = emin ∨ 2 ^ 52 <= m)%Z →
  valid (finish s m e).
Proof.
  intros Hm He Hn. unfold finish. destruct (Z.leb_spec e 971); [|done].
  apply valid_finite. rewrite Z2Pos.id by lia. lia.
Qed.

(** What rounding makes of the mantissa [m] at the exponent [e], when
    [e] is below the exponent of the result. *)
Lemma nearest_normal (m : positive) (e : Z) :
  let e1 := fexp prec emax (Z.pos (digits2_pos m) + e) in
  (e <= e1)%Z →
  (nearest (Z.pos m) (e1 - e) <= 2 ^ 53 ∧
   (e1 = emin ∨ 2 ^ 52 <= nearest (Z.pos m) (e1 - e)))%Z.
Proof.
  intros e1 Hn.
  assert (He1 : (emin <= e1 ∧ Z.pos (digits2_pos m) + e - 53 <= e1 ∧
                 (e1 = emin ∨ e1 = Z.pos (digits2_pos m) + e - 53))%Z).
  { subst e1. rewrite fexp_eq. lia. }
  clearbody e1. pose proof (digits_bounds m) as [Dlo Dhi].
  set (d := Z.pos (digits2_pos m)) in *.
  pose proof (nearest_bounds (Z.pos m) (e1 - e) ltac:(lia) ltac:(lia)) as Hb.
  assert (HP : (0 < 2 ^ (e1 - e))%Z) by (apply Z.pow_pos_nonneg; lia).
  split.
  - assert (Hq : (Z.pos m / 2 ^ (e1 - e) < 2 ^ 53)%Z).
    { apply Z.div_lt_upper_bound; [done|].
      rewrite <- Z.pow_add_r by lia.
      eapply Z.lt_le_trans; [exact Dhi|]. apply Z.pow_le_mono_r; lia. }
    lia.
  - destruct He1 as (_ & _ & [He|He]); [by left|right].
    assert (Hq : (2 ^ 52 <= Z.pos m / 2 ^ (e1 - e))%Z).
    { apply Z.div_le_lower_bound; [done|].
      rewrite <- Z.pow_add_r by lia.
      replace (e1 - e + 52)%Z with (d - 1)%Z by lia. done. }
    lia.
Qed.

Lemma pack_valid (s : bool) (m1 e1 : Z) :
  (0 <= m1 <= 2 ^ 53)%Z → (emin <= e1)%Z → (e1 = emin ∨ 2 ^ 52 <= m1)%Z →
  valid (pack s m1 e1).
Proof.
  intros Hm He Hn. unfold pack.
  destruct (Z.eqb_spec m1 0); [done|].
  destruct (Z.eqb_spec m1 (2 ^ 53)).
  - apply finish_valid; lia.
  - apply finish_valid; lia.
Qed.

Lemma round_aux_valid (s : bool) (m : positive) (e : Z) :
  (e <= fexp prec emax (Z.pos (digits2_pos m) + e))%Z →
  valid (binary_round_aux prec emax s (Z.pos m) e loc_Exact).
Proof.
  intros Hn. rewrite round_aux_spec by done.
  pose proof (nearest_normal m e Hn) as [H1 H2].
  pose proof (nearest_bounds (Z.pos m)
                (fexp prec emax (Z.pos (digits2_pos m) + e) - e)
                ltac:(lia) ltac:(lia)) as Hb.
  assert (Hq0 : (0 <= Z.pos m /
                 2 ^ (fexp prec emax (Z.pos (digits2_pos m) + e) - e))%Z).
  { apply Z.div_pos; [lia|apply Z.pow_pos_nonneg; lia]. }
  apply pack_valid; [lia| |done]. rewrite fexp_eq. lia.
Qed.

Lemma binary_round_valid (s : bool) (m : positive) (e : Z) :
  valid (binary_round prec emax s m e).
Proof.
  rewrite binary_round_spec.
  set (e1 := fexp prec emax (Z.pos (digits2_pos m) + e)).
  destruct (Z.leb_spec e1 e) as [Hle|Hgt].
  - unfold finish. destruct (Z.leb_spec e1 971); [|done].
    assert (HP : (0 < 2 ^ (e - e1))%Z) by (apply Z.pow_pos_nonneg; lia).
    assert (Hpos : (0 < Z.pos m * 2 ^ (e - e1))%Z) by lia.
    unfold valid, valid_binary, bounded, canonical_mantissa.
    rewrite andb_true_iff, Z.eqb_eq, Z.leb_le. split; [|done].
    rewrite (digits_shift m (e - e1) (Z.to_pos (Z.pos m * 2 ^ (e - e1))))
      by (try lia; rewrite Z2Pos.id by lia; done).
    replace (Z.pos (digits2_pos m) + (e - e1) + e1)%Z
      with (Z.pos (digits2_pos m) + e)%Z by lia. done.
  - fold e1. pose proof (nearest_normal m e ltac:(fold e1; lia)) as [H1 H2].
    fold e1 in H1, H2.
    pose proof (nearest_bounds (Z.pos m) (e1 - e) ltac:(lia) ltac:(lia)) as Hb.
    assert (Hq0 : (0 <= Z.pos m / 2 ^ (e1 - e))%Z).
    { apply Z.div_pos; [lia|apply Z.pow_pos_nonneg; lia]. }
    apply pack_valid; [lia| |done]. subst e1. rewrite fexp_eq. lia.
Qed.

(** ** Signs *)

Lemma ltb_zero (z : spec_float) : SFltb z (js 0) = true ↔ negative z.
Proof.
  unfold negative. destruct z as [s|[]| |[] m e]; cbn; split;
    try done; try (intros [?|(? & ? & ?)]; done); eauto.
Qed.

Lemma leb_zero (z : spec_float) : SFleb (js 0) z = true ↔ nonnegative z.
Proof.
  unfold nonnegative. destruct z as [s|[]| |[] m e]; cbn; split;
    try done; eauto;
    try (intros [(? & ?)|[?|(? & ? & ?)]]; done).
Qed.

Lemma finish_sign (s : bool) (m e : Z) :
  finish s m e = S754_infinity s ∨ finish s m e = S754_finite s (Z.to_pos m) e.
Proof. unfold finish. destruct (_ <=? _)%Z; eauto. Qed.

(** Rounding a mantissa at an exponent of at least [emin] never gives
    zero. *)
Lemma binary_round_nonzero (s : bool) (m : positive) (e : Z) :
  (emin <= e)%Z →
  binary_round prec emax s m e = S754_infinity s ∨
  ∃ m' e', binary_round prec emax s m e = S754_finite s m' e'.
Proof.
  intros He. rewrite binary_round_spec.
  set (e1 := fexp prec emax (Z.pos (digits2_pos m) + e)).
  destruct (Z.leb_spec e1 e) as [Hle|Hgt].
  - destruct (finish_sign s (Z.pos m * 2 ^ (e - e1)) e1) as [->| ->]; eauto.
  - pose proof (nearest_normal m e ltac:(fold e1; lia)) as [H1 H2].
    fold e1 in H1, H2.
    assert (Hne : e1 ≠ emin) by lia. destruct H2 as [|H2]; [done|].
    unfold pack.
    destruct (Z.eqb_spec (nearest (Z.pos m) (e1 - e)) 0); [lia|].
    destruct (Z.eqb_spec (nearest (Z.pos m) (e1 - e)) (2 ^ 53)).
    + destruct (finish_sign s (2 ^ 52) (e1 + 1)) as [->| ->]; eauto.
    + destruct (finish_sign s (nearest (Z.pos m) (e1 - e)) e1) as [->| ->];
        eauto.
Qed.

(** ** Comparisons of positive finite doubles *)

Lemma ltb_finite (m1 m2 : positive) (e1 e2 : Z) :
  SFltb (S754_finite false m1 e1) (S754_finite false m2 e2) = true ↔
  (e1 < e2 ∨ (e1 = e2 ∧ Z.pos m1 < Z.pos m2))%Z.
Proof.
  unfold SFltb, SFcompare.
  destruct (Z.compare_spec e1 e2) as [He|He|He].
  - change (Pos.compare_cont Eq m1 m2) with (m1 ?= m2)%positive.
    destruct (Pos.compare_spec m1 m2) as [Hm|Hm|Hm]; split; try done; try lia.
  - split; [intros _; by left|done].
  - split; [done|lia].
Qed.

Lemma leb_finite (m1 m2 : positive) (e1 e2 : Z) :
  SFleb (S754_finite false m1 e1) (S754_finite false m2 e2) = true ↔
  (e1 < e2 ∨ (e1 = e2 ∧ Z.pos m1 <= Z.pos m2))%Z.
Proof.
  unfold SFleb, SFcompare.
  destruct (Z.compare_spec e1 e2) as [He|He|He].
  - change (Pos.compare_cont Eq m1 m2) with (m1 ?= m2)%positive.
    destruct (Pos.compare_spec m1 m2) as [Hm|Hm|Hm]; split; try done; try lia.
  - split; [intros _; by left|done].
  - split; [done|lia].
Qed.

Lemma js_1 : js 1 = S754_finite false (2 ^ 52) (-52).
Proof. reflexivity. Qed.

Lemma js_3 : js 3 = S754_finite false (3 * 2 ^ 51) (-51).
Proof. reflexivity. Qed.

(** ** The subtraction [1 - x] *)

Lemma shl_align_fst (m : positive) (e ez : Z) :
  (ez <= e)%Z → Z.pos (fst (shl_align m e ez)) = (Z.pos m * 2 ^ (e - ez))%Z.
Proof.
  intros Hle. unfold shl_align.
  destruct (ez - e)%Z as [|d|d] eqn:Ed; try lia.
  - replace (e - ez)%Z with 0%Z by lia. cbn [fst]. lia.
  - cbn [fst]. rewrite iter_xO. f_equal. f_equal. lia.
Qed.

Lemma sub_one_finite (s : bool) (m : positive) (e : Z) :
  let ez := Z.min (-52) e in
  SFsub prec emax (js 1) (S754_finite s m e) =
    binary_normalize prec emax
      (2 ^ 52 * 2 ^ (-52 - ez) - cond_Zopp s (Z.pos m * 2 ^ (e - ez))) ez
      false.
Proof.
  intros ez. rewrite js_1. unfold SFsub. fold ez.
  rewrite !shl_align_fst by lia. reflexivity.
Qed.

(** The exact value is at least 1: so is the rounded one. *)
Lemma round_ge_one (p : positive) (e : Z) :
  (e <= 0)%Z → (2 ^ (- e) <= Z.pos p)%Z →
  SFleb (js 1) (binary_round prec emax false p e) = true.
Proof.
  intros He Hp. rewrite binary_round_spec.
  pose proof (digits_bounds p) as [Dlo Dhi].
  set (d := Z.pos (digits2_pos p)) in *.
  assert (Hd : (1 - e <= d)%Z).
  { assert (H : (2 ^ (- e) < 2 ^ d)%Z) by lia.
    apply Z.pow_lt_mono_r_iff in H; lia. }
  set (e1 := fexp prec emax (d + e)).
  assert (He1 : (e1 = d + e - 53 ∧ -52 <= e1)%Z).
  { subst e1. rewrite fexp_eq. unfold emin. lia. }
  assert (Hinf : ∀ s, SFleb (js 1) (S754_infinity s) = negb s) by (by intros []).
  rewrite js_1.
  destruct (Z.leb_spec e1 e) as [Hle|Hgt].
  - unfold finish. destruct (Z.leb_spec e1 971); [|done].
    apply leb_finite.
    assert (HP : (0 < 2 ^ (e - e1))%Z) by (apply Z.pow_pos_nonneg; lia).
    rewrite Z2Pos.id by lia.
    destruct (Z.eq_dec e1 (-52)%Z) as [E|E]; [right|left; lia].
    split; [lia|].
    assert (H2 : (2 ^ (- e) * 2 ^ (e - e1) = 2 ^ 52)%Z).
    { rewrite <- Z.pow_add_r by lia. f_equal. lia. }
    nia.
  - pose proof (nearest_normal p e ltac:(fold d e1; lia)) as [H1 H2].
    fold d e1 in H1, H2. destruct H2 as [H2|H2]; [unfold emin in H2; lia|].
    unfold pack.
    destruct (Z.eqb_spec (nearest (Z.pos p) (e1 - e)) 0); [lia|].
    destruct (Z.eqb_spec (nearest (Z.pos p) (e1 - e)) (2 ^ 53)).
    + unfold finish. destruct (Z.leb_spec (e1 + 1) 971); [|done].
      apply leb_finite. left. lia.
    + unfold finish. destruct (Z.leb_spec e1 971); [|done].
      apply leb_finite. rewrite Z2Pos.id by lia.
      destruct (Z.eq_dec e1 (-52)%Z) as [E|E]; [right|left]; lia.
Qed.

(** The exact value is [1 - m * 2 ^ e] with [0 < m * 2 ^ e <= 2 ^ -54]: it
    rounds to 1. *)
Lemma round_to_one (p m : positive) (n : Z) :
  (1 <= n)%Z → (2 * Z.pos m <= 2 ^ n)%Z →
  Z.pos p = (2 ^ 53 * 2 ^ n - Z.pos m)%Z →
  binary_round prec emax false p (-53 - n) = js 1.
Proof.
  intros Hn Hm Hp. rewrite binary_round_spec.
  assert (HN : (2 ^ n = 2 * 2 ^ (n - 1))%Z).
  { rewrite <- Z.pow_succ_r by lia. f_equal. lia. }
  assert (HN1 : (0 < 2 ^ (n - 1))%Z) by (apply Z.pow_pos_nonneg; lia).
  assert (Hd : Z.pos (digits2_pos p) = (53 + n)%Z).
  { apply digits_unique. rewrite Hp.
    replace (53 + n - 1)%Z with (52 + n)%Z by lia.
    rewrite !Z.pow_add_r by lia. lia. }
  rewrite Hd, fexp_eq. unfold emin.
  replace (Z.max (53 + n + (-53 - n) - 53) (-1074))%Z with (-53)%Z by lia.
  replace (-53 <=? -53 - n)%Z with false by (symmetry; apply Z.leb_gt; lia).
  replace (-53 - (-53 - n))%Z with n by lia.
  assert (Hq : (Z.pos p / 2 ^ n = 2 ^ 53 - 1)%Z).
  { symmetry. apply Z.div_unique with (2 ^ n - Z.pos m)%Z; lia. }
  assert (Hr : (Z.pos p mod 2 ^ n = 2 ^ n - Z.pos m)%Z).
  { symmetry. apply Z.mod_unique with (2 ^ 53 - 1)%Z; lia. }
  assert (Hnear : nearest (Z.pos p) n = (2 ^ 53)%Z).
  { unfold nearest. rewrite Hq, Hr.
    destruct (Z.eq_dec (2 * Z.pos m)%Z (2 ^ n)%Z) as [E|E].
    - replace (2 ^ n <? 2 * (2 ^ n - Z.pos m))%Z with false
        by (symmetry; apply Z.ltb_ge; lia).
      replace (2 ^ n =? 2 * (2 ^ n - Z.pos m))%Z with true
        by (symmetry; apply Z.eqb_eq; lia).
      reflexivity.
    - replace (2 ^ n <? 2 * (2 ^ n - Z.pos m))%Z with true
        by (symmetry; apply Z.ltb_lt; lia).
      reflexivity. }
  rewrite Hnear. reflexivity.
Qed.

(** The exact value is [1 - m * 2 ^ e] with [2 ^ -54 < m * 2 ^ e < 1]: the
    rounded value is a double below 1. *)
Lemma round_below_one (p m : positive) (e : Z) :
  (emin <= e <= -53)%Z → (2 ^ (-53 - e) < 2 * Z.pos m)%Z →
  Z.pos p = (2 ^ (- e) - Z.pos m)%Z →
  ∃ M E, binary_round prec emax false p e = S754_finite false M E ∧
         (E <= -53)%Z.
Proof.
  intros He Hm Hp. rewrite binary_round_spec.
  pose proof (digits_bounds p) as [Dlo Dhi].
  set (d := Z.pos (digits2_pos p)) in *.
  assert (Hd : (d <= - e)%Z).
  { assert (H : (2 ^ (d - 1) < 2 ^ (- e))%Z) by lia.
    apply Z.pow_lt_mono_r_iff in H; lia. }
  set (e1 := fexp prec emax (d + e)).
  assert (He1 : (emin <= e1 <= -53 ∧ (e1 = emin ∨ e1 = d + e - 53))%Z).
  { subst e1. rewrite fexp_eq. unfold emin in *. lia. }
  destruct (Z.leb_spec e1 e) as [Hle|Hgt].
  - unfold finish. replace (e1 <=? 971)%Z with true
      by (symmetry; apply Z.leb_le; lia).
    eexists _, _. split; [reflexivity|lia].
  - pose proof (nearest_normal p e ltac:(fold d e1; lia)) as [H1 H2].
    fold d e1 in H1, H2. destruct H2 as [H2|H2]; [lia|].
    assert (He1' : (e1 = d + e - 53)%Z) by lia.
    unfold pack.
    destruct (Z.eqb_spec (nearest (Z.pos p) (e1 - e)) 0); [lia|].
    destruct (Z.eqb_spec (nearest (Z.pos p) (e1 - e)) (2 ^ 53)) as [Hc|Hc].
    + (* a carry: only when the result has fewer digits than 1 *)
      destruct (Z.eq_dec d (- e)%Z) as [Ed|Ed].
      * exfalso. assert (En : (e1 - e = -53 - e)%Z) by lia.
        rewrite En in Hc.
        set (k := (-53 - e)%Z) in *.
        assert (HPk : (0 < 2 ^ k)%Z) by (apply Z.pow_pos_nonneg; lia).
        assert (Hpow : (2 ^ (- e) = 2 ^ 53 * 2 ^ k)%Z).
        { rewrite <- Z.pow_add_r by lia. f_equal. lia. }
        assert (Hq : (Z.pos p / 2 ^ k <= 2 ^ 53 - 1)%Z).
        { assert (Z.pos p / 2 ^ k < 2 ^ 53)%Z; [|lia].
          apply Z.div_lt_upper_bound; lia. }
        revert Hc. unfold nearest.
        destruct (Z.eq_dec (Z.pos p / 2 ^ k)%Z (2 ^ 53 - 1)%Z) as [Eq|Eq].
        -- assert (Hr : (Z.pos p mod 2 ^ k = 2 ^ k - Z.pos m)%Z).
           { pose proof (Z.div_mod (Z.pos p) (2 ^ k) ltac:(lia)) as Hdm.
             rewrite Eq in Hdm. lia. }
           rewrite Hr.
           replace (2 ^ k <? 2 * (2 ^ k - Z.pos m))%Z with false
             by (symmetry; apply Z.ltb_ge; lia).
           replace (2 ^ k =? 2 * (2 ^ k - Z.pos m))%Z with false
             by (symmetry; apply Z.eqb_neq; lia).
           simpl. lia.
        -- destruct (_ || _); lia.
      * unfold finish. replace (e1 + 1 <=? 971)%Z with true
          by (symmetry; apply Z.leb_le; lia).
        eexists _, _. split; [reflexivity|lia].
    + unfold finish. replace (e1 <=? 971)%Z with true
        by (symmetry; apply Z.leb_le; lia).
      eexists _, _. split; [reflexivity|lia].
Qed.

Lemma pow2_54 : pow2 (-54) = S754_finite false (2 ^ 52) (-106).
Proof. reflexivity. Qed.

Lemma sub_valid (x : spec_float) :
  valid x → valid (SFsub prec emax (js 1) x).
Proof.
  intros Hx. destruct x as [s|s| |s m e]; try reflexivity.
  rewrite sub_one_finite. unfold binary_normalize.
  destruct (_ - _)%Z; [reflexivity|apply binary_round_valid..].
Qed.

Lemma sub_gt_one (x : spec_float) :
  valid x → SFltb (js 1) x = true → negative (SFsub prec emax (js 1) x).
Proof.
  intros Hx Hlt. destruct x as [s|s| |s m e]; try done.
  - destruct s; [done|]. by left.
  - destruct s; [done|]. rewrite js_1 in Hlt. apply ltb_finite in Hlt.
    apply valid_finite in Hx as (Hm & He & Hn). unfold emin in *.
    rewrite sub_one_finite.
    replace (Z.min (-52) e) with (-52)%Z by lia.
    replace (-52 - -52)%Z with 0%Z by lia. cbn [cond_Zopp].
    assert (HP : (1 <= 2 ^ (e - -52))%Z).
    { apply (Z.pow_le_mono_r 2 0); lia. }
    assert (HS : (2 ^ 52 * 2 ^ 0 - Z.pos m * 2 ^ (e - -52) < 0)%Z).
    { rewrite Z.pow_0_r.
      destruct Hlt as [Hlt|[<- Hlt]]; [|simpl; lia].
      assert (2 <= 2 ^ (e - -52))%Z; [|nia].
      apply (Z.pow_le_mono_r 2 1); lia. }
    destruct (2 ^ 52 * 2 ^ 0 - Z.pos m * 2 ^ (e - -52))%Z as [|p|p] eqn:ES;
      try lia.
    unfold binary_normalize.
    destruct (binary_round_nonzero true p (-52) ltac:(unfold emin; lia))
      as [->|(m' & e' & ->)]; [by left|right; eauto].
Qed.

Lemma sub_lt_zero (x : spec_float) :
  valid x → negative x → SFleb (js 1) (SFsub prec emax (js 1) x) = true.
Proof.
  intros Hx [->|(m & e & ->)]; [done|].
  apply valid_finite in Hx as (Hm & He & Hn). unfold emin in *.
  rewrite sub_one_finite. cbn [cond_Zopp].
  set (ez := Z.min (-52) e).
  assert (H1 : (2 ^ 52 * 2 ^ (-52 - ez) = 2 ^ (- ez))%Z).
  { rewrite <- Z.pow_add_r by lia. f_equal. lia. }
  assert (H2 : (0 < 2 ^ (e - ez))%Z) by (apply Z.pow_pos_nonneg; lia).
  assert (H3 : (0 < 2 ^ (- ez))%Z) by (apply Z.pow_pos_nonneg; lia).
  rewrite H1.
  destruct (2 ^ (- ez) - - (Z.pos m * 2 ^ (e - ez)))%Z as [|p|p] eqn:ES;
    try lia.
  unfold binary_normalize. apply round_ge_one; lia.
Qed.

Lemma sub_tiny (x : spec_float) :
  valid x → nonnegative x → SFleb x (pow2 (-54)) = true →
  SFsub prec emax (js 1) x = js 1.
Proof.
  intros Hx Hnn Hle. destruct Hnn as [[s ->]|[->|(m & e & ->)]]; try done.
  rewrite pow2_54 in Hle. apply leb_finite in Hle.
  apply valid_finite in Hx as (Hm & He & Hn). unfold emin in *.
  rewrite sub_one_finite. cbn [cond_Zopp].
  replace (Z.min (-52) e) with e by lia.
  replace (e - e)%Z with 0%Z by lia. rewrite Z.pow_0_r, Z.mul_1_r.
  set (n := (-53 - e)%Z).
  assert (H1 : (2 ^ 52 * 2 ^ (-52 - e) = 2 ^ 53 * 2 ^ n)%Z).
  { rewrite <- !Z.pow_add_r by lia. f_equal. lia. }
  assert (Hm2 : (2 * Z.pos m <= 2 ^ n)%Z).
  { destruct Hle as [Hlt|[-> Hle]].
    - assert (2 ^ 54 <= 2 ^ n)%Z; [|lia]. apply Z.pow_le_mono_r; lia.
    - subst n. simpl in *. lia. }
  assert (HPn : (0 < 2 ^ n)%Z) by (apply Z.pow_pos_nonneg; lia).
  rewrite H1.
  destruct (2 ^ 53 * 2 ^ n - Z.pos m)%Z as [|p|p] eqn:ES; try lia.
  unfold binary_normalize.
  replace e with (-53 - n)%Z by lia.
  apply (round_to_one p m n); lia.
Qed.

Lemma sub_inside (x : spec_float) :
  valid x → SFltb (pow2 (-54)) x = true → SFleb x (js 1) = true →
  SFsub prec emax (js 1) x = S754_zero false ∨
  ∃ M E, SFsub prec emax (js 1) x = S754_finite false M E ∧ (E <= -53)%Z.
Proof.
  intros Hx Hlt Hle. destruct x as [s|s| |s m e]; try done.
  { by destruct s. }
  destruct s; [done|]. rewrite pow2_54 in Hlt. apply ltb_finite in Hlt.
  rewrite js_1 in Hle. apply leb_finite in Hle.
  apply valid_finite in Hx as (Hm & He & Hn). unfold emin in *.
  rewrite sub_one_finite. cbn [cond_Zopp].
  destruct (Z.eq_dec e (-52)%Z) as [->|Hne].
  { left. assert (Z.pos m = 2 ^ 52)%Z as -> by lia. reflexivity. }
  right.
  replace (Z.min (-52) e) with e by lia.
  replace (e - e)%Z with 0%Z by lia. rewrite Z.pow_0_r, Z.mul_1_r.
  assert (H1 : (2 ^ 52 * 2 ^ (-52 - e) = 2 ^ (- e))%Z).
  { rewrite <- !Z.pow_add_r by lia. f_equal. lia. }
  assert (H53 : (2 ^ 53 <= 2 ^ (- e))%Z) by (apply Z.pow_le_mono_r; lia).
  rewrite H1.
  destruct (2 ^ (- e) - Z.pos m)%Z as [|p|p] eqn:ES; try lia.
  unfold binary_normalize.
  apply (round_below_one p m e); [unfold emin; lia| |lia].
  destruct Hlt as [Hlt|[<- Hlt]]; [|simpl; lia].
  assert (2 ^ (-53 - e) <= 2 ^ 52)%Z; [|lia].
  apply Z.pow_le_mono_r; lia.
Qed.

(** ** The multiplication by 3 *)

Lemma mul3_finite (s : bool) (m : positive) (e : Z) :
  SFmul prec emax (S754_finite s m e) (js 3)
  = binary_round_aux prec emax s (Z.pos (m * (3 * 2 ^ 51))) (e + -51)
                     loc_Exact.
Proof. rewrite js_3. unfold SFmul. by rewrite xorb_false_r. Qed.

Lemma mul3_digits (m : positive) :
  (Z.pos (digits2_pos m) + 52 <= Z.pos (digits2_pos (m * (3 * 2 ^ 51)))
   <= Z.pos (digits2_pos m) + 53)%Z.
Proof.
  pose proof (digits_bounds m) as [Dlo Dhi].
  pose proof (digits_bounds (m * (3 * 2 ^ 51))) as [Mlo Mhi].
  rewrite Pos2Z.inj_mul in Mlo, Mhi.
  change (Z.pos (3 * 2 ^ 51)) with (3 * 2 ^ 51)%Z in *.
  set (d := Z.pos (digits2_pos m)) in *.
  set (d' := Z.pos (digits2_pos (m * (3 * 2 ^ 51)))) in *.
  assert (H1 : (2 ^ (d - 1 + 52) < 2 ^ d')%Z).
  { rewrite Z.pow_add_r by lia. lia. }
  assert (H2 : (2 ^ (d' - 1) < 2 ^ (d + 53))%Z).
  { rewrite Z.pow_add_r by lia. lia. }
  apply Z.pow_lt_mono_r_iff in H1; [|lia|lia].
  apply Z.pow_lt_mono_r_iff in H2; [|lia|lia].
  lia.
Qed.

Lemma mul3_shift (m : positive) (e : Z) :
  (e + -51 <= fexp prec emax
                (Z.pos (digits2_pos (m * (3 * 2 ^ 51))) + (e + -51)))%Z.
Proof. pose proof (mul3_digits m). rewrite fexp_eq. lia. Qed.

Lemma mul3_valid (z : spec_float) :
  valid z → valid (SFmul prec emax z (js 3)).
Proof.
  intros Hz. destruct z as [s|s| |s m e]; try done.
  rewrite mul3_finite. apply round_aux_valid, mul3_shift.
Qed.

Lemma mul3_negative (z : spec_float) :
  valid z → negative z → negative (SFmul prec emax z (js 3)).
Proof.
  intros Hz [->|(m & e & ->)]; [by left|].
  apply valid_finite in Hz as (Hm & He & Hn).
  rewrite mul3_finite, round_aux_spec by apply mul3_shift.
  pose proof (nearest_normal _ _ (mul3_shift m e)) as [H1 H2].
  pose proof (mul3_shift m e) as Hs.
  pose proof (mul3_digits m) as Hd.
  set (M := (m * (3 * 2 ^ 51))%positive) in *.
  set (e1 := fexp prec emax (Z.pos (digits2_pos M) + (e + -51))) in *.
  assert (He1 : (emin <= e1)%Z) by (subst e1; rewrite fexp_eq; lia).
  assert (Hpos : (0 < nearest (Z.pos M) (e1 - (e + -51)))%Z).
  { destruct H2 as [H2|H2]; [|lia].
    pose proof (nearest_bounds (Z.pos M) (e1 - (e + -51)) ltac:(lia)
                  ltac:(lia)) as [Hb _].
    assert (Hq : (3 <= Z.pos M / 2 ^ (e1 - (e + -51)))%Z).
    { apply Z.div_le_lower_bound; [apply Z.pow_pos_nonneg; lia|].
      subst M. rewrite Pos2Z.inj_mul.
      change (Z.pos (3 * 2 ^ 51)) with (3 * 2 ^ 51)%Z.
      assert (2 ^ (e1 - (e + -51)) <= 2 ^ 51)%Z; [|nia].
      apply Z.pow_le_mono_r; lia. }
    lia. }
  unfold pack.
  destruct (Z.eqb_spec (nearest (Z.pos M) (e1 - (e + -51))) 0); [lia|].
  destruct (Z.eqb_spec (nearest (Z.pos M) (e1 - (e + -51))) (2 ^ 53)).
  - destruct (finish_sign true (2 ^ 52) (e1 + 1)) as [->| ->];
      [by left|right; eauto].
  - destruct (finish_sign true (nearest (Z.pos M) (e1 - (e + -51))) e1)
      as [->| ->]; [by left|right; eauto].
Qed.

Lemma mul3_ge_one (z : spec_float) :
  valid z → SFleb (js 1) z = true →
  SFleb (js 3) (SFmul prec emax z (js 3)) = true.
Proof.
  intros Hz Hle. destruct z as [s|s| |s m e]; try done.
  { by destruct s. }
  destruct s; [done|]. rewrite js_1 in Hle. apply leb_finite in Hle.
  apply valid_finite in Hz as (Hm & He & Hn). unfold emin in *.
  assert (Hm52 : (2 ^ 52 <= Z.pos m)%Z) by lia.
  rewrite mul3_finite, round_aux_spec by apply mul3_shift.
  pose proof (nearest_normal _ _ (mul3_shift m e)) as [H1 H2].
  pose proof (mul3_digits m) as Hd.
  assert (Hdm : Z.pos (digits2_pos m) = 53%Z) by (apply digits_unique; lia).
  rewrite Hdm in Hd.
  set (M := (m * (3 * 2 ^ 51))%positive) in *.
  set (e1 := fexp prec emax (Z.pos (digits2_pos M) + (e + -51))) in *.
  assert (He1 : (e1 = Z.pos (digits2_pos M) + e - 104)%Z).
  { subst e1. rewrite fexp_eq. unfold emin. lia. }
  destruct H2 as [H2|H2]; [unfold emin in H2; lia|].
  rewrite js_3. unfold pack.
  destruct (Z.eqb_spec (nearest (Z.pos M) (e1 - (e + -51))) 0); [lia|].
  destruct (Z.eqb_spec (nearest (Z.pos M) (e1 - (e + -51))) (2 ^ 53)).
  - unfold finish. destruct (Z.leb_spec (e1 + 1) 971); [|done].
    apply leb_finite. left. lia.
  - unfold finish. destruct (Z.leb_spec e1 971); [|done].
    apply leb_finite. rewrite Z2Pos.id by lia.
    destruct (Z.eq_dec e1 (-51)%Z) as [E|E]; [right|left; lia].
    split; [done|].
    assert (En : (e1 - (e + -51) = 52)%Z) by lia. rewrite En in *.
    pose proof (nearest_bounds (Z.pos M) 52 ltac:(lia) ltac:(lia)) as [Hb _].
    assert (Hq : (3 * 2 ^ 51 <= Z.pos M / 2 ^ 52)%Z).
    { apply Z.div_le_lower_bound; [lia|].
      subst M. rewrite Pos2Z.inj_mul.
      change (Z.pos (3 * 2 ^ 51)) with (3 * 2 ^ 51)%Z. lia. }
    change (Z.pos (3 * 2 ^ 51)) with (3 * 2 ^ 51)%Z. lia.
Qed.

Lemma mul3_below (m : positive) (e : Z) :
  valid (S754_finite false m e) → (e <= -53)%Z →
  below3 (SFmul prec emax (S754_finite false m e) (js 3)).
Proof.
  intros Hz He53. apply valid_finite in Hz as (Hm & He & Hn).
  rewrite mul3_finite, round_aux_spec by apply mul3_shift.
  pose proof (nearest_normal _ _ (mul3_shift m e)) as [H1 H2].
  pose proof (mul3_shift m e) as Hs.
  pose proof (mul3_digits m) as Hd.
  assert (Hdm : (Z.pos (digits2_pos m) <= 53)%Z).
  { apply (Zdigits2_le (Z.pos m)); lia. }
  set (M := (m * (3 * 2 ^ 51))%positive) in *.
  set (e1 := fexp prec emax (Z.pos (digits2_pos M) + (e + -51))) in *.
  assert (He1 : (emin <= e1 <= -51 ∧
                 (e1 = -51 → e = -53 ∧ e1 - (e + -51) = 53))%Z).
  { subst e1. rewrite fexp_eq in *. unfold emin in *. lia. }
  pose proof (nearest_bounds (Z.pos M) (e1 - (e + -51)) ltac:(lia)
                ltac:(lia)) as Hb.
  assert (Hq0 : (0 <= Z.pos M / 2 ^ (e1 - (e + -51)))%Z).
  { apply Z.div_pos; [lia|apply Z.pow_pos_nonneg; lia]. }
  assert (Htop : (e1 = -51 →
                  nearest (Z.pos M) (e1 - (e + -51)) < 3 * 2 ^ 51)%Z).
  { intros E. destruct He1 as (_ & He1). destruct (He1 E) as [E3 En].
    rewrite En. unfold nearest.
    assert (HM : (Z.pos M <= 3 * 2 ^ 51 * (2 ^ 53 - 1))%Z).
    { subst M. rewrite Pos2Z.inj_mul.
      change (Z.pos (3 * 2 ^ 51)) with (3 * 2 ^ 51)%Z. lia. }
    assert (Hq : (Z.pos M / 2 ^ 53 <= 3 * 2 ^ 51 - 1)%Z).
    { assert (Z.pos M / 2 ^ 53 < 3 * 2 ^ 51)%Z; [|lia].
      apply Z.div_lt_upper_bound; lia. }
    destruct (Z.eq_dec (Z.pos M / 2 ^ 53)%Z (3 * 2 ^ 51 - 1)%Z) as [Eq|Eq].
    - pose proof (Z.div_mod (Z.pos M) (2 ^ 53) ltac:(lia)) as Hdm'.
      rewrite Eq in Hdm'.
      assert (Hr : (Z.pos M mod 2 ^ 53 <= 2 ^ 51)%Z) by lia.
      replace (2 ^ 53 <? 2 * (Z.pos M mod 2 ^ 53))%Z with false
        by (symmetry; apply Z.ltb_ge; lia).
      replace (2 ^ 53 =? 2 * (Z.pos M mod 2 ^ 53))%Z with false
        by (symmetry; apply Z.eqb_neq; lia).
      simpl. lia.
    - destruct (_ || _); lia. }
  unfold below3, pack.
  destruct (Z.eqb_spec (nearest (Z.pos M) (e1 - (e + -51))) 0);
    [by left|right].
  destruct (Z.eqb_spec (nearest (Z.pos M) (e1 - (e + -51))) (2 ^ 53))
    as [Hc|Hc].
  - assert (e1 ≠ (-51)%Z) by (intros E; specialize (Htop E); lia).
    unfold finish. replace (e1 + 1 <=? 971)%Z with true
      by (symmetry; apply Z.leb_le; lia).
    eexists _, _. split; [reflexivity|].
    rewrite Z2Pos.id by lia. lia.
  - unfold finish. replace (e1 <=? 971)%Z with true
      by (symmetry; apply Z.leb_le; lia).
    eexists _, _. split; [reflexivity|].
    rewrite Z2Pos.id by lia.
    destruct (Z.eq_dec e1 (-51)%Z) as [E|E]; [right|left; lia].
    split; [done|by apply Htop].
Qed.

(** ** [Math.floor] *)

Lemma floor_negative (w : spec_float) :
  negative w → negative (Math_floor w).
Proof.
  intros [->|(m & e & ->)]; [by left|]. unfold Math_floor.
  destruct (Z.leb_spec 0 e) as [He|He]; [right; eauto|].
  cbn [cond_Zopp].
  assert (HP : (0 < 2 ^ (- e))%Z) by (apply Z.pow_pos_nonneg; lia).
  assert (Hq : (- Z.pos m / 2 ^ (- e) < 0)%Z).
  { apply Z.div_lt_upper_bound; lia. }
  destruct (- Z.pos m / 2 ^ (- e))%Z as [|p|p] eqn:E; try lia.
  unfold binary_normalize.
  destruct (binary_round_nonzero true p 0 ltac:(unfold emin; lia))
    as [->|(m' & e' & ->)]; [by left|right; eauto].
Qed.

Lemma floor_ge3 (w : spec_float) :
  valid w → SFleb (js 3) w = true → SFleb (js 3) (Math_floor w) = true.
Proof.
  intros Hw Hle. destruct w as [s|s| |s m e]; try done.
  destruct s; [done|]. unfold Math_floor.
  destruct (Z.leb_spec 0 e) as [He|He]; [done|].
  rewrite js_3 in Hle. apply leb_finite in Hle.
  change (Z.pos (3 * 2 ^ 51)) with (3 * 2 ^ 51)%Z in Hle.
  apply valid_finite in Hw as (Hm & Hev & Hn). unfold emin in *.
  cbn [cond_Zopp].
  assert (HP : (0 < 2 ^ (- e))%Z) by (apply Z.pow_pos_nonneg; lia).
  assert (Hq : (3 <= Z.pos m / 2 ^ (- e))%Z).
  { apply Z.div_le_lower_bound; [done|].
    destruct Hle as [Hlt|[<- Hle]]; [|simpl; lia].
    assert (2 ^ (- e) <= 2 ^ 50)%Z by (apply Z.pow_le_mono_r; lia).
    lia. }
  assert (Hq2 : (Z.pos m / 2 ^ (- e) < 2 ^ 53)%Z).
  { apply Z.div_lt_upper_bound; [done|]. nia. }
  destruct (Z.pos m / 2 ^ (- e))%Z as [|p|p] eqn:E; try lia.
  unfold binary_normalize. rewrite binary_round_spec.
  pose proof (digits_bounds p) as [Dlo Dhi].
  set (d := Z.pos (digits2_pos p)) in *.
  assert (Hd : (2 <= d <= 53)%Z).
  { split.
    - assert (H : (2 ^ 1 < 2 ^ d)%Z) by (simpl; lia).
      apply Z.pow_lt_mono_r_iff in H; lia.
    - assert (H : (2 ^ (d - 1) < 2 ^ 53)%Z) by lia.
      apply Z.pow_lt_mono_r_iff in H; lia. }
  rewrite fexp_eq. unfold emin.
  replace (Z.max (d + 0 - 53) (-1074)) with (d - 53)%Z by lia.
  replace (d - 53 <=? 0)%Z with true by (symmetry; apply Z.leb_le; lia).
  unfold finish.
  replace (d - 53 <=? 971)%Z with true by (symmetry; apply Z.leb_le; lia).
  rewrite js_3. apply leb_finite.
  assert (HP2 : (0 < 2 ^ (0 - (d - 53)))%Z) by (apply Z.pow_pos_nonneg; lia).
  rewrite Z2Pos.id by lia.
  change (Z.pos (3 * 2 ^ 51)) with (3 * 2 ^ 51)%Z.
  destruct (Z.eq_dec d 2%Z) as [E2|E2]; [right|left; lia].
  split; [lia|]. rewrite E2 in *. simpl in Dhi.
  assert (Z.pos p = 3)%Z as -> by lia. reflexivity.
Qed.

Lemma floor_below3 (w : spec_float) :
  valid w → below3 w → ∃ c, (0 <= c <= 2)%Z ∧ Math_floor w = js c.
Proof.
  intros Hw [->|(M & E & -> & HE)]; [by exists 0%Z|].
  apply valid_finite in Hw as (Hm & Hev & Hn).
  unfold Math_floor. replace (0 <=? E)%Z with false
    by (symmetry; apply Z.leb_gt; lia).
  cbn [cond_Zopp]. exists (Z.pos M / 2 ^ (- E))%Z. split; [|reflexivity].
  assert (HP : (0 < 2 ^ (- E))%Z) by (apply Z.pow_pos_nonneg; lia).
  split; [apply Z.div_pos; lia|].
  assert (Z.pos M / 2 ^ (- E) < 3)%Z; [|lia].
  apply Z.div_lt_upper_bound; [done|].
  destruct HE as [HE|[-> HE]]; [|simpl; lia].
  assert (2 ^ 52 <= 2 ^ (- E))%Z by (apply Z.pow_le_mono_r; lia).
  lia.
Qed.

(** ** The regions of the image *)

Lemma col_out_right (x : spec_float) :
  valid x → SFltb (js 1) x = true →
  SFltb (Math_floor (SFmul prec emax (SFsub prec emax (js 1) x) (js 3)))
        (js 0) = true.
Proof.
  intros Hx Hlt. apply ltb_zero, floor_negative, mul3_negative.
  - by apply sub_valid.
  - by apply sub_gt_one.
Qed.

Lemma col_out_left (x : spec_float) :
  valid x → SFltb x (js 0) = true →
  SFleb (js 3)
        (Math_floor (SFmul prec emax (SFsub prec emax (js 1) x) (js 3)))
  = true.
Proof.
  intros Hx Hlt. apply floor_ge3.
  - by apply mul3_valid, sub_valid.
  - apply mul3_ge_one; [by apply sub_valid|].
    apply sub_lt_zero; [done|]. by apply ltb_zero.
Qed.

Lemma col_inside (x : spec_float) :
  valid x → SFltb (pow2 (-54)) x = true → SFleb x (js 1) = true →
  ∃ c, (0 <= c <= 2)%Z ∧
       Math_floor (SFmul prec emax (SFsub prec emax (js 1) x) (js 3)) = js c.
Proof.
  intros Hx Hlt Hle. pose proof (sub_valid x Hx) as Hz.
  destruct (sub_inside x Hx Hlt Hle) as [Ez|(M & E & Ez & HE)];
    rewrite Ez in *.
  - by exists 0%Z.
  - apply floor_below3; [by apply mul3_valid|by apply mul3_below].
Qed.

Lemma row_out_low (y : spec_float) :
  valid y → SFltb y (js 0) = true →
  SFltb (Math_floor (SFmul prec emax y (js 3))) (js 0) = true.
Proof.
  intros Hy Hlt. apply ltb_zero, floor_negative, mul3_negative; [done|].
  by apply ltb_zero.
Qed.

Lemma row_out_high (y : spec_float) :
  valid y → SFleb (js 1) y = true →
  SFleb (js 3) (Math_floor (SFmul prec emax y (js 3))) = true.
Proof.
  intros Hy Hle. apply floor_ge3; [by apply mul3_valid|].
  by apply mul3_ge_one.
Qed.

Lemma row_inside (y : spec_float) :
  valid y → SFleb (js 0) y = true → SFltb y (js 1) = true →
  ∃ r, (0 <= r <= 2)%Z ∧
       (Math_floor (SFmul prec emax y (js 3)) = js r ∨
        r = 0%Z ∧ Math_floor (SFmul prec emax y (js 3)) = S754_zero true).
Proof.
  intros Hy Hle Hlt. apply leb_zero in Hle.
  destruct Hle as [[s ->]|[->|(m & e & ->)]]; [|done|].
  - exists 0%Z. split; [lia|]. destruct s; [right|left]; done.
  - rewrite js_1 in Hlt. apply ltb_finite in Hlt.
    pose proof Hy as Hv. apply valid_finite in Hv as (Hm & He & Hn).
    unfold emin in *.
    destruct (floor_below3 (SFmul prec emax (S754_finite false m e) (js 3)))
      as (r & Hr & Er).
    + by apply mul3_valid.
    + apply mul3_below; [done|lia].
    + exists r. split; [done|by left].
Qed.

Lemma cell_value (c r : Z) (row : spec_float) :
  (0 <= c <= 2)%Z → (0 <= r <= 2)%Z →
  row = js r ∨ r = 0%Z ∧ row = S754_zero true →
  SFeqb row (js r) = true ∧
  (if SFltb (js c) (js 0) || SFleb (js 3) (js c)
      || SFltb row (js 0) || SFleb (js 3) row
   then js (-1)
   else SFadd prec emax (SFmul prec emax row (js 3)) (js c))
  = js (r * 3 + c).
Proof.
  intros Hc Hr Hrow.
  assert (Ec : c = 0%Z ∨ c = 1%Z ∨ c = 2%Z) by lia.
  assert (Er : r = 0%Z ∨ r = 1%Z ∨ r = 2%Z) by lia.
  destruct Hrow as [->|[-> ->]].
  - destruct Ec as [->|[->| ->]], Er as [->|[->| ->]]; split; reflexivity.
  - destruct Ec as [->|[->| ->]]; split; reflexivity.
Qed.

Lemma getCellIndex_unfold64 (x y : spec_float) :
  getCellIndex x y =
    let col := Math_floor (SFmul prec emax (SFsub prec emax (js 1) x) (js 3)) in
    let row := Math_floor (SFmul prec emax y (js 3)) in
    if SFltb col (js 0) || SFleb (js 3) col
       || SFltb row (js 0) || SFleb (js 3) row
    then js (-1)
    else SFadd prec emax (SFmul prec emax row (js 3)) col.
Proof. reflexivity. Qed.

Lemma getCellIndex_outside (x y : spec_float) :
  valid x → valid y →
  lt x (js 0) = true ∨ lt (js 1) x = true ∨
  lt y (js 0) = true ∨ ge y (js 1) = true →
  getCellIndex x y = js (-1).
Proof.
  intros Hx Hy H. rewrite getCellIndex_unfold64. cbv zeta.
  unfold lt, ge in H. destruct H as [H|[H|[H|H]]].
  - by rewrite (col_out_left x Hx H), orb_true_r.
  - by rewrite (col_out_right x Hx H).
  - by rewrite (row_out_low y Hy H), orb_true_r.
  - by rewrite (row_out_high y Hy H), orb_true_r.
Qed.

Lemma getCellIndex_inside (x y : spec_float) :
  valid x → valid y →
  lt (pow2 (-54)) x = true → ge (js 1) x = true →
  ge y (js 0) = true → lt y (js 1) = true →
  ∃ c r : Z,
    (0 <= c <= 2)%Z ∧ (0 <= r <= 2)%Z ∧
    Math_floor (times (minus (js 1) x) (js 3)) = js c ∧
    SFeqb (Math_floor (times y (js 3))) (js r) = true ∧
    getCellIndex x y = js (r * 3 + c).
Proof.
  intros Hx Hy Hx1 Hx2 Hy1 Hy2. unfold lt, ge, minus, times in *.
  destruct (col_inside x Hx Hx1 Hx2) as (c & Hc & Ec).
  destruct (row_inside y Hy Hy1 Hy2) as (r & Hr & Er).
  exists c, r. split; [done|]. split; [done|]. split; [done|].
  rewrite getCellIndex_unfold64. cbv zeta. rewrite Ec.
  by apply cell_value.
Qed.

Lemma getCellIndex_tiny (x y : spec_float) :
  valid x → ge x (js 0) = true → ge (pow2 (-54)) x = true →
  minus (js 1) x = js 1 ∧ getCellIndex x y = js (-1).
Proof.
  intros Hx H0 Ht. unfold ge in H0, Ht. apply leb_zero in H0.
  assert (Hz : minus (js 1) x = js 1) by (by apply sub_tiny).
  split; [exact Hz|]. rewrite getCellIndex_unfold64. cbv zeta.
  fold (minus (js 1) x). rewrite Hz. reflexivity.
Qed.

Lemma getCellIndex_nan_left (y : spec_float) :
  valid y → ge y (js 0) = true → lt y (js 1) = true →
  getCellIndex S754_nan y = S754_nan.
Proof.
  intros Hy Hy1 Hy2. unfold lt, ge in *.
  destruct (row_inside y Hy Hy1 Hy2) as (r & Hr & Er).
  rewrite getCellIndex_unfold64. cbv zeta.
  assert (E : r = 0%Z ∨ r = 1%Z ∨ r = 2%Z) by lia.
  destruct Er as [->|[-> ->]]; [|reflexivity].
  destruct E as [->|[->| ->]]; reflexivity.
Qed.

Lemma getCellIndex_nan_right (x : spec_float) :
  valid x → lt (pow2 (-54)) x = true → ge (js 1) x = true →
  getCellIndex x S754_nan = S754_nan.
Proof.
  intros Hx Hx1 Hx2. unfold lt, ge in *.
  destruct (col_inside x Hx Hx1 Hx2) as (c & Hc & Ec).
  rewrite getCellIndex_unfold64. cbv zeta. rewrite Ec.
  assert (E : c = 0%Z ∨ c = 1%Z ∨ c = 2%Z) by lia.
  destruct E as [->|[->| ->]]; reflexivity.
Qed.




(** Where the rounding decides.  [1 - 2 ^ -60] rounds to 1, so the
    column is 3 and there is no cell, while the rational model finds
    cell 5; the double nearest to 1/3 is below 1/3 and its product with 3
    rounds to 1, so the row is 1, while the rational model finds row 0. *)
Lemma getCellIndex_where_rounding_decides :
  getCellIndex (pow2 (-60)) (ratio 1 2) = js (-1) ∧
  Grid.getCellIndex (1 # 2 ^ 60) 0.5 = 5%Z ∧
  ratio 1 3 = S754_finite false 6004799503160661 (-54) ∧
  getCellIndex (ratio 1 2) (ratio 1 3) = js 4 ∧
  Grid.getCellIndex 0.5 (6004799503160661 # 2 ^ 54) = 1%Z.
Proof. repeat split; reflexivity. Qed.

End Binary64.

(** ** The majority vote over the history *)

(** The object [counts] is read through [tally_get]; its keys stay distinct,
    and the loop over its entries returns the first entry with the largest
    count. *)

Lemma tally_get_incr_same counts t :
  tally_get (count_incr counts t) t = S (tally_get counts t).
Proof.
  induction counts as [|[k n] rest IH]; simpl.
  - by rewrite decide_True.
  - destruct (decide (k = t)); simpl.
    + by rewrite decide_True.
    + by rewrite decide_False.
Qed.

Lemma tally_get_incr_other counts t u :
  u ≠ t → tally_get (count_incr counts t) u = tally_get counts u.
Proof.
  intros Hne. induction counts as [|[k n] rest IH]; simpl.
  - by rewrite decide_False.
  - destruct (decide (k = t)) as [->|Hk]; simpl.
    + by rewrite !decide_False.
    + destruct (decide (k = u)); done.
Qed.

Lemma tally_get_pos_key counts t :
  0 < tally_get counts t → t ∈ counts.*1.
Proof.
  induction counts as [|[k n] rest IH]; simpl; [lia|].
  destruct (decide (k = t)) as [->|Hk]; intros H.
  - left.
  - right. by apply IH.
Qed.

Lemma count_incr_keys counts t :
  (count_incr counts t).*1 =
    if decide (t ∈ counts.*1) then counts.*1 else counts.*1 ++ [t].
Proof.
  induction counts as [|[k n] rest IH]; [done|].
  change (((k, n) :: rest).*1) with (k :: rest.*1).
  simpl count_incr. destruct (decide (k = t)) as [->|Hk].
  - change (((t, S n) :: rest).*1) with (t :: rest.*1).
    destruct (decide (t ∈ t :: rest.*1)) as [H|H]; [done|].
    exfalso. apply H. left.
  - change (((k, n) :: count_incr rest t).*1) with (k :: (count_incr rest t).*1).
    rewrite IH.
    destruct (decide (t ∈ rest.*1)) as [Hin|Hin];
      destruct (decide (t ∈ k :: rest.*1)) as [H|H]; try done.
    + exfalso. apply H. by right.
    + apply elem_of_cons in H as [H|H]; congruence.
Qed.

Lemma count_incr_NoDup counts t :
  NoDup counts.*1 → NoDup (count_incr counts t).*1.
Proof.
  intros H. rewrite count_incr_keys. destruct (decide _); [done|].
  apply NoDup_app. split; [done|]. split.
  - intros x Hx Hx'. apply list_elem_of_singleton in Hx'. by subst.
  - apply NoDup_singleton.
Qed.

Lemma tally_spec buf counts :
  NoDup counts.*1 →
  NoDup (fold_left count_incr buf counts).*1 ∧
  ∀ t, tally_get (fold_left count_incr buf counts) t
       = (tally_get counts t + occurrences t buf)%nat.
Proof.
  revert counts. induction buf as [|u buf IH]; intros counts Hnd; simpl.
  - split; [done|]. intros t. unfold occurrences. simpl. lia.
  - destruct (IH (count_incr counts u) (count_incr_NoDup _ _ Hnd)) as [H1 H2].
    split; [done|]. intros t. rewrite H2. unfold occurrences.
    rewrite filter_cons. destruct (decide (u = t)) as [->|Hne].
    + rewrite tally_get_incr_same. simpl. lia.
    + rewrite tally_get_incr_other by done. lia.
Qed.

Lemma pick_stable_spec counts m0 s0 :
  NoDup counts.*1 →
  let '(m, s) := pick_stable counts (m0, s0) in
  (∀ t, tally_get counts t ≤ m) ∧ m0 ≤ m ∧
  ((m, s) = (m0, s0) ∨ (m0 < m ∧ tally_get counts s = m)).
Proof.
  revert m0 s0. induction counts as [|[k n] rest IH]; intros m0 s0 Hnd.
  - simpl. split; [intros; simpl; lia|]. split; [lia|by left].
  - rewrite fmap_cons in Hnd. apply NoDup_cons in Hnd as [Hk Hnd].
    simpl in Hk. unfold pick_stable. simpl.
    set (init := if (m0 <? n)%nat then (n, k) else (m0, s0)).
    assert (Hinit : init = (if (m0 <? n)%nat then (n, k) else (m0, s0))) by done.
    destruct init as [m1 s1].
    specialize (IH m1 s1 Hnd). unfold pick_stable in IH.
    destruct (fold_left _ rest (m1, s1)) as [m s].
    destruct IH as (Hle & Hm1 & Hcase).
    assert (Hn : n ≤ m1 ∧ m0 ≤ m1).
    { destruct (m0 <? n)%nat eqn:E; inversion Hinit; subst.
      - apply Nat.ltb_lt in E. lia.
      - apply Nat.ltb_ge in E. lia. }
    split.
    { intros t. simpl. destruct (decide (k = t)); [lia|apply Hle]. }
    split; [lia|].
    destruct Hcase as [Heq|[Hlt Hget]].
    + inversion Heq; subst m s.
      destruct (m0 <? n)%nat eqn:E; inversion Hinit; subst.
      * right. apply Nat.ltb_lt in E. split; [done|]. simpl. by rewrite decide_True.
      * by left.
    + right. split; [lia|]. simpl.
      destruct (decide (k = s)) as [->|Hks]; [|done].
      exfalso. apply Hk. apply tally_get_pos_key. lia.
Qed.

Lemma occurrences_two_distinct (t s : GestureType) buf :
  t ≠ s → occurrences t buf + occurrences s buf ≤ length buf.
Proof.
  intros Hne. unfold occurrences. induction buf as [|u buf IH]; [simpl; lia|].
  rewrite !filter_cons.
  destruct (decide (u = t)) as [H1|H1], (decide (u = s)) as [H2|H2];
    simpl; try lia.
  congruence.
Qed.

Lemma vote_spec buf raw :
  (∀ t, occurrences t buf ≤ occurrences (vote buf raw) buf ∨
        vote buf raw = raw) ∧
  ((∃ t, 2 ≤ occurrences t buf) →
   2 ≤ occurrences (vote buf raw) buf ∧
   ∀ t, occurrences t buf ≤ occurrences (vote buf raw) buf) ∧
  ((∀ t, occurrences t buf < 2) → vote buf raw = raw).
Proof.
  unfold vote.
  destruct (tally_spec buf [] (NoDup_nil_2)) as [Hnd Hget].
  pose proof (pick_stable_spec (fold_left count_incr buf []) 0 raw Hnd) as Hp.
  destruct (pick_stable _ _) as [m s]. destruct Hp as (Hle & _ & Hcase).
  assert (Hocc : ∀ t, occurrences t buf ≤ m).
  { intros t. specialize (Hle t). rewrite Hget in Hle. simpl in Hle. lia. }
  change majority with 2%nat.
  destruct (2 <=? m)%nat eqn:E.
  - apply Nat.leb_le in E.
    destruct Hcase as [Heq|[Hlt Hs]]; [inversion Heq; lia|].
    rewrite Hget in Hs. simpl in Hs.
    split; [intros t; left; rewrite Hs; apply Hocc|].
    split; [intros _; split; [lia|intros t; rewrite Hs; apply Hocc]|].
    intros Hall. specialize (Hall s). lia.
  - apply Nat.leb_gt in E.
    split; [by right|]. split; [|done].
    intros [t Ht]. specialize (Hocc t). lia.
Qed.

Lemma applyHysteresis_eq (self : GestureRecognizer) gesture handIndex :
  let buffer :=
    push_history (default [] (gestureHistory self !! handIndex))
                 (gtype gesture) in
  applyHysteresis self gesture handIndex =
    (mkClassified (vote buffer (gtype gesture)) (confidence gesture),
     mkRecognizer (<[handIndex := gesture]> (prevGestures self))
                  (<[handIndex := buffer]> (gestureHistory self))).
Proof.
  intros buffer. unfold applyHysteresis, vote. fold buffer.
  destruct (pick_stable _ _) as [m s].
  destruct (majority <=? m)%nat; [done|]. by destruct gesture.
Qed.

Lemma push_history_last_three history t :
  length history ≤ historySize →
  push_history history t = drop (length history - 2) (history ++ [t]) ∧
  length (push_history history t) ≤ historySize.
Proof.
  unfold push_history, historySize. intros Hlen.
  destruct history as [|a [|b [|c [|d ?]]]]; simpl in *; try lia;
    (split; [reflexivity|simpl; lia]).
Qed.

(** C4.  Per hand slot, [applyHysteresis] pushes the raw type into the
    slot's buffer, which then holds the last three raw types (the buffers of
    the other slots are untouched); a type that occurs at least
    [ceil(3/2) = 2] times in the buffer is emitted, and when no type does,
    the raw type is emitted unchanged.  Fed the raw types FIST, OPEN, FIST,
    a slot emits FIST on the third frame. *)
Theorem hysteresis_majority_of_three (self : GestureRecognizer)
  (handIndex : nat) :
  let history := default [] (gestureHistory self !! handIndex) in
  length history ≤ historySize →
  (∀ gesture : Classified,
     let out := applyHysteresis self gesture handIndex in
     let buffer := default [] (gestureHistory out.2 !! handIndex) in
     buffer = drop (length history - 2) (history ++ [gtype gesture]) ∧
     length buffer ≤ historySize ∧
     (∀ h, h ≠ handIndex →
           gestureHistory out.2 !! h = gestureHistory self !! h) ∧
     majority = 2%nat ∧
     (∀ t, majority ≤ occurrences t buffer → gtype out.1 = t) ∧
     ((∀ t, occurrences t buffer < majority) → gtype out.1 = gtype gesture)) ∧
  (∀ g1 g2 g3 : Classified,
     gtype g1 = FIST → gtype g2 = OPEN → gtype g3 = FIST →
     let s1 := (applyHysteresis self g1 handIndex).2 in
     let s2 := (applyHysteresis s1 g2 handIndex).2 in
     gtype (applyHysteresis s2 g3 handIndex).1 = FIST).
Proof.
  intros history Hlen. split.
  - intros gesture out buffer. subst out buffer.
    rewrite applyHysteresis_eq. simpl. rewrite lookup_insert_eq. simpl.
    fold history.
    destruct (push_history_last_three history (gtype gesture) Hlen)
      as [Heq Hle].
    split; [done|]. split; [done|].
    split; [intros h Hne; by rewrite lookup_insert_ne|].
    split; [reflexivity|]. change majority with 2%nat.
    set (buffer := push_history history (gtype gesture)) in *.
    destruct (vote_spec buffer (gtype gesture)) as (_ & Hmaj & Hnone).
    split; [|done].
    intros t Ht. destruct (Hmaj (ex_intro _ t Ht)) as [Hv _].
    destruct (decide (t = vote buffer (gtype gesture))) as [->|Hne]; [done|].
    pose proof (occurrences_two_distinct _ _ buffer Hne).
    unfold historySize in Hle. lia.
  - intros g1 g2 g3 H1 H2 H3 s1 s2. subst s1 s2.
    rewrite !applyHysteresis_eq. simpl. rewrite !lookup_insert_eq. simpl.
    fold history. rewrite H1, H2, H3.
    unfold historySize in Hlen.
    destruct history as [|a [|b [|c [|d ?]]]]; simpl in Hlen; try lia;
      reflexivity.
Qed.

(** C4 at a concrete input: a fresh recogniser, slot 0. *)
Lemma hysteresis_majority_of_three_witness :
  length (default [] (gestureHistory new_GestureRecognizer !! 0%nat))
    ≤ historySize ∧
  gtype (applyHysteresis
           (applyHysteresis
              (applyHysteresis new_GestureRecognizer (mkClassified FIST 0.9) 0).2
              (mkClassified OPEN 0.9) 0).2
           (mkClassified FIST 0.9) 0).1 = FIST.
Proof.
  split; [vm_compute; lia|].
  refine (proj2 (hysteresis_majority_of_three new_GestureRecognizer 0 _)
                _ _ _ _ _ _);
    [vm_compute; lia|reflexivity..].
Defined.

(** ** The raw classification *)

Lemma classifyGesture_cases (self : GestureRecognizer) (fs : FingerStates)
  (d : R) (handIndex : nat) :
  let raw := classifyGesture self fs d handIndex in
  (extendedCount fs ≤ 1 → gtype raw = FIST) ∧
  (1 < extendedCount fs → isPinching self handIndex d → gtype raw = PINCH) ∧
  (1 < extendedCount fs → ¬ isPinching self handIndex d →
   4 ≤ extendedCount fs → gtype raw = OPEN) ∧
  (1 < extendedCount fs → ¬ isPinching self handIndex d →
   extendedCount fs < 4 → gtype raw = shapeOf fs).
Proof.
  destruct fs as [t i m r p c].
  unfold classifyGesture, isPinching, wasPinching, shapeOf.
  unfold pinchEndThreshold, pinchStartThreshold.
  cbn [extendedCount thumb index middle ring pinky].
  destruct (Nat.leb_spec c 1) as [Hc|Hc].
  { repeat split; intros; try lia; done. }
  split; [lia|].
  set (was := match prevGestures self !! handIndex with
              | Some g => bool_decide (gtype g = PINCH)
              | None => false
              end).
  assert (Hwas : was = true ↔
                 gtype <$> prevGestures self !! handIndex = Some PINCH).
  { subst was. destruct (prevGestures self !! handIndex) as [g|]; simpl.
    - rewrite bool_decide_eq_true. split; congruence.
    - split; done. }
  set (pinching := if was then Rltb d 0.10 else Rltb d 0.06).
  assert (Hpinch : pinching = true ↔
    (gtype <$> prevGestures self !! handIndex = Some PINCH ∧ (d < 0.10)%R) ∨
    (¬ gtype <$> prevGestures self !! handIndex = Some PINCH ∧ (d < 0.06)%R)).
  { subst pinching. destruct was; rewrite Rltb_lt.
    - split; [intros; left; split; [by apply Hwas|done]|].
      intros [[_ ?]|[Hn _]]; [done|]. destruct Hn. by apply Hwas.
    - split; [intros; right; split; [|done]|].
      + intros Hp. apply Hwas in Hp. done.
      + intros [[Hp _]|[_ ?]]; [|done]. apply Hwas in Hp. done. }
  destruct pinching.
  { split; [reflexivity|]. split; intros _ Hn; destruct Hn; by apply Hpinch. }
  split; [intros _ Hp; apply Hpinch in Hp; done|].
  destruct (Nat.leb_spec 4 c) as [H4|H4].
  { split; [reflexivity|intros; lia]. }
  split; [intros; lia|]. intros _ _ _.
  destruct t, i, m, r, p; reflexivity.
Qed.

Lemma distance2D_R (p q : Landmark) :
  distance2D p q
  = sqrt ((Q2R (px q) - Q2R (px p)) * (Q2R (px q) - Q2R (px p))
          + (Q2R (py q) - Q2R (py p)) * (Q2R (py q) - Q2R (py p))).
Proof.
  unfold distance2D. cbv zeta.
  by rewrite Q2R_plus, !Q2R_mult, !Q2R_minus.
Qed.

Lemma sqrt_of_square (s a : R) : (0 <= a)%R → s = (a * a)%R → sqrt s = a.
Proof. intros Ha ->. by apply sqrt_square. Qed.

Lemma Q2R_04 : Q2R 0.4 = (4 / 10)%R.
Proof. unfold Q2R. simpl. lra. Qed.

Lemma getFingerStates_openAt (x y : Q) :
  getFingerStates (openAt x y) = mkFingerStates true true true true true 5.
Proof.
  unfold getFingerStates, isThumbExtended, isFingerExtended, openAt, at_.
  cbn [indices tip pip lookup_total list_lookup_total fmap list_fmap seq].
  simpl. rewrite !distance2D_R. cbn [px py].
  rewrite !Q2R_minus, !Q2R_plus, Q2R_04.
  assert (H0 : sqrt ((Q2R x - Q2R x) * (Q2R x - Q2R x)
                     + (Q2R y - Q2R y) * (Q2R y - Q2R y)) = 0%R).
  { apply sqrt_of_square; lra. }
  assert (H4 : sqrt ((Q2R x - (Q2R x - 4 / 10)) * (Q2R x - (Q2R x - 4 / 10))
                     + (Q2R y - Q2R y) * (Q2R y - Q2R y)) = (4 / 10)%R).
  { apply sqrt_of_square; lra. }
  assert (H8 : sqrt ((Q2R x - Q2R x) * (Q2R x - Q2R x)
                     + (Q2R y + 4 / 10 - (Q2R y - 4 / 10))
                       * (Q2R y + 4 / 10 - (Q2R y - 4 / 10))) = (8 / 10)%R).
  { apply sqrt_of_square; lra. }
  assert (H4' : sqrt ((Q2R x - Q2R x) * (Q2R x - Q2R x)
                      + (Q2R y + 4 / 10 - Q2R y) * (Q2R y + 4 / 10 - Q2R y))
                = (4 / 10)%R).
  { apply sqrt_of_square; lra. }
  rewrite H0, H4, H8, H4'.
  rewrite !(proj2 (Rltb_lt _ _)) by lra. reflexivity.
Qed.

Lemma Q2R_01 : Q2R 0.1 = (1 / 10)%R.
Proof. unfold Q2R. simpl. lra. Qed.

Lemma Q2R_05 : Q2R 0.5 = (5 / 10)%R.
Proof. unfold Q2R. simpl. lra. Qed.

Lemma getFingerStates_pinchedAt (d : Q) :
  getFingerStates (pinchedAt d) = mkFingerStates true true true true true 5.
Proof.
  unfold getFingerStates, isThumbExtended, isFingerExtended, pinchedAt,
    openAt, at_.
  cbn [indices tip pip lookup_total list_lookup_total fmap list_fmap seq].
  simpl. rewrite !distance2D_R. cbn [px py].
  rewrite !Q2R_minus, !Q2R_plus, Q2R_04, Q2R_05, Q2R_01.
  assert (H0 : sqrt ((5 / 10 - 5 / 10) * (5 / 10 - 5 / 10)
                     + (5 / 10 - 5 / 10) * (5 / 10 - 5 / 10)) = 0%R).
  { apply sqrt_of_square; lra. }
  assert (H8 : sqrt ((5 / 10 - 5 / 10) * (5 / 10 - 5 / 10)
                     + (5 / 10 + 4 / 10 - (5 / 10 - 4 / 10))
                       * (5 / 10 + 4 / 10 - (5 / 10 - 4 / 10)))
               = (8 / 10)%R).
  { apply sqrt_of_square; lra. }
  assert (H4' : sqrt ((5 / 10 - 5 / 10) * (5 / 10 - 5 / 10)
                      + (5 / 10 + 4 / 10 - 5 / 10)
                        * (5 / 10 + 4 / 10 - 5 / 10))
                = (4 / 10)%R).
  { apply sqrt_of_square; lra. }
  assert (Ht : (0 < sqrt ((5 / 10 - (5 / 10 + Q2R d))
                          * (5 / 10 - (5 / 10 + Q2R d))
                          + (5 / 10 - 1 / 10) * (5 / 10 - 1 / 10)))%R).
  { apply sqrt_lt_R0. nra. }
  rewrite H0, H8, H4'.
  rewrite !(proj2 (Rltb_lt _ _)) by lra. reflexivity.
Qed.

Lemma getPinchDistance_pinchedAt (d : Q) :
  (0 <= d)%Q → getPinchDistance (pinchedAt d) = Q2R d.
Proof.
  intros Hd. unfold getPinchDistance, pinchedAt, openAt, at_.
  cbn [HAND_LANDMARKS.THUMB_TIP HAND_LANDMARKS.INDEX_TIP].
  simpl. rewrite distance2D_R. cbn [px py].
  rewrite !Q2R_minus, !Q2R_plus, Q2R_04, Q2R_05, Q2R_01.
  apply Qle_Rle in Hd. rewrite RMicromega.Q2R_0 in Hd.
  apply sqrt_of_square; [done|]. lra.
Qed.

Lemma applyHysteresis_prev (self : GestureRecognizer) gesture handIndex :
  prevGestures (applyHysteresis self gesture handIndex).2
  = <[handIndex := gesture]> (prevGestures self).
Proof. by rewrite applyHysteresis_eq. Qed.

Lemma recognize_prev (self : GestureRecognizer) lms handIndex :
  21 ≤ length lms →
  prevGestures (recognize self lms handIndex).2
  = <[handIndex := rawGesture self lms handIndex]> (prevGestures self).
Proof.
  intros Hlen. unfold recognize, rawGesture.
  replace (length lms <? 21)%nat with false by (symmetry; apply Nat.ltb_ge; lia).
  rewrite <- applyHysteresis_prev.
  by destruct (applyHysteresis _ _ _).
Qed.

(** C5.  For a landmark set with at least 21 landmarks, [recognize] hands
    to the hysteresis the raw gesture [classifyGesture] computes from the
    finger states and the pinch distance [d], the distance in the image
    plane of the thumb tip (landmark 4) and the index tip (landmark 8).
    An extended-finger count of at most 1 gives FIST; otherwise PINCH is
    decided by two thresholds ([d < 0.10] when the previous raw gesture of
    the slot was PINCH, [d < 0.06] when it was not); otherwise a count of at
    least 4 gives OPEN; otherwise the named shapes are tried in the order
    PEACE, THUMBS_UP, POINTING, ROCK, and NONE is returned when none
    matches.  [recognize] stores the raw gesture as the previous gesture of
    the slot and leaves the other slots alone: in the next frame of the
    slot the pinch was on exactly when this raw gesture is PINCH, so that a
    pinch persists while [d < 0.10] and starts only when [d < 0.06]; for a
    slot without a previous gesture the start threshold applies. *)
Theorem raw_classification (self : GestureRecognizer) (lms : list Landmark)
  (handIndex : nat) :
  21 ≤ length lms →
  let fs := getFingerStates lms in
  let d := getPinchDistance lms in
  let raw := rawGesture self lms handIndex in
  let out := recognize self lms handIndex in
  (classified out.1, out.2) = applyHysteresis self raw handIndex ∧
  d = sqrt ((Q2R (px (at_ lms 8)) - Q2R (px (at_ lms 4))) ^ 2
            + (Q2R (py (at_ lms 8)) - Q2R (py (at_ lms 4))) ^ 2) ∧
  extendedCount fs =
    length (filter (λ v : bool, v = true)
                   [thumb fs; index fs; middle fs; ring fs; pinky fs]) ∧
  (extendedCount fs ≤ 1 → gtype raw = FIST) ∧
  (1 < extendedCount fs → isPinching self handIndex d → gtype raw = PINCH) ∧
  (1 < extendedCount fs → ¬ isPinching self handIndex d →
   4 ≤ extendedCount fs → gtype raw = OPEN) ∧
  (1 < extendedCount fs → ¬ isPinching self handIndex d →
   extendedCount fs < 4 → gtype raw = shapeOf fs) ∧
  prevGestures out.2 !! handIndex = Some raw ∧
  (∀ h, h ≠ handIndex → prevGestures out.2 !! h = prevGestures self !! h) ∧
  (wasPinching out.2 handIndex ↔ gtype raw = PINCH) ∧
  (∀ d' : R,
     isPinching out.2 handIndex d' ↔
     (gtype raw = PINCH ∧ (d' < 0.10)%R) ∨
     (gtype raw ≠ PINCH ∧ (d' < 0.06)%R)) ∧
  (prevGestures self !! handIndex = None →
   (isPinching self handIndex d ↔ (d < 0.06)%R)).
Proof.
  intros Hlen fs d raw out.
  assert (Hprev : prevGestures out.2 !! handIndex = Some raw).
  { subst out raw. rewrite recognize_prev by done. apply lookup_insert_eq. }
  assert (Hwas : wasPinching out.2 handIndex ↔ gtype raw = PINCH).
  { unfold wasPinching. rewrite Hprev. simpl. split; congruence. }
  split; [|split; [|split; [reflexivity|]]].
  - subst out raw. unfold recognize, rawGesture.
    replace (length lms <? 21)%nat with false by (symmetry; apply Nat.ltb_ge; lia).
    destruct (applyHysteresis _ _ _) as [g s]. reflexivity.
  - subst d. unfold getPinchDistance. rewrite distance2D_R.
    unfold HAND_LANDMARKS.THUMB_TIP, HAND_LANDMARKS.INDEX_TIP.
    f_equal. ring.
  - pose proof (classifyGesture_cases self fs d handIndex) as (H1 & H2 & H3 & H4).
    split; [exact H1|]. split; [exact H2|]. split; [exact H3|].
    split; [exact H4|]. split; [exact Hprev|]. split; [|split; [exact Hwas|]].
    + intros h Hne. subst out. rewrite recognize_prev by done.
      by apply lookup_insert_ne.
    + split.
      * intros d'. unfold isPinching. rewrite Hwas. tauto.
      * intros Hnone. unfold isPinching, wasPinching. rewrite Hnone. simpl.
        split; [intros [[Hp _]|[_ Hd]]; done|intros Hd; right; split; done].
Qed.

(** C5 at a concrete input: a spread hand whose thumb tip is 0.05 from the
    index tip in one frame and 0.08 in the next.  The first frame starts a
    pinch, and the second one keeps it, although 0.08 is not below the
    start threshold: on a fresh recogniser the same hand is OPEN. *)
Lemma raw_classification_witness :
  let first := recognize new_GestureRecognizer (pinchedAt 0.05) 0 in
  21 ≤ length (pinchedAt 0.08) ∧
  gtype (rawGesture new_GestureRecognizer (pinchedAt 0.05) 0) = PINCH ∧
  gtype (rawGesture first.2 (pinchedAt 0.08) 0) = PINCH ∧
  gtype (rawGesture new_GestureRecognizer (pinchedAt 0.08) 0) = OPEN.
Proof.
  cbv zeta.
  assert (Hlen : ∀ d, 21 ≤ length (pinchedAt d)).
  { intros d. unfold pinchedAt. rewrite length_insert. vm_compute. lia. }
  assert (Hcount : ∀ d, 1 < extendedCount (getFingerStates (pinchedAt d)) ∧
                        4 ≤ extendedCount (getFingerStates (pinchedAt d))).
  { intros d. rewrite getFingerStates_pinchedAt. simpl. lia. }
  assert (H5 : (getPinchDistance (pinchedAt 0.05) < 0.06)%R).
  { rewrite getPinchDistance_pinchedAt by done. unfold Q2R. simpl. lra. }
  assert (H8 : (getPinchDistance (pinchedAt 0.08) < 0.10)%R ∧
               ¬ (getPinchDistance (pinchedAt 0.08) < 0.06)%R).
  { rewrite getPinchDistance_pinchedAt by done. unfold Q2R. simpl.
    split; lra. }
  destruct (raw_classification new_GestureRecognizer (pinchedAt 0.05) 0
              (Hlen _)) as (_ & _ & _ & _ & Hp1 & _ & _ & _ & _ & _ & Hnext & Hfresh1).
  destruct (raw_classification new_GestureRecognizer (pinchedAt 0.08) 0
              (Hlen _)) as (_ & _ & _ & _ & _ & Ho2 & _ & _ & _ & _ & _ & Hfresh2).
  destruct (raw_classification
              (recognize new_GestureRecognizer (pinchedAt 0.05) 0).2
              (pinchedAt 0.08) 0 (Hlen _))
    as (_ & _ & _ & _ & Hp2 & _).
  assert (E1 : gtype (rawGesture new_GestureRecognizer (pinchedAt 0.05) 0)
               = PINCH).
  { apply Hp1; [apply Hcount|]. by apply Hfresh1. }
  split; [apply Hlen|]. split; [exact E1|]. split.
  - apply Hp2; [apply Hcount|]. apply Hnext. left. split; [exact E1|apply H8].
  - apply Ho2; [apply Hcount| |apply Hcount].
    intros Hp. apply Hfresh2 in Hp; [|reflexivity]. by apply H8.
Defined.

(** ** The landmark smoother *)

Lemma smooth_against_length prev lms :
  length (smooth_against prev lms) = length lms.
Proof. unfold smooth_against. by rewrite length_imap. Qed.

Lemma smooth_against_lookup prev lms i raw :
  lms !! i = Some raw →
  smooth_against prev lms !! i =
    Some (match prev !! i with None => raw | Some p => blend p raw end).
Proof.
  intros H. unfold smooth_against. rewrite list_lookup_imap, H. reflexivity.
Qed.

(** C6 (amended).  On the first observation of a slot [smoothLandmarks]
    returns the raw landmarks unchanged and stores them as the slot's
    history; on a later call it returns, per coordinate,
    [prev * (1 - 0.8) + raw * 0.8] and stores the result; the other slots
    are untouched.  The history of every slot is cleared when the detector
    reports no hand at all for a new frame. *)
Theorem smoothing_contract (self : HandTracker) (lms : list Landmark)
  (handIndex : nat) :
  let out := smoothLandmarks self lms handIndex in
  (prevLandmarks self !! handIndex = None →
   out.1 = lms ∧ prevLandmarks out.2 !! handIndex = Some lms) ∧
  (∀ prev, prevLandmarks self !! handIndex = Some prev →
     prevLandmarks out.2 !! handIndex = Some out.1 ∧
     length out.1 = length lms ∧
     ∀ i raw p, lms !! i = Some raw → prev !! i = Some p →
       out.1 !! i =
         Some (mkLandmark (px p * (1 - 0.8) + px raw * 0.8)
                          (py p * (1 - 0.8) + py raw * 0.8)
                          (pz p * (1 - 0.8) + pz raw * 0.8))) ∧
  (∀ h, h ≠ handIndex → prevLandmarks out.2 !! h = prevLandmarks self !! h) ∧
  (∀ (currentTime : Q) (result : DetectorResult),
     Qeq_bool currentTime (lastVideoTime self) = false →
     r_landmarks result = [] →
     let seen := detectHands self true currentTime (Some result) in
     seen.1 = None ∧ prevLandmarks seen.2 = ∅).
Proof.
  intros out. subst out. unfold smoothLandmarks.
  split; [|split; [|split]].
  - intros ->. simpl. by rewrite lookup_insert_eq.
  - intros prev ->. simpl. rewrite lookup_insert_eq.
    split; [done|]. split; [apply smooth_against_length|].
    intros i raw p Hraw Hp. rewrite (smooth_against_lookup _ _ _ _ Hraw), Hp.
    reflexivity.
  - intros h Hne. destruct (prevLandmarks self !! handIndex); simpl;
      by rewrite lookup_insert_ne.
  - intros currentTime result Ht Hnil. unfold detectHands. simpl.
    rewrite Ht, Hnil. done.
Qed.

(** C6 at a concrete input: a fresh tracker, slot 0. *)
Lemma smoothing_contract_witness :
  prevLandmarks new_HandTracker !! 0%nat = None ∧
  (smoothLandmarks new_HandTracker (handAt 0.5 0.5) 0).1 = handAt 0.5 0.5.
Proof.
  split; [reflexivity|].
  refine (proj1 (proj1 (smoothing_contract new_HandTracker (handAt 0.5 0.5) 0) _)).
  reflexivity.
Defined.

(** C6, the claim as stated fails.  Frame 1 has two hands, frame 2 only
    one: slot 1 reports no hand in frame 2, yet its history is still the
    landmarks [b] of frame 1.  When a second hand shows up again in frame 3
    with the landmarks [c], slot 1 returns them blended with [b], not
    unchanged. *)
Lemma smoothing_history_outlives_its_hand :
  let a := handAt 0.25 0.5 in
  let b := handAt 0.75 0.5 in
  let c := handAt 0.5 0.25 in
  let frame1 := detectHands new_HandTracker true 0 (detected [a; b]) in
  let frame2 := detectHands frame1.2 true 1 (detected [a]) in
  let frame3 := detectHands frame2.2 true 2 (detected [a; c]) in
  (length <$> frame2.1) = Some 1%nat ∧
  prevLandmarks frame2.2 !! 1%nat = Some b ∧
  prevLandmarks frame2.2 !! 1%nat ≠ None ∧
  (map landmarks <$> frame3.1)
    = Some [smooth_against (smooth_against a a) a; smooth_against b c] ∧
  smooth_against b c ≠ c.
Proof.
  cbv zeta. split; [vm_compute; reflexivity|].
  split; [vm_compute; reflexivity|].
  split; [vm_compute; discriminate|].
  split; [vm_compute; reflexivity|].
  vm_compute. discriminate.
Qed.

(** ** Ownership in the grid *)

(** Inserting into and deleting from the two maps, seen through the lists
    [resting] and [carried]. *)

Lemma resting_insert_None (cells : gmap Z (list nat)) c arr :
  cells !! c = None → resting (<[c := arr]> cells) ≡ₚ arr ++ resting cells.
Proof.
  intros H. unfold resting. rewrite (map_to_list_insert _ _ _ H).
  by rewrite bind_cons.
Qed.

Lemma resting_delete (cells : gmap Z (list nat)) c arr :
  cells !! c = Some arr → arr ++ resting (delete c cells) ≡ₚ resting cells.
Proof.
  intros H. unfold resting. rewrite <- (map_to_list_delete _ _ _ H).
  by rewrite bind_cons.
Qed.

Lemma resting_insert (cells : gmap Z (list nat)) c arr :
  resting (<[c := arr]> cells) ≡ₚ arr ++ resting (delete c cells).
Proof.
  rewrite <- insert_delete_eq. apply resting_insert_None, lookup_delete_eq.
Qed.

Lemma carried_insert_None (held : gmap nat Held) h x :
  held !! h = None → carried (<[h := x]> held) ≡ₚ element x :: carried held.
Proof.
  intros H. unfold carried. by rewrite (map_to_list_insert _ _ _ H).
Qed.

Lemma carried_delete (held : gmap nat Held) h x :
  held !! h = Some x → element x :: carried (delete h held) ≡ₚ carried held.
Proof.
  intros H. unfold carried. by rewrite <- (map_to_list_delete _ _ _ H).
Qed.

Lemma carried_insert (held : gmap nat Held) h x :
  carried (<[h := x]> held) ≡ₚ element x :: carried (delete h held).
Proof.
  rewrite <- insert_delete_eq. apply carried_insert_None, lookup_delete_eq.
Qed.

Lemma carried_replace (held : gmap nat Held) h x x' :
  held !! h = Some x → element x' = element x →
  carried (<[h := x']> held) ≡ₚ carried held.
Proof.
  intros H He. rewrite carried_insert, He. by apply carried_delete.
Qed.

Lemma resting_elem_of (cells : gmap Z (list nat)) o :
  o ∈ resting cells ↔ ∃ c arr, cells !! c = Some arr ∧ o ∈ arr.
Proof.
  unfold resting. rewrite list_elem_of_bind. split.
  - intros [[c arr] [Ho Hin]]. apply elem_of_map_to_list in Hin. eauto.
  - intros (c & arr & Hc & Ho). exists (c, arr). split; [done|].
    by apply elem_of_map_to_list.
Qed.

Lemma carried_elem_of (held : gmap nat Held) o :
  o ∈ carried held ↔ ∃ h x, held !! h = Some x ∧ element x = o.
Proof.
  unfold carried. rewrite list_elem_of_fmap. split.
  - intros [[h x] [-> Hin]]. apply elem_of_map_to_list in Hin. eauto.
  - intros (h & x & Hh & <-). exists (h, x). split; [done|].
    by apply elem_of_map_to_list.
Qed.

(** What [grabObject] does to the two maps. *)
Lemma grabObject_maps vp st h c palm hand arr el :
  cellObjects st !! c = Some (arr ++ [el]) →
  let st' := grabObject vp st h c palm hand in
  cellObjects st' =
    (match arr with
     | [] => delete c (cellObjects st)
     | _ :: _ => <[c := arr]> (cellObjects st)
     end) ∧
  ∃ held, heldObjects st' = <[h := held]> (heldObjects st) ∧
          element held = el ∧ fromCellIndex held = c.
Proof.
  intros Hc. cbv zeta. unfold grabObject. rewrite Hc, last_snoc, removelast_last.
  simpl. split; [done|]. eexists. split; [reflexivity|]. done.
Qed.

Lemma grabObject_noop vp st h c palm hand :
  nonEmpty (cellObjects st !! c) = false →
  grabObject vp st h c palm hand = st.
Proof.
  unfold grabObject, nonEmpty. destruct (cellObjects st !! c) as [[|o arr]|]; done.
Qed.

Lemma nonEmpty_snoc (cell : option (list nat)) :
  nonEmpty cell = true ↔ ∃ arr el, cell = Some (arr ++ [el]).
Proof.
  unfold nonEmpty. split.
  - destruct cell as [[|o arr]|]; try done. intros _.
    destruct (last (o :: arr)) as [el|] eqn:E.
    + apply last_Some in E as [arr' ->]. eauto.
    + by apply last_None in E.
  - intros (arr & el & ->). by destruct arr.
Qed.

Lemma grabObject_ownership vp st h c palm hand :
  ownership st → heldObjects st !! h = None →
  ownership (grabObject vp st h c palm hand).
Proof.
  intros Hown Hh.
  destruct (nonEmpty (cellObjects st !! c)) eqn:E.
  2: { by rewrite grabObject_noop. }
  apply nonEmpty_snoc in E as (arr & el & Hc).
  destruct (grabObject_maps vp st h c palm hand arr el Hc)
    as (Hcells & held & Hheld & Hel & _).
  unfold ownership in *. rewrite Hcells, Hheld.
  rewrite (carried_insert_None _ _ _ Hh), Hel.
  rewrite <- Hown, <- (resting_delete _ _ _ Hc).
  assert (Hgoal : arr ++ resting (delete c (cellObjects st))
                    ++ el :: carried (heldObjects st)
                  ≡ₚ ((arr ++ [el]) ++ resting (delete c (cellObjects st)))
                    ++ carried (heldObjects st)).
  { rewrite <- !app_assoc. f_equiv. simpl. by rewrite Permutation_middle. }
  destruct arr as [|a arr].
  - exact Hgoal.
  - rewrite resting_insert. by rewrite <- app_assoc.
Qed.

Lemma dropObject_maps st h c st' :
  dropObject st h c = Some st' →
  (heldObjects st !! h = None ∧ st' = st) ∨
  (∃ held, heldObjects st !! h = Some held ∧ hasGridCell c = true ∧
     cellObjects st' =
       <[c := default [] (cellObjects st !! c) ++ [element held]]>
         (cellObjects st) ∧
     heldObjects st' = delete h (heldObjects st)).
Proof.
  unfold dropObject. destruct (heldObjects st !! h) as [held|] eqn:Hh.
  - destruct (hasGridCell c) eqn:Hc; [|done]. intros [= <-].
    right. exists held. done.
  - intros [= <-]. by left.
Qed.

Lemma dropObject_ownership st h c st' :
  ownership st → dropObject st h c = Some st' → ownership st'.
Proof.
  intros Hown Hdrop.
  apply dropObject_maps in Hdrop as [[_ ->]|(held & Hh & _ & Hcells & Hheld)];
    [done|].
  unfold ownership in *. rewrite Hcells, Hheld, resting_insert.
  rewrite <- Hown, <- (carried_delete _ _ _ Hh).
  destruct (cellObjects st !! c) as [arr|] eqn:Hc; simpl.
  - rewrite <- (resting_delete _ _ _ Hc). rewrite <- !app_assoc. f_equiv.
    simpl. by rewrite Permutation_middle.
  - rewrite delete_id by done. by rewrite Permutation_middle.
Qed.

Lemma dropObject_in_range st h c :
  hasGridCell c = true → is_Some (dropObject st h c).
Proof.
  intros Hc. unfold dropObject. destruct (heldObjects st !! h); [|done].
  by rewrite Hc.
Qed.

Lemma processGesture_ownership vp st h hand gesture recognizer :
  ownership st → ownership (processGesture vp st h hand gesture recognizer).
Proof.
  intros Hown. unfold processGesture.
  set (palm := GridGestures.palmCenter gesture).
  set (c := getCellIndex (px palm) (py palm)).
  set (st1 := mkController _ _ _ _ recognizer).
  assert (Hown1 : ownership st1) by exact Hown.
  clearbody st1.
  set (st2 := if decide (GridGestures.type gesture = FIST) then _ else st1).
  assert (Hown2 : ownership st2).
  { subst st2. destruct (decide _); [|done].
    destruct (bool_decide_reflect (is_Some (heldObjects st1 !! h))) as [Hs|Hs];
      simpl; [done|].
    destruct (_ && _); [|done].
    apply grabObject_ownership; [done|].
    by apply eq_None_not_Some. }
  clearbody st2.
  destruct (decide _); [|done]. destruct (_ && _); [|done].
  destruct (dropObject st2 h c) as [st3|] eqn:E; simpl; [|done].
  by eapply dropObject_ownership.
Qed.

Lemma processHand_ownership vp st h hand :
  ownership st → ownership (processHand vp st h hand).
Proof.
  intros Hown. unfold processHand.
  destruct (GridGestures.recognize _ _ _) as [gesture recognizer].
  by apply processGesture_ownership.
Qed.

Lemma updateHeldObjectFlip_ownership st h hand :
  ownership st → ownership (updateHeldObjectFlip st h hand).
Proof.
  intros Hown. unfold updateHeldObjectFlip.
  destruct (heldObjects st !! h) as [held|] eqn:Hh; [|done].
  destruct (eqb _ _); [done|].
  unfold ownership in *. simpl.
  by rewrite (carried_replace _ _ _ _ Hh).
Qed.

Lemma followHand_ownership vp st h hand :
  ownership st → ownership (followHand vp st h hand).
Proof.
  intros Hown. unfold followHand.
  destruct (heldObjects st !! h) as [held|]; [|done].
  destruct (GridGestures.recognize _ _ _) as [gesture recognizer].
  by apply updateHeldObjectFlip_ownership.
Qed.

Lemma processHandsFrom_ownership vp hands : ∀ st h,
  ownership st → ownership (processHandsFrom vp st h hands).
Proof.
  induction hands as [|hand hands IH]; intros st h Hown; simpl; [done|].
  by apply IH, processHand_ownership.
Qed.

Lemma followHandsFrom_ownership vp hands : ∀ st h,
  ownership st → ownership (followHandsFrom vp st h hands).
Proof.
  induction hands as [|hand hands IH]; intros st h Hown; simpl; [done|].
  by apply IH, followHand_ownership.
Qed.

Lemma animate_ownership vp st hands :
  ownership st → ownership (animate vp st hands).
Proof.
  intros Hown. unfold animate. destruct hands as [hands|]; [|done].
  apply followHandsFrom_ownership.
  destruct hands; [done|]. by apply processHandsFrom_ownership.
Qed.

Lemma start_ownership : ownership start.
Proof. unfold ownership. vm_compute. apply perm_swap. Qed.

Create HintDb ownership.

#[local] Hint Resolve start_ownership grabObject_ownership
  dropObject_ownership processHand_ownership followHand_ownership
  animate_ownership : ownership.

(** The invariant holds in every reachable state. *)
Lemma reachable_ownership st : reachable st → ownership st.
Proof. induction 1; eauto with ownership. Qed.

Lemma scene_NoDup : NoDup scene.
Proof. unfold scene. apply NoDup_cons. split; [|apply NoDup_singleton]. 
  intros H. apply list_elem_of_singleton in H. done. Qed.

Lemma ownership_NoDup st :
  ownership st →
  NoDup (resting (cellObjects st) ++ carried (heldObjects st)).
Proof. unfold ownership. intros H. rewrite H. apply scene_NoDup. Qed.

Lemma inCell_unique st c c' o :
  ownership st → inCell st c o → inCell st c' o → c' = c.
Proof.
  intros Hown (arr & Hc & Ho) (arr' & Hc' & Ho').
  destruct (decide (c' = c)) as [|Hne]; [done|exfalso].
  apply ownership_NoDup, NoDup_app in Hown as (Hnd & _ & _).
  rewrite <- (resting_delete _ _ _ Hc) in Hnd.
  apply NoDup_app in Hnd as (_ & Hdisj & _).
  apply (Hdisj o Ho). apply resting_elem_of. exists c', arr'.
  by rewrite lookup_delete_ne.
Qed.

Lemma heldBy_unique st h h' o :
  ownership st → heldBy st h o → heldBy st h' o → h' = h.
Proof.
  intros Hown (x & Hh & Ho) (x' & Hh' & Ho').
  destruct (decide (h' = h)) as [|Hne]; [done|exfalso].
  apply ownership_NoDup, NoDup_app in Hown as (_ & _ & Hnd).
  rewrite <- (carried_delete _ _ _ Hh) in Hnd.
  apply NoDup_cons in Hnd as [Hnot _]. apply Hnot.
  apply carried_elem_of. exists h', x'. rewrite lookup_delete_ne by done.
  split; [done|congruence].
Qed.

Lemma inCell_not_heldBy st c h o :
  ownership st → inCell st c o → ¬ heldBy st h o.
Proof.
  intros Hown (arr & Hc & Ho) (x & Hh & Hx).
  apply ownership_NoDup, NoDup_app in Hown as (_ & Hdisj & _).
  apply (Hdisj o).
  - apply resting_elem_of. eauto.
  - apply carried_elem_of. eauto.
Qed.

Lemma ownership_exactlyOnePlace st o :
  ownership st → o ∈ scene → exactlyOnePlace st o.
Proof.
  intros Hown Ho. pose proof Hown as Hperm. unfold ownership in Hperm.
  rewrite <- Hperm in Ho. apply elem_of_app in Ho as [Ho|Ho].
  - apply resting_elem_of in Ho as (c & arr & Hc & Ho). left. exists c.
    assert (Hin : inCell st c o) by (exists arr; done).
    split; [done|]. split.
    + intros c' Hc'. by eapply inCell_unique.
    + intros h. by eapply inCell_not_heldBy.
  - apply carried_elem_of in Ho as (h & x & Hh & Hx). right. exists h.
    assert (Hby : heldBy st h o) by (exists x; done).
    split; [done|]. split.
    + intros h' Hh'. by eapply heldBy_unique.
    + intros c Hc. by eapply inCell_not_heldBy.
Qed.

Lemma ownership_cells st c arr :
  ownership st → cellObjects st !! c = Some arr →
  NoDup arr ∧ ∀ o, o ∈ arr → o ∈ scene ∧ ∀ h, ¬ heldBy st h o.
Proof.
  intros Hown Hc. split.
  - apply ownership_NoDup, NoDup_app in Hown as (Hnd & _ & _).
    rewrite <- (resting_delete _ _ _ Hc) in Hnd.
    by apply NoDup_app in Hnd as (? & _ & _).
  - intros o Ho. assert (Hin : inCell st c o) by (exists arr; done). split.
    + unfold ownership in Hown. rewrite <- Hown. apply elem_of_app. left.
      apply resting_elem_of. eauto.
    + intros h. by eapply inCell_not_heldBy.
Qed.

Lemma ownership_hands st h x :
  ownership st → heldObjects st !! h = Some x → element x ∈ scene.
Proof.
  intros Hown Hh. unfold ownership in Hown. rewrite <- Hown.
  apply elem_of_app. right. apply carried_elem_of. eauto.
Qed.

(** C1.  In every state that is reachable from the initial placement by
    grab transitions (into an empty hand slot), drop transitions, the
    per-hand callbacks and whole frames: each object of the scene is either
    in exactly one cell's collection and held by no hand slot, or held by
    exactly one hand slot and in no cell's collection; a cell's collection
    lists an object at most once and never an object that a hand slot
    holds; a hand slot holds at most one object. *)
Theorem ownership_invariant (st : HandGridController) :
  reachable st →
  (∀ o, o ∈ scene → exactlyOnePlace st o) ∧
  (∀ c arr, cellObjects st !! c = Some arr →
     NoDup arr ∧ ∀ o, o ∈ arr → o ∈ scene ∧ ∀ h, ¬ heldBy st h o) ∧
  (∀ h x, heldObjects st !! h = Some x →
     element x ∈ scene ∧ ∀ o, heldBy st h o → o = element x).
Proof.
  intros Hreach. apply reachable_ownership in Hreach as Hown.
  split; [intros o; by apply ownership_exactlyOnePlace|].
  split; [intros c arr; by apply ownership_cells|].
  intros h x Hh. split; [by eapply ownership_hands|].
  intros o (x' & Hh' & <-). congruence.
Qed.

(** C1 at a concrete input: hand 0 has grabbed the object of cell 0. *)
Lemma ownership_invariant_witness :
  let st :=
    grabObject viewport start 0 0 (mkLandmark 0.9 0.1 0) (fistAt 0.9 0.1) in
  reachable st ∧ exactlyOnePlace st 0 ∧ exactlyOnePlace st 1.
Proof.
  cbv zeta.
  assert (Hr : reachable (grabObject viewport start 0 0
                 (mkLandmark 0.9 0.1 0) (fistAt 0.9 0.1))).
  { apply reach_grab; [apply reach_start|reflexivity]. }
  split; [exact Hr|].
  pose proof (proj1 (ownership_invariant _ Hr)) as H.
  split; apply H; unfold scene.
  - apply list_elem_of_here.
  - apply list_elem_of_further, list_elem_of_here.
Defined.

(** ** The grab transition *)

Lemma processGesture_no_grab vp st h hand gesture recognizer :
  GridGestures.type gesture ≠ FIST →
  heldObjects st !! h = None →
  heldObjects (processGesture vp st h hand gesture recognizer) !! h = None.
Proof.
  intros Hne Hh. unfold processGesture.
  destruct (decide (GridGestures.type gesture = FIST)); [done|].
  destruct (decide _); [|exact Hh]. simpl.
  rewrite bool_decide_eq_false_2; [exact Hh|]. rewrite Hh. by intros [? ?].
Qed.

Lemma processGesture_fist vp st h hand gesture recognizer :
  GridGestures.type gesture = FIST →
  let palm := GridGestures.palmCenter gesture in
  let c := getCellIndex (px palm) (py palm) in
  let st1 :=
    mkController (cellObjects st) (heldObjects st) (elements st)
      (if ((0 <=? c) && (c <? 9))%Z then {[c]} ∪ activeCells st
       else activeCells st) recognizer in
  processGesture vp st h hand gesture recognizer =
    if negb (bool_decide (is_Some (heldObjects st !! h))) && (0 <=? c)%Z
       && nonEmpty (cellObjects st !! c)
    then grabObject vp st1 h c palm hand else st1.
Proof.
  intros Hf palm c st1. unfold processGesture. fold palm c. fold st1.
  destruct (decide (GridGestures.type gesture = FIST)); [|done].
  destruct (decide (GridGestures.type gesture = OPEN)) as [Ho|Ho];
    [rewrite Hf in Ho; done|].
  reflexivity.
Qed.

Lemma processGesture_grab (vp : Viewport) (st : HandGridController) (h : nat)
  (hand : Hand) (gesture : GridGestures.Gesture)
  (recognizer : GestureRecognizer) :
  let palm := GridGestures.palmCenter gesture in
  let c := getCellIndex (px palm) (py palm) in
  let st' := processGesture vp st h hand gesture recognizer in
  (grabFires st st' h ↔
     GridGestures.type gesture = FIST ∧
     heldObjects st !! h = None ∧
     (0 <= c <= 8)%Z ∧
     ∃ arr el, cellObjects st !! c = Some (arr ++ [el])) ∧
  (∀ arr el,
     grabFires st st' h → cellObjects st !! c = Some (arr ++ [el]) →
     heldBy st' h el ∧
     cellObjects st' !! c = (match arr with [] => None | _ :: _ => Some arr end) ∧
     ∀ c', c' ≠ c → cellObjects st' !! c' = cellObjects st !! c').
Proof.
  intros palm c st'.
  assert (Hiff : grabFires st st' h ↔
     GridGestures.type gesture = FIST ∧
     heldObjects st !! h = None ∧
     (0 <= c <= 8)%Z ∧
     ∃ arr el, cellObjects st !! c = Some (arr ++ [el])).
  { split.
    - intros [Hh Hs].
      destruct (decide (GridGestures.type gesture = FIST)) as [Hf|Hf].
      2: { subst st'. rewrite processGesture_no_grab in Hs by done.
           by destruct Hs. }
      subst st'. rewrite processGesture_fist in Hs by done. fold palm c in Hs.
      destruct (_ && _) eqn:E.
      + apply andb_true_iff in E as [E Hne]. apply andb_true_iff in E as [_ Hc].
        apply Z.leb_le in Hc. apply nonEmpty_snoc in Hne.
        split; [done|]. split; [done|]. split; [|done].
        by apply getCellIndex_range.
      + simpl in Hs. rewrite Hh in Hs. by destruct Hs.
    - intros (Hf & Hh & Hc & arr & el & Harr). split; [done|].
      subst st'. rewrite processGesture_fist by done. fold palm c.
      rewrite bool_decide_eq_false_2 by (rewrite Hh; by intros [? ?]).
      replace (0 <=? c)%Z with true by (symmetry; apply Z.leb_le; lia).
      rewrite (proj2 (nonEmpty_snoc _)) by eauto. simpl.
      match goal with |- context [grabObject vp ?s h c palm hand] =>
        destruct (grabObject_maps vp s h c palm hand arr el Harr)
          as (_ & held & Hheld & _) end.
      rewrite Hheld. simpl. rewrite lookup_insert_eq. eauto. }
  split; [exact Hiff|].
  intros arr el Hfires Harr.
  apply Hiff in Hfires as (Hf & Hh & Hc & arr' & el' & Harr').
  subst st'. rewrite processGesture_fist by done. fold palm c.
  rewrite bool_decide_eq_false_2 by (rewrite Hh; by intros [? ?]).
  replace (0 <=? c)%Z with true by (symmetry; apply Z.leb_le; lia).
  rewrite (proj2 (nonEmpty_snoc _)) by eauto. simpl.
  match goal with |- context [grabObject vp ?s h c palm hand] =>
    destruct (grabObject_maps vp s h c palm hand arr el Harr)
      as (Hcells & held & Hheld & Hel & _) end.
  rewrite Hcells. split.
  - exists held. rewrite Hheld. simpl. rewrite lookup_insert_eq. done.
  - simpl. destruct arr as [|a arr].
    + rewrite lookup_delete_eq. split; [done|].
      intros c' Hne. by rewrite lookup_delete_ne.
    + rewrite lookup_insert_eq. split; [done|].
      intros c' Hne. by rewrite lookup_insert_ne.
Qed.

(** C2 (amended).  In the callback for one hand, a grab fires (the slot
    was empty and holds something afterwards) exactly when the type emitted
    by [recognize] in this frame is FIST - whatever was emitted in the frame
    before -, the hand slot holds nothing, the cell index of the palm
    centre is in 0..8 and that cell's collection is non-empty.  It then
    takes the last element of that collection into the hand slot and
    removes the cell's entry when the collection has become empty; the
    other cells keep their collections. *)
Theorem grab_transition (vp : Viewport) (st : HandGridController) (h : nat)
  (hand : Hand) :
  let seen := GridGestures.recognize (gestureRecognizer st) (landmarks hand) h in
  let palm := GridGestures.palmCenter seen.1 in
  let c := getCellIndex (px palm) (py palm) in
  let st' := processHand vp st h hand in
  (grabFires st st' h ↔
     GridGestures.type seen.1 = FIST ∧
     heldObjects st !! h = None ∧
     (0 <= c <= 8)%Z ∧
     ∃ arr el, cellObjects st !! c = Some (arr ++ [el])) ∧
  (∀ arr el,
     grabFires st st' h → cellObjects st !! c = Some (arr ++ [el]) →
     heldBy st' h el ∧
     cellObjects st' !! c = (match arr with [] => None | _ :: _ => Some arr end) ∧
     ∀ c', c' ≠ c → cellObjects st' !! c' = cellObjects st !! c').
Proof.
  intros seen palm c st'. subst st' palm c. unfold processHand. fold seen.
  destruct seen as [gesture recognizer]. apply processGesture_grab.
Qed.

Lemma distance2D_same (p : Landmark) : distance2D p p = 0%R.
Proof.
  unfold distance2D.
  replace (Q2R _) with 0%R; [apply sqrt_0|].
  rewrite Q2R_plus, !Q2R_mult, !Q2R_minus. ring.
Qed.

Lemma Rltb_irrefl_scaled (k : R) : Rltb (0 * k) 0 = false.
Proof. apply Rltb_ge. lra. Qed.

Lemma getFingerStates_handAt (x y : Q) :
  getFingerStates (handAt x y) = mkFingerStates false false false false false 0.
Proof.
  unfold getFingerStates, isThumbExtended, isFingerExtended, handAt, at_.
  cbn [indices tip pip lookup_total list_lookup_total replicate].
  simpl. rewrite !distance2D_same, !Rltb_irrefl_scaled. reflexivity.
Qed.

Lemma recognize_handAt (rs : GestureRecognizer) (x y : Q) (h : nat) :
  GridGestures.recognize rs (handAt x y) h =
    let out := applyHysteresis rs (mkClassified FIST 0.9) h in
    (GridGestures.mkGesture (gtype out.1) (Gestures.confidence out.1)
       (getPalmCenter (handAt x y)), out.2).
Proof.
  unfold GridGestures.recognize.
  change (length (handAt x y) <? 21)%nat with false. cbv iota.
  rewrite getFingerStates_handAt.
  change (GridGestures.classifyGesture _ h) with (mkClassified FIST 0.9).
  cbv zeta. by destruct (applyHysteresis _ _ _).
Qed.

Lemma heldBy_lookup st h o :
  heldBy st h o ↔ element <$> heldObjects st !! h = Some o.
Proof.
  unfold heldBy. destruct (heldObjects st !! h) as [x|]; simpl; split.
  - intros (x' & [= <-] & <-). done.
  - intros [= <-]. eauto.
  - intros (x' & ? & _). done.
  - done.
Qed.

Lemma updateHeldObjectFlip_maps st h hand h' :
  cellObjects (updateHeldObjectFlip st h hand) = cellObjects st ∧
  gestureRecognizer (updateHeldObjectFlip st h hand) = gestureRecognizer st ∧
  element <$> heldObjects (updateHeldObjectFlip st h hand) !! h'
    = element <$> heldObjects st !! h'.
Proof.
  unfold updateHeldObjectFlip.
  destruct (heldObjects st !! h) as [held|] eqn:Hh; [|done].
  destruct (eqb _ _); [done|]. simpl. split; [done|]. split; [done|].
  destruct (decide (h = h')) as [<-|Hne].
  - by rewrite lookup_insert_eq, Hh.
  - by rewrite lookup_insert_ne.
Qed.

Lemma followHand_maps vp st h hand h' :
  cellObjects (followHand vp st h hand) = cellObjects st ∧
  element <$> heldObjects (followHand vp st h hand) !! h'
    = element <$> heldObjects st !! h'.
Proof.
  unfold followHand. destruct (heldObjects st !! h) as [held|]; [|done].
  destruct (GridGestures.recognize _ _ _) as [gesture recognizer].
  match goal with |- context [updateHeldObjectFlip ?s h hand] =>
    destruct (updateHeldObjectFlip_maps s h hand h') as (-> & _ & ->) end.
  done.
Qed.

Lemma followHandsFrom_maps vp hands h' : ∀ st h,
  cellObjects (followHandsFrom vp st h hands) = cellObjects st ∧
  element <$> heldObjects (followHandsFrom vp st h hands) !! h'
    = element <$> heldObjects st !! h'.
Proof.
  induction hands as [|hand hands IH]; intros st h; simpl; [done|].
  destruct (IH (followHand vp st h hand) (S h)) as [-> ->].
  apply followHand_maps.
Qed.

Lemma animate_maps vp st hands h' :
  cellObjects (animate vp st (Some hands)) = cellObjects (frameHands vp st hands) ∧
  element <$> heldObjects (animate vp st (Some hands)) !! h'
    = element <$> heldObjects (frameHands vp st hands) !! h'.
Proof.
  unfold animate, frameHands, processHands.
  match goal with |- context [followHandsFrom vp ?s 0 hands] =>
    destruct (followHandsFrom_maps vp hands h' s 0) as [-> ->] end.
  by destruct hands.
Qed.

Ltac run_hands :=
  unfold frameHands, processHandsFrom, processHand, fistAt;
  cbn [landmarks];
  rewrite ?recognize_handAt.

Lemma frame1_nothing_held :
  animate viewport start (Some [fistAt 0.5 0.1]) =
    frameHands viewport start [fistAt 0.5 0.1] ∧
  heldObjects (frameHands viewport start [fistAt 0.5 0.1]) = ∅.
Proof.
  assert (H : heldObjects (frameHands viewport start [fistAt 0.5 0.1]) = ∅).
  { run_hands. vm_compute. reflexivity. }
  split; [|exact H].
  unfold animate, processHands. fold (frameHands viewport start [fistAt 0.5 0.1]).
  unfold followHandsFrom, followHand. rewrite H. reflexivity.
Qed.

(** C2, the claim as stated fails.  Frame 1: a fist over the empty cell 1
    emits FIST and grabs nothing.  Frame 2: the same fist over cell 0 emits
    FIST again, so the emitted type does not change into FIST in this
    frame, and yet the grab fires: hand 0 now holds object 0. *)
Lemma grab_while_fist_persists :
  let frame1 := animate viewport start (Some [fistAt 0.5 0.1]) in
  let frame2 := animate viewport frame1 (Some [fistAt 0.9 0.1]) in
  let seen1 :=
    GridGestures.recognize (gestureRecognizer start) (handAt 0.5 0.1) 0 in
  let seen2 :=
    GridGestures.recognize (gestureRecognizer frame1) (handAt 0.9 0.1) 0 in
  GridGestures.type seen1.1 = FIST ∧
  getCellIndex (px (GridGestures.palmCenter seen1.1))
               (py (GridGestures.palmCenter seen1.1)) = 1%Z ∧
  cellObjects start !! 1%Z = None ∧
  heldObjects frame1 !! 0%nat = None ∧
  GridGestures.type seen2.1 = FIST ∧
  getCellIndex (px (GridGestures.palmCenter seen2.1))
               (py (GridGestures.palmCenter seen2.1)) = 0%Z ∧
  grabFires frame1 frame2 0 ∧
  heldBy frame2 0 0.
Proof.
  cbv zeta. unfold grabFires. rewrite heldBy_lookup.
  destruct frame1_nothing_held as [-> Hheld].
  destruct (animate_maps viewport
              (frameHands viewport start [fistAt 0.5 0.1])
              [fistAt 0.9 0.1] 0) as [_ Hel].
  assert (H2 : element <$>
                 heldObjects
                   (frameHands viewport
                      (frameHands viewport start [fistAt 0.5 0.1])
                      [fistAt 0.9 0.1]) !! 0%nat = Some 0%nat).
  { run_hands. vm_compute. reflexivity. }
  rewrite <- Hel in H2.
  split; [rewrite recognize_handAt; vm_compute; reflexivity|].
  split; [rewrite recognize_handAt; vm_compute; reflexivity|].
  split; [vm_compute; reflexivity|].
  split; [by rewrite Hheld|].
  split; [run_hands; vm_compute; reflexivity|].
  split; [rewrite recognize_handAt; vm_compute; reflexivity|].
  split; [|exact H2]. split; [by rewrite Hheld|].
  destruct (heldObjects _ !! 0%nat); [eauto|discriminate].
Qed.

(** C2 at a concrete input: in the initial state a fist over cell 0 grabs
    the object of that cell. *)
Lemma grab_transition_witness :
  grabFires start (processHand viewport start 0 (fistAt 0.9 0.1)) 0.
Proof.
  apply (proj1 (grab_transition viewport start 0 (fistAt 0.9 0.1))).
  unfold fistAt. cbn [landmarks]. rewrite recognize_handAt.
  split; [vm_compute; reflexivity|].
  split; [vm_compute; reflexivity|].
  split; [vm_compute; split; discriminate|].
  exists [], 0%nat. vm_compute. reflexivity.
Defined.

(** ** Grab, then drop *)

Lemma start_cells : cellObjects start = {[0%Z := [0%nat]; 4%Z := [1%nat]]}.
Proof. vm_compute. reflexivity. Qed.

Lemma grabObject_cellsWellFormed vp st h c palm hand :
  cellsWellFormed st → cellsWellFormed (grabObject vp st h c palm hand).
Proof.
  intros Hwf.
  destruct (nonEmpty (cellObjects st !! c)) eqn:E.
  2: { by rewrite grabObject_noop. }
  apply nonEmpty_snoc in E as (arr & el & Hc).
  destruct (grabObject_maps vp st h c palm hand arr el Hc) as (Hcells & _).
  intros c' arr'. rewrite Hcells. destruct arr as [|a arr].
  - intros [_ H]%lookup_delete_Some. by apply Hwf.
  - intros [[<- <-]|[_ H]]%lookup_insert_Some; [|by apply Hwf].
    split; [|done]. by destruct (Hwf _ _ Hc).
Qed.

Lemma dropObject_cellsWellFormed st h c st' :
  cellsWellFormed st → dropObject st h c = Some st' → cellsWellFormed st'.
Proof.
  intros Hwf Hdrop.
  apply dropObject_maps in Hdrop as [[_ ->]|(held & _ & Hc & Hcells & _)];
    [done|].
  intros c' arr'. rewrite Hcells.
  intros [[<- <-]|[_ H]]%lookup_insert_Some; [|by apply Hwf].
  split; [done|]. by destruct (default [] _).
Qed.

Lemma processGesture_cellsWellFormed vp st h hand gesture recognizer :
  cellsWellFormed st →
  cellsWellFormed (processGesture vp st h hand gesture recognizer).
Proof.
  intros Hwf. unfold processGesture.
  set (palm := GridGestures.palmCenter gesture).
  set (c := getCellIndex (px palm) (py palm)).
  set (st1 := mkController _ _ _ _ recognizer).
  assert (Hwf1 : cellsWellFormed st1) by exact Hwf.
  clearbody st1.
  set (st2 := if decide (GridGestures.type gesture = FIST) then _ else st1).
  assert (Hwf2 : cellsWellFormed st2).
  { subst st2. destruct (decide _); [|done]. destruct (_ && _); [|done].
    by apply grabObject_cellsWellFormed. }
  clearbody st2.
  destruct (decide _); [|done]. destruct (_ && _); [|done].
  destruct (dropObject st2 h c) as [st3|] eqn:E; simpl; [|done].
  by eapply dropObject_cellsWellFormed.
Qed.

Lemma processHandsFrom_cellsWellFormed vp hands : ∀ st h,
  cellsWellFormed st → cellsWellFormed (processHandsFrom vp st h hands).
Proof.
  induction hands as [|hand hands IH]; intros st h Hwf; simpl; [done|].
  apply IH. unfold processHand.
  destruct (GridGestures.recognize _ _ _) as [gesture recognizer].
  by apply processGesture_cellsWellFormed.
Qed.

Lemma reachable_cellsWellFormed st : reachable st → cellsWellFormed st.
Proof.
  induction 1 as [|vp st h c palm hand _ IH _|st h c st' _ IH Hd
                  |vp st h hand _ IH|vp st h hand _ IH|vp st hands _ IH].
  - intros c arr. rewrite start_cells.
    intros [[<- <-]|[_ [<- <-]%lookup_singleton_Some]]%lookup_insert_Some;
      done.
  - by apply grabObject_cellsWellFormed.
  - by eapply dropObject_cellsWellFormed.
  - by apply (processHandsFrom_cellsWellFormed vp [hand] st h).
  - intros c arr. destruct (followHand_maps vp st h hand 0) as [-> _].
    apply IH.
  - destruct hands as [hands|]; [|exact IH].
    intros c arr. destruct (animate_maps vp st hands 0) as [-> _].
    by apply processHandsFrom_cellsWellFormed.
Qed.

(** C8.  In a reachable state, when an empty hand slot grabs the top
    object of a cell and drops it into the same cell, the drop succeeds and
    [cellObjects] is what it was before the grab - every cell has the same
    objects, in the same order, with the grabbed object on top of its
    cell - and the hand slot is empty again; in between, the object is
    held by that slot and in no cell. *)
Theorem grab_drop_round_trip (st : HandGridController) :
  reachable st →
  ∀ vp h c palm hand arr el,
    heldObjects st !! h = None →
    cellObjects st !! c = Some (arr ++ [el]) →
    let grabbed := grabObject vp st h c palm hand in
    heldBy grabbed h el ∧
    (∀ c', ¬ inCell grabbed c' el) ∧
    ∃ st', dropObject grabbed h c = Some st' ∧
           cellObjects st' = cellObjects st ∧
           heldObjects st' = heldObjects st ∧
           (∀ c' o, inCell st' c' o ↔ inCell st c' o) ∧
           cellObjects st' !! c ≫= last = Some el.
Proof.
  intros Hreach vp h c palm hand arr el Hh Hc grabbed.
  destruct (grabObject_maps vp st h c palm hand arr el Hc)
    as (Hcells & held & Hheld & Hel & _).
  fold grabbed in Hcells, Hheld.
  assert (Hby : heldBy grabbed h el).
  { exists held. by rewrite Hheld, lookup_insert_eq. }
  assert (Hrg : reachable grabbed) by (by apply reach_grab).
  split; [exact Hby|]. split.
  { intros c' Hin. apply reachable_ownership in Hrg.
    by eapply inCell_not_heldBy. }
  destruct (reachable_cellsWellFormed st Hreach c _ Hc) as [Hgrid _].
  destruct (dropObject_in_range grabbed h c Hgrid) as [st' Hdrop].
  exists st'. split; [exact Hdrop|].
  apply dropObject_maps in Hdrop
    as [[Hnone _]|(held' & Hh' & _ & Hcells' & Hheld')].
  { rewrite Hheld, lookup_insert_eq in Hnone. done. }
  rewrite Hheld, lookup_insert_eq in Hh'. injection Hh' as <-.
  assert (Hback : cellObjects st' = cellObjects st).
  { rewrite Hcells', Hcells, Hel. destruct arr as [|a arr].
    - rewrite lookup_delete_eq. simpl. by apply insert_delete_id.
    - rewrite lookup_insert_eq. simpl. rewrite insert_insert_eq.
      by apply insert_id. }
  split; [exact Hback|]. split.
  { rewrite Hheld', Hheld, delete_insert_eq. by apply delete_id. }
  split.
  { intros c' o. unfold inCell. by rewrite Hback. }
  rewrite Hback, Hc. simpl. apply last_snoc.
Qed.

(** C8 at a concrete input: the object of cell 0 in the initial state. *)
Lemma grab_drop_round_trip_witness :
  let hand := fistAt 0.9 0.1 in
  reachable start ∧
  heldObjects start !! 0%nat = None ∧
  cellObjects start !! 0%Z = Some ([] ++ [0%nat]) ∧
  ∃ st', dropObject (grabObject viewport start 0 0 (mkLandmark 0.9 0.1 0) hand)
           0 0 = Some st' ∧
         cellObjects st' = cellObjects start.
Proof.
  cbv zeta. split; [apply reach_start|]. split; [reflexivity|].
  split; [reflexivity|].
  destruct (grab_drop_round_trip start reach_start viewport 0%nat 0%Z
              (mkLandmark 0.9 0.1 0) (fistAt 0.9 0.1) [] 0%nat
              eq_refl eq_refl) as (_ & _ & st' & Hd & Hc & _).
  exists st'. split; [exact Hd|exact Hc].
Defined.

(** ** Flip tracking *)

(** The two loops that wrap the angle difference stop within [turns]
    rounds and leave a value in [[-PI, PI]]. *)

Lemma turns_bound (d : R) : (Rabs d < 2 * PI * INR (turns d))%R.
Proof.
  unfold turns. pose proof PI_RGT_0 as Hpi.
  set (r := (Rabs d / (2 * PI))%R).
  destruct (archimed r) as [Hup _].
  assert (Hr : (0 <= r)%R).
  { unfold r. apply Rmult_le_pos; [apply Rabs_pos|].
    apply Rlt_le, Rinv_0_lt_compat. lra. }
  assert (Hz : (0 < up r)%Z) by (apply lt_IZR; lra).
  rewrite INR_IZR_INZ, Z2Nat.id by lia.
  assert (Hd : (Rabs d = r * (2 * PI))%R) by (unfold r; field; lra).
  rewrite Hd. nra.
Qed.

Lemma wrapDown_spec (n : nat) : ∀ d : R,
  (d - 2 * PI * INR n <= PI)%R →
  (wrapDown n d <= PI)%R ∧
  ((d <= PI)%R → wrapDown n d = d) ∧
  ((PI < d)%R → (- PI < wrapDown n d)%R) ∧
  ∃ k : nat, wrapDown n d = (d - 2 * PI * INR k)%R.
Proof.
  pose proof PI_RGT_0 as Hpi.
  induction n as [|n IH]; intros d Hd.
  - simpl in *. split; [lra|]. split; [done|]. split; [lra|].
    exists 0%nat. simpl. lra.
  - rewrite S_INR in Hd. simpl. unfold Rltb. destruct (Rlt_dec PI d) as [Hlt|Hge].
    + destruct (IH (d - 2 * PI)%R) as (H1 & H2 & H3 & k & Hk); [lra|].
      split; [done|]. split; [lra|]. split.
      * intros _. destruct (Rle_or_lt (d - 2 * PI) PI) as [Hle|Hgt].
        -- rewrite H2 by done. lra.
        -- by apply H3.
      * exists (S k). rewrite Hk, S_INR. lra.
    + split; [lra|]. split; [done|]. split; [lra|].
      exists 0%nat. simpl. lra.
Qed.

Lemma wrapUp_spec (n : nat) : ∀ d : R,
  (- PI <= d + 2 * PI * INR n)%R →
  (- PI <= wrapUp n d)%R ∧
  ((- PI <= d)%R → wrapUp n d = d) ∧
  ((d < - PI)%R → (wrapUp n d < PI)%R) ∧
  ∃ k : nat, wrapUp n d = (d + 2 * PI * INR k)%R.
Proof.
  pose proof PI_RGT_0 as Hpi.
  induction n as [|n IH]; intros d Hd.
  - simpl in *. split; [lra|]. split; [done|]. split; [lra|].
    exists 0%nat. simpl. lra.
  - rewrite S_INR in Hd. simpl. unfold Rltb.
    destruct (Rlt_dec d (- PI)) as [Hlt|Hge].
    + destruct (IH (d + 2 * PI)%R) as (H1 & H2 & H3 & k & Hk); [lra|].
      split; [done|]. split; [lra|]. split.
      * intros _. destruct (Rle_or_lt (- PI) (d + 2 * PI)) as [Hle|Hgt].
        -- rewrite H2 by done. lra.
        -- by apply H3.
      * exists (S k). rewrite Hk, S_INR. lra.
    + split; [lra|]. split; [done|]. split; [lra|].
      exists 0%nat. simpl. lra.
Qed.

Lemma wrapAngle_spec (d : R) :
  (- PI <= wrapAngle d <= PI)%R ∧
  (∃ k : Z, wrapAngle d = (d + 2 * PI * IZR k)%R) ∧
  ((- PI <= d <= PI)%R → wrapAngle d = d).
Proof.
  pose proof PI_RGT_0 as Hpi. unfold wrapAngle.
  set (d1 := wrapDown (turns d) d).
  destruct (wrapDown_spec (turns d) d) as (H1 & H2 & H3 & k1 & Hk1).
  { pose proof (turns_bound d). pose proof (Rle_abs d). lra. }
  fold d1 in H1, H2, H3, Hk1.
  destruct (wrapUp_spec (turns d1) d1) as (U1 & U2 & U3 & k2 & Hk2).
  { pose proof (turns_bound d1). pose proof (Rle_abs (- d1)).
    rewrite Rabs_Ropp in H0. lra. }
  split; [|split].
  - split; [done|]. destruct (Rle_or_lt (- PI) d1) as [Hle|Hgt].
    + rewrite U2 by done. done.
    + apply Rlt_le. by apply U3.
  - exists (Z.of_nat k2 - Z.of_nat k1)%Z.
    rewrite minus_IZR, <- !INR_IZR_INZ. rewrite Hk2. clearbody d1. subst d1.
    lra.
  - intros [Hlo Hhi]. rewrite U2; rewrite H2 by done; [done|lra].
Qed.

Lemma handRotated_iff (currentAngle grabAngle : R) :
  handRotated currentAngle grabAngle = true ↔
  (PI / 6 < Rabs (wrapAngle (currentAngle - grabAngle)))%R.
Proof. unfold handRotated. apply Rltb_lt. Qed.

Lemma handRotated_same (a : R) : handRotated a a = false.
Proof.
  pose proof PI_RGT_0 as Hpi. unfold handRotated.
  replace (a - a)%R with 0%R by ring.
  destruct (wrapAngle_spec 0) as (_ & _ & ->); [|split; lra].
  rewrite Rabs_R0. apply Rltb_ge. lra.
Qed.

Lemma flipState_normal (held : Held) (hand : Hand) wl gz cur :
  worldLandmarks hand = Some wl → grabNormalZ held = Some gz →
  getPalmNormalZ wl = Some cur →
  flipState held hand = xorb (Qltb (cur * gz) 0) (grabWasBack held).
Proof.
  intros Hw Hg Hc. unfold flipState. rewrite Hw, Hg, Hc.
  by destruct (Qltb _ _), (grabWasBack held).
Qed.

Lemma flipState_angle (held : Held) (hand : Hand) :
  grabNormalZ held = None →
  flipState held hand =
    xorb (handRotated (getPalmAngle (landmarks hand)) (grabAngle held))
         (grabWasBack held).
Proof.
  intros Hg. unfold flipState. rewrite Hg.
  by destruct (handRotated _ _), (grabWasBack held).
Qed.

Lemma flipState_neither (held : Held) (hand : Hand) gz :
  grabNormalZ held = Some gz →
  worldLandmarks hand ≫= getPalmNormalZ = None →
  flipState held hand = false.
Proof.
  intros Hg Hw. unfold flipState. rewrite Hg.
  destruct (worldLandmarks hand) as [wl|]; [|done].
  simpl in Hw. by rewrite Hw.
Qed.

Lemma flipState_ignores_landmarks (held : Held) (hand hand' : Hand) gz :
  grabNormalZ held = Some gz →
  worldLandmarks hand' = worldLandmarks hand →
  flipState held hand' = flipState held hand.
Proof. intros Hg Hw. unfold flipState. by rewrite Hg, Hw. Qed.

Lemma getPalmNormalZ_cross (wl : list Landmark) :
  18 ≤ length wl →
  getPalmNormalZ wl =
    Some ((px (at_ wl 5) - px (at_ wl 0)) * (py (at_ wl 17) - py (at_ wl 0))
          - (py (at_ wl 5) - py (at_ wl 0)) * (px (at_ wl 17) - px (at_ wl 0)))%Q.
Proof.
  intros H. unfold getPalmNormalZ.
  replace (length wl <? 18)%nat with false by (symmetry; apply Nat.ltb_ge; lia).
  reflexivity.
Qed.

Lemma updateHeldObjectFlip_isBack st h hand held :
  heldObjects st !! h = Some held →
  isBack <$> heldObjects (updateHeldObjectFlip st h hand) !! h
    = Some (flipState held hand).
Proof.
  intros Hh. unfold updateHeldObjectFlip. rewrite Hh.
  destruct (eqb (flipState held hand) (isBack held)) eqn:E.
  - rewrite Hh. simpl. apply eqb_prop in E. by rewrite E.
  - simpl. by rewrite lookup_insert_eq.
Qed.

(** [updateHeldObjectFlip] writes [isBack] and leaves the snapshot of the
    grab as it is. *)
Lemma updateHeldObjectFlip_entry st h hand held :
  heldObjects st !! h = Some held →
  heldObjects (updateHeldObjectFlip st h hand) !! h
  = Some (mkHeld (element held) (fromCellIndex held) (grabAngle held)
                 (grabNormalZ held) (grabWasBack held) (flipState held hand)).
Proof.
  intros Hh. unfold updateHeldObjectFlip. rewrite Hh.
  destruct (eqb (flipState held hand) (isBack held)) eqn:E.
  - rewrite Hh. apply eqb_prop in E. rewrite E. by destruct held.
  - simpl. by rewrite lookup_insert_eq.
Qed.

(** The class [flipped] of the held element follows [isBack]. *)
Lemma updateHeldObjectFlip_display st h hand held e :
  heldObjects st !! h = Some held →
  elements st !! element held = Some e → flipped e = isBack held →
  flipped <$> elements (updateHeldObjectFlip st h hand) !! element held
    = Some (flipState held hand).
Proof.
  intros Hh He Hsync. unfold updateHeldObjectFlip. rewrite Hh.
  destruct (eqb (flipState held hand) (isBack held)) eqn:E.
  - rewrite He. simpl. apply eqb_prop in E. by rewrite E, Hsync.
  - simpl. rewrite lookup_alter_eq, He. reflexivity.
Qed.

(** What [grabObject] records in the slot: the object on top of the cell,
    the cell, the direction of the palm, the palm-normal z of the world
    landmarks if there are any, and the side the object shows. *)
Lemma grabObject_snapshot vp st h c palm hand arr el e0 :
  cellObjects st !! c = Some (arr ++ [el]) → elements st !! el = Some e0 →
  heldObjects (grabObject vp st h c palm hand) !! h
  = Some (mkHeld el c (getPalmAngle (landmarks hand))
                 (worldLandmarks hand ≫= getPalmNormalZ)
                 (flipped e0) (flipped e0)).
Proof.
  intros Hc He. unfold grabObject. rewrite Hc, last_snoc. cbn [heldObjects].
  rewrite lookup_insert_eq, lookup_alter_eq, He. reflexivity.
Qed.

(** ** The document follows the two maps *)

Lemma updateHeldObjectPosition_other vp els el palm o :
  o ≠ el → updateHeldObjectPosition vp els el palm !! o = els !! o.
Proof. intros Hne. unfold updateHeldObjectPosition. by apply lookup_alter_ne. Qed.

Lemma updateHeldObjectPosition_at vp els el palm e :
  els !! el = Some e →
  ∃ left top,
    updateHeldObjectPosition vp els el palm !! el
    = Some (mkElem (parent e) (heldClass e) (flipped e) (Some (left, top))).
Proof.
  intros He. unfold updateHeldObjectPosition.
  rewrite lookup_alter_eq, He. simpl. eauto.
Qed.

Lemma start_domConsistent : domConsistent start.
Proof.
  split.
  - intros c arr o Hc Ho. rewrite start_cells in Hc.
    apply lookup_insert_Some in Hc as [[<- <-]|[_ Hc]].
    + apply list_elem_of_singleton in Ho as ->. by eexists.
    + apply lookup_singleton_Some in Hc as [<- <-].
      apply list_elem_of_singleton in Ho as ->. by eexists.
  - intros h held Hh. change (heldObjects start) with (∅ : gmap nat Held) in Hh.
    by rewrite lookup_empty in Hh.
Qed.

Lemma grabObject_domConsistent vp st h c palm hand :
  ownership st → heldObjects st !! h = None → domConsistent st →
  domConsistent (grabObject vp st h c palm hand).
Proof.
  intros Hown Hh [Hrest Hheld].
  destruct (nonEmpty (cellObjects st !! c)) eqn:E.
  2: { by rewrite grabObject_noop. }
  apply nonEmpty_snoc in E as (arr & el & Hc).
  assert (Hel : inCell st c el).
  { exists (arr ++ [el]). split; [done|]. apply elem_of_app. right.
    by apply list_elem_of_singleton. }
  destruct (ownership_cells st c _ Hown Hc) as [Hnd _].
  destruct (Hrest c _ el Hc) as (e0 & He0 & _).
  { apply elem_of_app. right. by apply list_elem_of_singleton. }
  unfold grabObject. rewrite Hc, last_snoc, removelast_last. split.
  - intros c' arr' o Hc' Ho. simpl in Hc', Ho |- *.
    assert (Hold : inCell st c' o ∧ o ≠ el).
    { destruct (decide (c' = c)) as [->|Hne].
      - assert (Harr : arr' = arr).
        { destruct arr; [by rewrite lookup_delete_eq in Hc'|].
          rewrite lookup_insert_eq in Hc'. by inversion Hc'. }
        subst arr'. split.
        + exists (arr ++ [el]). split; [done|]. apply elem_of_app. by left.
        + intros ->. apply NoDup_app in Hnd as (_ & Hdisj & _).
          apply (Hdisj el Ho). by apply list_elem_of_singleton.
      - assert (Hcell : cellObjects st !! c' = Some arr').
        { destruct arr; [by rewrite lookup_delete_ne in Hc'|].
          by rewrite lookup_insert_ne in Hc'. }
        split; [by exists arr'|].
        intros ->. apply Hne. eapply (inCell_unique st c c' el); eauto.
        by exists arr'. }
    destruct Hold as [(arr0 & Hc0 & Ho0) Hne].
    rewrite updateHeldObjectPosition_other by done.
    rewrite lookup_alter_ne by done. by eapply Hrest.
  - intros h' held' Hh'. simpl in Hh' |- *.
    destruct (decide (h' = h)) as [->|Hne].
    + rewrite lookup_insert_eq in Hh'. inversion Hh'; subst held'. simpl.
      rewrite lookup_alter_eq, He0. simpl.
      destruct (updateHeldObjectPosition_at vp
                  (alter (λ e, mkElem DragLayer true (flipped e)
                                      (styleLeftTop e)) el (elements st))
                  el palm (mkElem DragLayer true (flipped e0)
                                  (styleLeftTop e0)))
        as (left & top & Hpos).
      { by rewrite lookup_alter_eq, He0. }
      rewrite Hpos. eexists. split; [done|]. simpl. by repeat split.
    + rewrite lookup_insert_ne in Hh' by done.
      assert (Hne' : element held' ≠ el).
      { intros Heq. apply (inCell_not_heldBy st c h' el Hown Hel).
        by exists held'. }
      rewrite updateHeldObjectPosition_other by done.
      rewrite lookup_alter_ne by done. by eapply Hheld.
Qed.

Lemma dropObject_domConsistent st h c st' :
  ownership st → domConsistent st → dropObject st h c = Some st' →
  domConsistent st'.
Proof.
  intros Hown [Hrest Hheld] Hdrop. unfold dropObject in Hdrop.
  destruct (heldObjects st !! h) as [held|] eqn:Hh;
    [|by inversion Hdrop; subst].
  destruct (hasGridCell c); [|done]. inversion Hdrop; subst st'. clear Hdrop.
  assert (Hby : heldBy st h (element held)) by (by exists held).
  destruct (Hheld h held Hh) as (e0 & He0 & _).
  split.
  - intros c' arr' o Hc' Ho. simpl in Hc', Ho |- *.
    destruct (decide (o = element held)) as [->|Hne].
    + assert (c' = c) as ->.
      { destruct (decide (c' = c)) as [|Hc]; [done|exfalso].
        rewrite lookup_insert_ne in Hc' by done.
        apply (inCell_not_heldBy st c' h (element held) Hown); [|done].
        by exists arr'. }
      rewrite lookup_alter_eq, He0. simpl. by eexists.
    + rewrite lookup_alter_ne by done.
      destruct (decide (c' = c)) as [->|Hc].
      * rewrite lookup_insert_eq in Hc'. inversion Hc'; subst arr'.
        apply elem_of_app in Ho as [Ho|Ho].
        -- destruct (cellObjects st !! c) as [arr0|] eqn:Hc0; simpl in Ho.
           ++ by eapply Hrest.
           ++ by apply elem_of_nil in Ho.
        -- by apply list_elem_of_singleton in Ho.
      * rewrite lookup_insert_ne in Hc' by done. by eapply Hrest.
  - intros h' held' Hh'. simpl in Hh' |- *.
    apply lookup_delete_Some in Hh' as [Hne Hh'].
    assert (Hne' : element held' ≠ element held).
    { intros Heq. apply Hne.
      apply (heldBy_unique st h' h (element held') Hown).
      - by exists held'.
      - by exists held. }
    rewrite lookup_alter_ne by done. by eapply Hheld.
Qed.

Lemma updateHeldObjectFlip_domConsistent st h hand :
  ownership st → domConsistent st →
  domConsistent (updateHeldObjectFlip st h hand).
Proof.
  intros Hown [Hrest Hheld]. unfold updateHeldObjectFlip.
  destruct (heldObjects st !! h) as [held|] eqn:Hh; [|done].
  destruct (eqb _ _); [done|].
  assert (Hby : heldBy st h (element held)) by (by exists held).
  destruct (Hheld h held Hh) as (e0 & He0 & Hp & Hc & Hs & _).
  split.
  - intros c arr o Hc' Ho. simpl in Hc', Ho |- *.
    assert (Hne : o ≠ element held).
    { intros ->. apply (inCell_not_heldBy st c h (element held) Hown);
        [by exists arr|done]. }
    rewrite lookup_alter_ne by done. by eapply Hrest.
  - intros h' held' Hh'. simpl in Hh' |- *.
    destruct (decide (h' = h)) as [->|Hne].
    + rewrite lookup_insert_eq in Hh'. inversion Hh'; subst held'. simpl.
      rewrite lookup_alter_eq, He0. simpl. eexists. by repeat split.
    + rewrite lookup_insert_ne in Hh' by done.
      assert (Hne' : element held' ≠ element held).
      { intros Heq. apply Hne.
        apply (heldBy_unique st h h' (element held) Hown); [done|].
        by exists held'. }
      rewrite lookup_alter_ne by done. by eapply Hheld.
Qed.

Lemma followHand_domConsistent vp st h hand :
  ownership st → domConsistent st → domConsistent (followHand vp st h hand).
Proof.
  intros Hown Hdom. unfold followHand.
  destruct (heldObjects st !! h) as [held|] eqn:Hh; [|done].
  destruct (GridGestures.recognize _ _ _) as [gesture recognizer].
  apply updateHeldObjectFlip_domConsistent; [exact Hown|].
  destruct Hdom as [Hrest Hheld].
  assert (Hby : heldBy st h (element held)) by (by exists held).
  split.
  - intros c arr o Hc Ho. simpl in Hc, Ho |- *.
    assert (Hne : o ≠ element held).
    { intros ->. apply (inCell_not_heldBy st c h (element held) Hown);
        [by exists arr|done]. }
    rewrite updateHeldObjectPosition_other by done. by eapply Hrest.
  - intros h' held' Hh'. simpl in Hh' |- *.
    destruct (Hheld h' held' Hh') as (e & He & Hp & Hc & Hs & Hf).
    destruct (decide (element held' = element held)) as [Heq|Hne].
    + rewrite Heq in *.
      destruct (updateHeldObjectPosition_at vp (elements st) (element held)
                  (GridGestures.palmCenter gesture) e He)
        as (left & top & Hpos).
      rewrite Hpos. eexists. split; [done|]. simpl. by repeat split.
    + rewrite updateHeldObjectPosition_other by done. by exists e.
Qed.

Lemma processGesture_domConsistent vp st h hand gesture recognizer :
  ownership st → domConsistent st →
  domConsistent (processGesture vp st h hand gesture recognizer).
Proof.
  intros Hown Hdom. unfold processGesture.
  set (palm := GridGestures.palmCenter gesture).
  set (c := getCellIndex (px palm) (py palm)).
  set (st1 := mkController _ _ _ _ recognizer).
  assert (Hown1 : ownership st1) by exact Hown.
  assert (Hdom1 : domConsistent st1) by exact Hdom.
  clearbody st1.
  set (st2 := if decide (GridGestures.type gesture = FIST) then _ else st1).
  assert (H2 : ownership st2 ∧ domConsistent st2).
  { subst st2. destruct (decide _); [|done].
    destruct (bool_decide_reflect (is_Some (heldObjects st1 !! h))) as [Hs|Hs];
      simpl; [done|].
    destruct (_ && _); [|done].
    apply eq_None_not_Some in Hs. split.
    - by apply grabObject_ownership.
    - by apply grabObject_domConsistent. }
  destruct H2 as [Hown2 Hdom2]. clearbody st2.
  destruct (decide _); [|done]. destruct (_ && _); [|done].
  destruct (dropObject st2 h c) as [st3|] eqn:E; simpl; [|done].
  by eapply dropObject_domConsistent.
Qed.

Lemma processHand_domConsistent vp st h hand :
  ownership st → domConsistent st → domConsistent (processHand vp st h hand).
Proof.
  intros Hown Hdom. unfold processHand.
  destruct (GridGestures.recognize _ _ _) as [gesture recognizer].
  by apply processGesture_domConsistent.
Qed.

Lemma processHandsFrom_domConsistent vp hands : ∀ st h,
  ownership st → domConsistent st →
  domConsistent (processHandsFrom vp st h hands).
Proof.
  induction hands as [|hand hands IH]; intros st h Hown Hdom; simpl; [done|].
  apply IH; [by apply processHand_ownership|by apply processHand_domConsistent].
Qed.

Lemma followHandsFrom_domConsistent vp hands : ∀ st h,
  ownership st → domConsistent st →
  domConsistent (followHandsFrom vp st h hands).
Proof.
  induction hands as [|hand hands IH]; intros st h Hown Hdom; simpl; [done|].
  apply IH; [by apply followHand_ownership|by apply followHand_domConsistent].
Qed.

Lemma animate_domConsistent vp st hands :
  ownership st → domConsistent st → domConsistent (animate vp st hands).
Proof.
  intros Hown Hdom. unfold animate. destruct hands as [hands|]; [|done].
  destruct hands as [|hand hands]; [done|].
  apply followHandsFrom_domConsistent.
  - by apply processHandsFrom_ownership.
  - by apply processHandsFrom_domConsistent.
Qed.

Lemma reachable_domConsistent st : reachable st → domConsistent st.
Proof.
  induction 1 as [|vp st h c palm hand Hr IH Hh|st h c st' Hr IH Hd
                  |vp st h hand Hr IH|vp st h hand Hr IH|vp st hands Hr IH];
    try pose proof (reachable_ownership _ Hr) as Hown.
  - apply start_domConsistent.
  - by apply grabObject_domConsistent.
  - by eapply dropObject_domConsistent.
  - by apply processHand_domConsistent.
  - by apply followHand_domConsistent.
  - by apply animate_domConsistent.
Qed.

(** C3 (amended).  The snapshot of a grab: in a reachable state,
    [grabObject] on an empty slot and a cell with objects records the
    direction of the palm as [grabAngle], as [grabNormalZ] the z-component
    of the cross product of (index MCP - wrist) and (pinky MCP - wrist) of
    the world landmarks, or nothing when the hand has none (or fewer than
    18), and as [grabWasBack] and [isBack] whether the object shows its
    back.

    While a slot of a reachable state holds an object,
    [updateHeldObjectFlip] leaves the snapshot alone and sets [isBack] of
    the slot and the class [flipped] of the held object to the displayed
    state, and the path is chosen by the snapshot.  With a palm-normal z
    in the snapshot and world landmarks (at least 18) in the frame, the
    hand counts as flipped exactly when [currentNormalZ * grabNormalZ < 0]
    and the displayed state is [handFlipped XOR grabWasBack]; with a
    palm-normal z in the snapshot and no usable world landmarks in the
    frame neither path runs and the displayed state is the front; in both
    cases the 2D landmarks are not consulted.  Without a palm-normal z in
    the snapshot the 2D angle decides, whether or not world landmarks are
    present now: the difference to the grab angle is wrapped into
    [[-PI, PI]], the hand counts as rotated exactly when its absolute value
    exceeds [PI / 6], and the displayed state is
    [handRotated XOR grabWasBack]. *)
Theorem flip_tracking (vp : Viewport) (st : HandGridController) (h : nat)
  (hand : Hand) :
  reachable st →
  (∀ c palm arr el,
     heldObjects st !! h = None → cellObjects st !! c = Some (arr ++ [el]) →
     ∃ e0,
       elements st !! el = Some e0 ∧
       heldObjects (grabObject vp st h c palm hand) !! h
       = Some (mkHeld el c (getPalmAngle (landmarks hand))
                      (worldLandmarks hand ≫= getPalmNormalZ)
                      (flipped e0) (flipped e0))) ∧
  (∀ held,
     heldObjects st !! h = Some held →
     let shown := flipState held hand in
     heldObjects (updateHeldObjectFlip st h hand) !! h
     = Some (mkHeld (element held) (fromCellIndex held) (grabAngle held)
                    (grabNormalZ held) (grabWasBack held) shown) ∧
     flipped <$> elements (updateHeldObjectFlip st h hand) !! element held
     = Some shown ∧
     (∀ wl gz,
        grabNormalZ held = Some gz →
        worldLandmarks hand = Some wl → 18 ≤ length wl →
        let currentNormalZ :=
          ((px (at_ wl 5) - px (at_ wl 0)) * (py (at_ wl 17) - py (at_ wl 0))
           - (py (at_ wl 5) - py (at_ wl 0))
             * (px (at_ wl 17) - px (at_ wl 0)))%Q in
        let handFlipped := Qltb (currentNormalZ * gz) 0 in
        getPalmNormalZ wl = Some currentNormalZ ∧
        (handFlipped = true ↔ (currentNormalZ * gz < 0)%Q) ∧
        shown = xorb handFlipped (grabWasBack held)) ∧
     (∀ gz,
        grabNormalZ held = Some gz →
        worldLandmarks hand ≫= getPalmNormalZ = None → shown = false) ∧
     (∀ gz hand',
        grabNormalZ held = Some gz →
        worldLandmarks hand' = worldLandmarks hand →
        flipState held hand' = shown) ∧
     (grabNormalZ held = None →
        let diff :=
          wrapAngle (getPalmAngle (landmarks hand) - grabAngle held) in
        let rotated :=
          handRotated (getPalmAngle (landmarks hand)) (grabAngle held) in
        (- PI <= diff <= PI)%R ∧
        (∃ k : Z, diff = (getPalmAngle (landmarks hand) - grabAngle held
                          + 2 * PI * IZR k)%R) ∧
        (rotated = true ↔ (PI / 6 < Rabs diff)%R) ∧
        shown = xorb rotated (grabWasBack held))).
Proof.
  intros Hr. destruct (reachable_domConsistent st Hr) as [Hrest Hheld].
  split.
  { intros c palm arr el Hh Hc.
    destruct (Hrest c (arr ++ [el]) el Hc) as (e0 & He0 & _).
    { apply elem_of_app. right. by apply list_elem_of_singleton. }
    exists e0. split; [exact He0|].
    by apply (grabObject_snapshot vp st h c palm hand arr el e0). }
  intros held Hh shown.
  destruct (Hheld h held Hh) as (e & He & _ & _ & _ & Hsync).
  split; [by apply updateHeldObjectFlip_entry|].
  split; [by apply (updateHeldObjectFlip_display st h hand held e)|].
  split; [|split; [|split]].
  - intros wl gz Hg Hw Hlen currentNormalZ handFlipped.
    pose proof (getPalmNormalZ_cross wl Hlen) as Hc. fold currentNormalZ in Hc.
    split; [exact Hc|]. split; [apply Qltb_lt|].
    by apply (flipState_normal held hand wl gz currentNormalZ).
  - intros gz Hg Hw. by apply (flipState_neither held hand gz).
  - intros gz hand' Hg Hw. by apply (flipState_ignores_landmarks _ _ _ gz).
  - intros Hg diff rotated.
    destruct (wrapAngle_spec (getPalmAngle (landmarks hand) - grabAngle held))
      as (Hrg & Hk & _).
    split; [exact Hrg|]. split; [exact Hk|]. split; [apply handRotated_iff|].
    by apply flipState_angle.
Qed.

Lemma getPalmAngle_right : getPalmAngle (palmTowards 0.1 0) = 0%R.
Proof.
  unfold getPalmAngle, palmTowards, at_. cbn [length replicate Nat.ltb Nat.leb].
  cbn [lookup_total list_lookup_total px py].
  assert (Hy : Q2R (0.5 + 0 - 0.5) = 0%R).
  { rewrite Q2R_minus, Q2R_plus. rewrite RMicromega.Q2R_0. ring. }
  assert (Hx : (0 < Q2R (0.5 + 0.1 - 0.5))%R).
  { rewrite Q2R_minus, Q2R_plus. unfold Q2R. simpl. lra. }
  rewrite Hy. unfold Math_atan2. destruct (Rlt_dec 0 _) as [_|Hn]; [|done].
  unfold Rdiv. rewrite Rmult_0_l. apply atan_0.
Qed.

Lemma getPalmAngle_down : getPalmAngle (palmTowards 0 0.1) = (PI / 2)%R.
Proof.
  unfold getPalmAngle, palmTowards, at_. cbn [length replicate Nat.ltb Nat.leb].
  cbn [lookup_total list_lookup_total px py].
  assert (Hx : Q2R (0.5 + 0 - 0.5) = 0%R).
  { rewrite Q2R_minus, Q2R_plus. rewrite RMicromega.Q2R_0. ring. }
  assert (Hy : (0 < Q2R (0.5 + 0.1 - 0.5))%R).
  { rewrite Q2R_minus, Q2R_plus. unfold Q2R. simpl. lra. }
  rewrite Hx. unfold Math_atan2.
  destruct (Rlt_dec 0 0) as [H|_]; [lra|].
  destruct (Rlt_dec 0 _) as [_|Hn]; [done|done].
Qed.

Lemma handRotated_quarter_turn : handRotated (PI / 2) 0 = true.
Proof.
  pose proof PI_RGT_0 as Hpi. apply handRotated_iff.
  destruct (wrapAngle_spec (PI / 2 - 0)) as (_ & _ & ->); [|split; lra].
  rewrite Rabs_right; lra.
Qed.

(** C3, the claim as stated fails.  Hand 0 grabbed object 0 in a frame
    without world landmarks, the palm pointing right.  In a later frame the
    world landmarks are present, and they are the same for the two hands
    [same] and [turned]; yet the displayed state is front for the palm that
    still points right and back for the palm turned by a quarter: the 2D
    angle decides although world landmarks are present. *)
Lemma flip_follows_angle_despite_world_landmarks :
  let grabHand := mkHand (palmTowards 0.1 0) None "Right" 1 in
  let st := grabObject viewport start 0 0 (mkLandmark 0.9 0.1 0) grabHand in
  let same := mkHand (palmTowards 0.1 0) (Some worldPalm) "Right" 1 in
  let turned := mkHand (palmTowards 0 0.1) (Some worldPalm) "Right" 1 in
  heldObjects st !! 0%nat = Some heldWithoutNormal ∧
  worldLandmarks same = worldLandmarks turned ∧
  worldLandmarks turned ≫= getPalmNormalZ = Some 1%Q ∧
  isBack <$> heldObjects (updateHeldObjectFlip st 0 same) !! 0%nat
    = Some false ∧
  isBack <$> heldObjects (updateHeldObjectFlip st 0 turned) !! 0%nat
    = Some true.
Proof.
  cbv zeta.
  assert (Hheld :
    heldObjects (grabObject viewport start 0 0 (mkLandmark 0.9 0.1 0)
                   (mkHand (palmTowards 0.1 0) None "Right" 1)) !! 0%nat
    = Some heldWithoutNormal) by reflexivity.
  split; [exact Hheld|]. split; [reflexivity|]. split; [reflexivity|].
  rewrite !(updateHeldObjectFlip_isBack _ _ _ _ Hheld).
  rewrite !flipState_angle by reflexivity.
  cbn [landmarks grabAngle grabWasBack heldWithoutNormal].
  rewrite getPalmAngle_right, getPalmAngle_down.
  rewrite handRotated_same, handRotated_quarter_turn. done.
Qed.

(** C3 at a concrete input: hand 0 grabs the object of cell 0 with world
    landmarks, and turns the palm away; the object shows its back. *)
Lemma flip_tracking_witness :
  let hand := mkHand (palmTowards 0.1 0) (Some worldPalm) "Right" 1 in
  let away := mkHand (palmTowards 0.1 0) (Some worldBack) "Right" 1 in
  let st := grabObject viewport start 0 0 (mkLandmark 0.9 0.1 0) hand in
  reachable st ∧
  heldObjects st !! 0%nat
  = Some (mkHeld 0 0 (getPalmAngle (palmTowards 0.1 0)) (Some 1%Q)
                 false false) ∧
  flipped <$> elements (updateHeldObjectFlip st 0 away) !! 0%nat = Some true.
Proof.
  cbv zeta.
  assert (Hr : reachable (grabObject viewport start 0 0 (mkLandmark 0.9 0.1 0)
                 (mkHand (palmTowards 0.1 0) (Some worldPalm) "Right" 1))).
  { apply reach_grab; [apply reach_start|reflexivity]. }
  split; [exact Hr|]. split; [reflexivity|].
  destruct (flip_tracking viewport _ 0
              (mkHand (palmTowards 0.1 0) (Some worldBack) "Right" 1) Hr)
    as [_ Hhold].
  destruct (Hhold _ eq_refl) as (_ & Hshow & _).
  cbn [element] in Hshow. rewrite Hshow. reflexivity.
Defined.

(** ** The swarm *)

Section GatherLoop.

Variables (center : Vector3) (radius : R) (n : nat).

Lemma gatherParticle_length (xs : list R) (i : nat) :
  length (gatherParticle center radius n xs i) = length xs.
Proof. unfold gatherParticle. by rewrite !length_insert. Qed.

Lemma triple_insert_lookup (xs : list R) (a : nat) (x y z : R) :
  (a + 2 < length xs)%nat →
  let xs' := <[(a + 2)%nat := z]> (<[(a + 1)%nat := y]> (<[a := x]> xs)) in
  xs' !! a = Some x ∧ xs' !! (a + 1)%nat = Some y ∧ xs' !! (a + 2)%nat = Some z.
Proof.
  intros Hlen xs'. subst xs'. split; [|split].
  - rewrite (list_lookup_insert_ne _ (a + 2) a) by lia.
    rewrite (list_lookup_insert_ne _ (a + 1) a) by lia.
    apply list_lookup_insert_eq. lia.
  - rewrite (list_lookup_insert_ne _ (a + 2) (a + 1)) by lia.
    apply list_lookup_insert_eq. rewrite length_insert. lia.
  - apply list_lookup_insert_eq. rewrite !length_insert. lia.
Qed.

(** A round of the loop writes the point of its particle ... *)
Lemma gatherParticle_at (xs : list R) (i : nat) :
  (i * 3 + 2 < length xs)%nat →
  particleAt (gatherParticle center radius n xs i) i
    = Some (spherePoint center radius n i).
Proof.
  intros Hlen. unfold particleAt, gatherParticle, spherePoint. cbv zeta.
  edestruct (triple_insert_lookup xs (i * 3)) as (-> & -> & ->); [exact Hlen|].
  reflexivity.
Qed.

(** ... and leaves the other particles alone. *)
Lemma gatherParticle_other (xs : list R) (i j : nat) :
  i ≠ j →
  particleAt (gatherParticle center radius n xs i) j = particleAt xs j.
Proof.
  intros Hne. unfold particleAt, gatherParticle.
  rewrite !list_lookup_insert_ne by lia. reflexivity.
Qed.

Lemma gather_loop_length (xs : list R) (m : nat) : ∀ s,
  length (fold_left (gatherParticle center radius n) (seq s m) xs)
    = length xs.
Proof.
  revert xs. induction m as [|m IH]; intros xs s; simpl; [done|].
  by rewrite IH, gatherParticle_length.
Qed.

(** After the first [m] rounds the first [m] particles have their
    targets. *)
Lemma gather_loop (xs : list R) : ∀ m i,
  length xs = (3 * n)%nat → (m ≤ n)%nat → (i < m)%nat →
  particleAt (fold_left (gatherParticle center radius n) (seq 0 m) xs) i
    = Some (spherePoint center radius n i).
Proof.
  induction m as [|m IH]; intros i Hlen Hm Hi; [lia|].
  rewrite seq_S, fold_left_app. simpl.
  destruct (decide (i = m)) as [->|Hne].
  - apply gatherParticle_at. rewrite gather_loop_length. lia.
  - rewrite gatherParticle_other by done. apply IH; [done|lia|lia].
Qed.

End GatherLoop.

Lemma spherePoint_on_sphere center r n i :
  squaredDistance (spherePoint center r n i) center = (r ^ 2)%R.
Proof.
  unfold squaredDistance, spherePoint. simpl.
  pose proof (sin2_cos2 (phi n i)) as Hp.
  pose proof (sin2_cos2 (theta i)) as Ht.
  unfold Rsqr in *.
  set (sp := sin (phi n i)) in *. set (cp := cos (phi n i)) in *.
  set (st := sin (theta i)) in *. set (ct := cos (theta i)) in *.
  transitivity (r ^ 2 * ((sp * sp) * (st * st + ct * ct) + cp * cp))%R;
    [ring|].
  rewrite Ht, Rmult_1_r, Hp. ring.
Qed.

(** C9.  After [gather(center)] on a field of [N] particles the state is
    [gathering], the target centre is [center], and the target of every
    particle [i < N] is [center] plus the spherical point with
    [phi = acos(1 - 2 * (i + 0.5) / N)] and [theta = PI * (1 + sqrt 5) * i]
    scaled by the sphere radius: it lies on the sphere of that radius
    around [center]. *)
Theorem gather_targets_on_sphere (self : MagicParticleField)
  (center : Vector3) (i : nat) :
  length (targetPositions self) = (3 * particleCount self)%nat →
  (i < particleCount self)%nat →
  let N := particleCount self in
  let radius := sphereRadius self in
  let gathered := gather self center in
  let phi := acos (1 - 2 * (INR i + 0.5) / INR N) in
  let theta := (PI * (1 + sqrt 5) * INR i)%R in
  getState gathered = gathering ∧
  targetCenter gathered = center ∧
  ∃ target,
    particleAt (targetPositions gathered) i = Some target ∧
    vx target = (vx center + radius * sin phi * cos theta)%R ∧
    vy target = (vy center + radius * sin phi * sin theta)%R ∧
    vz target = (vz center + radius * cos phi)%R ∧
    squaredDistance target center = (radius ^ 2)%R ∧
    ((0 <= radius)%R →
     sqrt (squaredDistance target center) = radius).
Proof.
  intros Hlen Hi N radius gathered phi0 theta0.
  split; [reflexivity|]. split; [reflexivity|].
  exists (spherePoint center radius N i). split.
  - subst gathered. unfold gather. simpl. by apply gather_loop.
  - split; [reflexivity|]. split; [reflexivity|]. split; [reflexivity|].
    split; [apply spherePoint_on_sphere|].
    intros Hr. rewrite spherePoint_on_sphere.
    replace (radius ^ 2)%R with (Rsqr radius) by (unfold Rsqr; ring).
    by apply sqrt_Rsqr.
Qed.

Lemma scatter_length (range : R) (random : nat → R) (n : nat) : ∀ s,
  length (seq s n ≫= scatterPoint range random) = (3 * n)%nat.
Proof.
  induction n as [|n IH]; intros s; [done|].
  change (seq s (S n)) with (s :: seq (S s) n).
  rewrite bind_cons, length_app, IH. simpl. lia.
Qed.

Lemma new_field_length (random : nat → R) :
  length (targetPositions (new_MagicParticleField random))
    = (3 * particleCount (new_MagicParticleField random))%nat.
Proof. exact (scatter_length 8 random 800 0). Qed.

(** C9 at a concrete input: the field as constructed, particle 7. *)
Lemma gather_targets_on_sphere_witness :
  let self := new_MagicParticleField (λ _, 0.5%R) in
  let center := mkVector3 0 0 0 in
  length (targetPositions self) = (3 * particleCount self)%nat ∧
  (7 < particleCount self)%nat ∧
  getState (gather self center) = gathering.
Proof.
  cbv zeta.
  assert (Hi : (7 < particleCount (new_MagicParticleField (λ _, 0.5%R)))%nat).
  { change (7 < 800)%nat. lia. }
  split; [apply new_field_length|]. split; [exact Hi|].
  exact (proj1 (gather_targets_on_sphere _ (mkVector3 0 0 0) 7
                  (new_field_length _) Hi)).
Defined.

(** * Further properties of the sources *)

(** ** The recogniser: what it never emits, and how fast it follows *)

Lemma occurrences_elem_of (t : GestureType) buf :
  0 < occurrences t buf → t ∈ buf.
Proof.
  unfold occurrences. induction buf as [|u buf IH]; simpl; [lia|].
  rewrite filter_cons. destruct (decide (u = t)) as [->|Hne].
  - intros _. apply elem_of_cons. by left.
  - intros H. apply elem_of_cons. right. by apply IH.
Qed.

(** The vote returns the raw type or a type that fills two places of the
    buffer. *)
Lemma vote_raw_or_twice buf raw :
  vote buf raw = raw ∨ 2 ≤ occurrences (vote buf raw) buf.
Proof.
  unfold vote.
  destruct (tally_spec buf [] (NoDup_nil_2)) as [Hnd Hget].
  pose proof (pick_stable_spec (fold_left count_incr buf []) 0 raw Hnd) as Hp.
  destruct (pick_stable _ _) as [m s]. destruct Hp as (_ & _ & Hcase).
  change majority with 2%nat.
  destruct (2 <=? m)%nat eqn:E; [|by left].
  apply Nat.leb_le in E. right.
  destruct Hcase as [Heq|[_ Hs]]; [inversion Heq; lia|].
  rewrite Hget in Hs. simpl in Hs. lia.
Qed.

Lemma push_history_elem_of history t u :
  u ∈ push_history history t → u ∈ history ∨ u = t.
Proof.
  unfold push_history. intros Hin.
  assert (Hall : u ∈ history ++ [t]).
  { destruct (historySize <? length (history ++ [t]))%nat; [|done].
    destruct (history ++ [t]) as [|a l]; [done|].
    simpl in Hin. apply elem_of_cons. by right. }
  apply elem_of_app in Hall as [?|Hl]; [by left|].
  right. by apply list_elem_of_singleton in Hl.
Qed.

Lemma push_history_last history t :
  t ∈ push_history history t.
Proof.
  unfold push_history.
  destruct (historySize <? length (history ++ [t]))%nat eqn:E.
  - apply Nat.ltb_lt in E. rewrite length_app in E. simpl in E.
    unfold historySize in E.
    destruct history as [|a l]; [simpl in E; lia|]. simpl.
    apply elem_of_app. right. apply list_elem_of_singleton. done.
  - apply elem_of_app. right. by apply list_elem_of_singleton.
Qed.

(** What [applyHysteresis] emits stands in the buffer it leaves. *)
Lemma applyHysteresis_buffered (self : GestureRecognizer) gesture h :
  let out := applyHysteresis self gesture h in
  ∃ buf, gestureHistory out.2 !! h = Some buf ∧ gtype out.1 ∈ buf ∧
         ∀ u, u ∈ buf →
              u ∈ default [] (gestureHistory self !! h) ∨ u = gtype gesture.
Proof.
  intros out. subst out. rewrite applyHysteresis_eq. simpl.
  rewrite lookup_insert_eq. eexists. split; [done|]. split.
  - destruct (vote_raw_or_twice
                (push_history (default [] (gestureHistory self !! h))
                              (gtype gesture)) (gtype gesture)) as [->|H2].
    + apply push_history_last.
    + apply occurrences_elem_of. lia.
  - intros u. apply push_history_elem_of.
Qed.

Lemma applyHysteresis_neverSeen (self : GestureRecognizer) gesture h t :
  neverSeen t self → gtype gesture ≠ t →
  neverSeen t (applyHysteresis self gesture h).2 ∧
  gtype (applyHysteresis self gesture h).1 ≠ t.
Proof.
  intros Hns Hne.
  destruct (applyHysteresis_buffered self gesture h)
    as (buf & Hbuf & Hin & Hsub).
  assert (Hfree : t ∉ buf).
  { intros Ht. destruct (Hsub t Ht) as [Hold|Heq]; [|done].
    destruct (gestureHistory self !! h) as [old|] eqn:E; simpl in Hold.
    - by apply (Hns h old).
    - by apply elem_of_nil in Hold. }
  split.
  - intros h' buf' Hb'. destruct (decide (h' = h)) as [->|Hh].
    + rewrite Hbuf in Hb'. by inversion Hb'; subst.
    + rewrite applyHysteresis_eq in Hb'. simpl in Hb'.
      rewrite lookup_insert_ne in Hb' by done. by apply (Hns h' buf').
  - intros Heq. apply Hfree. by rewrite <- Heq.
Qed.

(** A shape with exactly one extended finger is classified as a fist
    before the shapes are tried. *)
Lemma rawGesture_live (self : GestureRecognizer) lms h :
  gtype (rawGesture self lms h) ≠ THUMBS_UP ∧
  gtype (rawGesture self lms h) ≠ POINTING.
Proof.
  unfold rawGesture, getFingerStates.
  generalize (getPinchDistance lms).
  generalize (isThumbExtended lms) (isFingerExtended lms INDEX)
    (isFingerExtended lms MIDDLE) (isFingerExtended lms RING)
    (isFingerExtended lms PINKY).
  intros t i m r p d. unfold classifyGesture.
  destruct (match prevGestures self !! h with
            | Some g => bool_decide (gtype g = PINCH)
            | None => false
            end);
    destruct t, i, m, r, p; cbn;
    repeat match goal with
           | |- context [Rltb ?a ?b] => destruct (Rltb a b); cbn
           end; split; discriminate.
Qed.

Lemma gridRaw_live fs h t :
  t = THUMBS_UP ∨ t = POINTING →
  gtype (GridGestures.classifyGesture fs h) ≠ t.
Proof.
  unfold GridGestures.classifyGesture.
  intros [-> | ->]; repeat case_match; discriminate.
Qed.

Lemma session_neverSeen self t :
  t = THUMBS_UP ∨ t = POINTING → session self → neverSeen t self.
Proof.
  intros Ht. induction 1 as [|self lms h _ IH|self lms h _ IH|self _ IH].
  - intros h buf Hb. cbn in Hb. by rewrite lookup_empty in Hb.
  - unfold recognize. destruct (length lms <? 21)%nat; [done|].
    destruct (applyHysteresis _ _ _) as [g s] eqn:E. simpl.
    change s with (g, s).2. rewrite <- E.
    apply applyHysteresis_neverSeen; [done|].
    destruct (rawGesture_live self lms h) as [H1 H2].
    unfold rawGesture in H1, H2. by destruct Ht as [-> | ->].
  - unfold GridGestures.recognize. destruct (length lms <? 21)%nat; [done|].
    destruct (applyHysteresis _ _ _) as [g s] eqn:E. simpl.
    change s with (g, s).2. rewrite <- E.
    apply applyHysteresis_neverSeen; [done|]. by apply gridRaw_live.
  - intros h buf Hb. cbn in Hb. by rewrite lookup_empty in Hb.
Qed.

Lemma recognize_type_live self lms h t :
  t = THUMBS_UP ∨ t = POINTING → session self →
  gtype (classified (recognize self lms h).1) ≠ t.
Proof.
  intros Ht Hs. unfold recognize.
  destruct (length lms <? 21)%nat.
  { simpl. by destruct Ht as [-> | ->]. }
  destruct (applyHysteresis _ _ _) as [g s] eqn:E. simpl.
  change g with (g, s).1. rewrite <- E.
  apply applyHysteresis_neverSeen; [by apply session_neverSeen|].
  destruct (rawGesture_live self lms h) as [H1 H2].
  unfold rawGesture in H1, H2. by destruct Ht as [-> | ->].
Qed.

(** X1.  The shapes THUMBS_UP and POINTING are dead: each needs exactly
    one extended finger, and [classifyGesture] returns FIST for at most one
    extended finger before it tries the shapes.  So for every landmark set
    the raw gesture is neither, and in every state of a session (a fresh
    recogniser, then any calls of [recognize] and [reset]) the gesture that
    [recognize] emits is neither. *)
Theorem thumbs_up_and_pointing_never_emitted (self : GestureRecognizer)
  (lms : list Landmark) (h : nat) :
  session self →
  let raw := gtype (rawGesture self lms h) in
  let out := gtype (classified (recognize self lms h).1) in
  raw ≠ THUMBS_UP ∧ raw ≠ POINTING ∧ out ≠ THUMBS_UP ∧ out ≠ POINTING.
Proof.
  intros Hs raw out.
  destruct (rawGesture_live self lms h) as [H1 H2].
  split; [done|]. split; [done|].
  split; apply recognize_type_live; auto.
Qed.

(** X1 at a fresh recogniser and a clenched hand. *)
Lemma thumbs_up_and_pointing_never_emitted_witness :
  session new_GestureRecognizer ∧
  gtype (classified (recognize new_GestureRecognizer (handAt 0 0) 0).1)
    ≠ THUMBS_UP.
Proof.
  split; [constructor|].
  exact (proj1 (proj2 (proj2
           (thumbs_up_and_pointing_never_emitted
              new_GestureRecognizer (handAt 0 0) 0 session_new)))).
Defined.

Lemma vote_majority buf raw t :
  length buf ≤ historySize → 2 ≤ occurrences t buf → vote buf raw = t.
Proof.
  intros Hlen Ht. unfold historySize in Hlen.
  destruct (vote_spec buf raw) as (_ & Hmaj & _).
  destruct (Hmaj (ex_intro _ t Ht)) as [Hv _].
  destruct (decide (vote buf raw = t)) as [|Hne]; [done|].
  pose proof (occurrences_two_distinct _ _ buf Hne). lia.
Qed.

Lemma occurrences_cons (t u : GestureType) buf :
  occurrences t (u :: buf)
  = ((if decide (u = t) then 1 else 0) + occurrences t buf)%nat.
Proof.
  unfold occurrences. rewrite filter_cons. by destruct (decide (u = t)).
Qed.

Lemma recognize_well_formed (self : GestureRecognizer) lms h :
  21 ≤ length lms →
  gtype (classified (recognize self lms h).1)
  = vote (push_history (default [] (gestureHistory self !! h))
                       (gtype (rawGesture self lms h)))
         (gtype (rawGesture self lms h)).
Proof.
  intros Hlen. unfold recognize, rawGesture.
  replace (length lms <? 21)%nat with false
    by (symmetry; apply Nat.ltb_ge; lia).
  rewrite applyHysteresis_eq. reflexivity.
Qed.

Lemma recognize_history (self : GestureRecognizer) lms h :
  21 ≤ length lms →
  gestureHistory (recognize self lms h).2 !! h
  = Some (push_history (default [] (gestureHistory self !! h))
                       (gtype (rawGesture self lms h))).
Proof.
  intros Hlen. unfold recognize, rawGesture.
  replace (length lms <? 21)%nat with false
    by (symmetry; apply Nat.ltb_ge; lia).
  rewrite applyHysteresis_eq. cbn [snd gestureHistory].
  by rewrite lookup_insert_eq.
Qed.

(** X2.  The hysteresis delays a change of gesture by at most one frame:
    when the raw type of this frame equals the raw type of the frame
    before (the last entry of the slot's buffer), [recognize] emits it;
    and while the slot has seen at most one frame, [recognize] emits the
    raw type. *)
Theorem repeated_raw_type_is_emitted (self : GestureRecognizer)
  (lms : list Landmark) (h : nat) :
  21 ≤ length lms →
  let history := default [] (gestureHistory self !! h) in
  let raw := gtype (rawGesture self lms h) in
  length history ≤ historySize →
  length history ≤ 1 ∨ last history = Some raw →
  gtype (classified (recognize self lms h).1) = raw.
Proof.
  intros Hlms history raw Hlen Hcase.
  rewrite recognize_well_formed by done. fold history raw.
  unfold historySize in Hlen.
  destruct Hcase as [Hshort|Hlast].
  - destruct history as [|a [|b l]]; simpl in Hshort; try lia.
    + unfold push_history. simpl. apply vote_spec. intros t.
      rewrite occurrences_cons. unfold occurrences. simpl.
      destruct (decide _); lia.
    + unfold push_history. simpl.
      destruct (decide (a = raw)) as [->|Hne].
      * apply vote_majority; [simpl; unfold historySize; lia|].
        rewrite !occurrences_cons, !decide_True by done. lia.
      * apply vote_spec. intros t. rewrite !occurrences_cons.
        unfold occurrences. simpl.
        destruct (decide (a = t)), (decide (raw = t)); try lia. congruence.
  - apply vote_majority.
    { by apply push_history_last_three. }
    clearbody raw history.
    destruct history as [|a [|b [|c [|d l]]]]; simpl in Hlen, Hlast;
      try lia; try discriminate; inversion Hlast; subst;
      unfold push_history; simpl; rewrite !occurrences_cons;
      repeat destruct (decide _); try lia; congruence.
Qed.

(** X2 on the second frame of a clenched hand. *)
Lemma repeated_raw_type_is_emitted_witness :
  21 ≤ length (handAt 0 0) ∧
  gtype (classified
           (recognize (recognize new_GestureRecognizer (handAt 0 0) 0).2
                      (handAt 0 0) 0).1)
  = gtype (rawGesture (recognize new_GestureRecognizer (handAt 0 0) 0).2
                      (handAt 0 0) 0).
Proof.
  split; [vm_compute; lia|].
  apply (repeated_raw_type_is_emitted
           (recognize new_GestureRecognizer (handAt 0 0) 0).2 (handAt 0 0) 0).
  - vm_compute; lia.
  - rewrite recognize_history by (vm_compute; lia). vm_compute; lia.
  - left. rewrite recognize_history by (vm_compute; lia). vm_compute; lia.
Defined.

(** ** The palm centre of the grid variant *)


(** ** The distance between two hands *)



(** ** The tracker: bookkeeping of a detection *)

Lemma smoothLandmarks_spec (self : HandTracker) lms h :
  let out := smoothLandmarks self lms h in
  prevLandmarks out.2 = <[h := out.1]> (prevLandmarks self) ∧
  length out.1 = length lms ∧
  lastVideoTime out.2 = lastVideoTime self ∧
  lastResult out.2 = lastResult self.
Proof.
  unfold smoothLandmarks.
  destruct (prevLandmarks self !! h); simpl; repeat split; try done.
  apply smooth_against_length.
Qed.

Lemma mapHands_spec (result : DetectorResult) : ∀ rest self index,
  let out := mapHands self result index rest in
  length out.1 = length rest ∧
  lastVideoTime out.2 = lastVideoTime self ∧
  lastResult out.2 = lastResult self ∧
  (∀ i hand, out.1 !! i = Some hand →
     prevLandmarks out.2 !! (index + i) = Some (landmarks hand) ∧
     worldLandmarks hand
     = (ws ← r_worldLandmarks result; ws !! (index + i)) ∧
     ∃ raw, rest !! i = Some raw ∧ length (landmarks hand) = length raw) ∧
  (∀ j, j < index ∨ index + length rest ≤ j →
     prevLandmarks out.2 !! j = prevLandmarks self !! j).
Proof.
  induction rest as [|lms rest IH]; intros self index; simpl.
  { repeat split; try done. }
  pose proof (smoothLandmarks_spec self lms index) as Hs. cbv zeta in Hs.
  destruct (smoothLandmarks self lms index) as [sm self1].
  simpl in Hs. destruct Hs as (Hprev & Hlen & Ht & Hr).
  specialize (IH self1 (S index)). cbv zeta in IH.
  destruct (mapHands self1 result (S index) rest) as [hands self2].
  simpl in IH. destruct IH as (IHlen & IHt & IHr & IHhands & IHrest).
  simpl. split; [lia|]. split; [congruence|]. split; [congruence|]. split.
  - intros [|i] hand Hi; simpl in Hi.
    + inversion Hi; subst hand. simpl. rewrite Nat.add_0_r.
      split; [|split; [done|by exists lms]].
      rewrite IHrest by lia. rewrite Hprev. by rewrite lookup_insert_eq.
    + replace (index + S i) with (S index + i) by lia. by apply IHhands.
  - intros j Hj. rewrite IHrest by lia. rewrite Hprev.
    apply lookup_insert_ne. lia.
Qed.

(** X4.  After a detection that found hands, [detectHands] returns one
    entry per detected hand and caches the same list; the smoothing history
    of each reported slot is exactly the landmark set returned for that
    slot, of the length of the raw set, and the history of the slots beyond
    the reported ones is left as it was. *)
Theorem detection_bookkeeping (self : HandTracker) (currentTime : Q)
  (result : DetectorResult) :
  Qeq_bool currentTime (lastVideoTime self) = false →
  r_landmarks result ≠ [] →
  let out := detectHands self true currentTime (Some result) in
  ∃ hands,
    out.1 = Some hands ∧ lastResult out.2 = Some hands ∧
    lastVideoTime out.2 = currentTime ∧
    length hands = length (r_landmarks result) ∧
    (∀ i hand, hands !! i = Some hand →
       prevLandmarks out.2 !! i = Some (landmarks hand) ∧
       ∃ raw, r_landmarks result !! i = Some raw ∧
              length (landmarks hand) = length raw) ∧
    (∀ j, length (r_landmarks result) ≤ j →
       prevLandmarks out.2 !! j = prevLandmarks self !! j).
Proof.
  intros Ht Hne out. subst out. unfold detectHands. simpl. rewrite Ht.
  destruct (r_landmarks result) as [|l0 ls] eqn:E; [done|].
  rewrite <- E.
  pose proof (mapHands_spec result (r_landmarks result)
                (mkTracker currentTime (lastResult self) (prevLandmarks self))
                0) as Hm.
  cbv zeta in Hm. destruct (mapHands _ result 0 (r_landmarks result))
    as [hands self'].
  simpl in Hm. destruct Hm as (Hlen & Htime & _ & Hhands & Hrest).
  exists hands. simpl. repeat split; try done.
  - by apply (Hhands i hand).
  - by apply (Hhands i hand).
  - intros j Hj. apply Hrest. lia.
Qed.

(** X4 for a first frame with one hand. *)
Lemma detection_bookkeeping_witness :
  Qeq_bool 0 (lastVideoTime new_HandTracker) = false ∧
  ∃ hands,
    (detectHands new_HandTracker true 0
       (Some (mkResult [handAt 0.5 0.5] None None))).1 = Some hands ∧
    length hands = 1.
Proof.
  split; [reflexivity|].
  destruct (detection_bookkeeping new_HandTracker 0
              (mkResult [handAt 0.5 0.5] None None))
    as (hands & H1 & _ & _ & H4 & _); [reflexivity|done|].
  exists hands. split; [exact H1|exact H4].
Defined.

(** X5.  When the detector throws on a new video frame, [detectHands]
    returns [null] for that call but has already recorded the frame's time
    and keeps the cached result: a second call on the same video frame
    returns what the last successful detection returned (possibly hands of
    an earlier frame), and the smoothing history is untouched. *)
Theorem detection_error_then_stale_cache (self : HandTracker)
  (currentTime : Q) (again : option DetectorResult) :
  Qeq_bool currentTime (lastVideoTime self) = false →
  let failed := detectHands self true currentTime None in
  failed.1 = None ∧
  prevLandmarks failed.2 = prevLandmarks self ∧
  detectHands failed.2 true currentTime again = (lastResult self, failed.2).
Proof.
  intros Ht failed. subst failed. unfold detectHands. simpl. rewrite Ht.
  simpl. assert (Hrefl : Qeq_bool currentTime currentTime = true).
  { apply Qeq_bool_iff. reflexivity. }
  by rewrite Hrefl.
Qed.

(** X5 after one good frame: the failing frame is followed by the hand of
    the frame before. *)
Lemma detection_error_then_stale_cache_witness :
  Qeq_bool 1 (lastVideoTime
                (detectHands new_HandTracker true 0
                             (detected [handAt 0.5 0.5])).2) = false ∧
  (detectHands
     (detectHands (detectHands new_HandTracker true 0
                               (detected [handAt 0.5 0.5])).2
                  true 1 None).2 true 1 None).1
  = Some [mkHand (handAt 0.5 0.5) None "Unknown" 0].
Proof.
  split; [reflexivity|].
  rewrite (proj2 (proj2 (detection_error_then_stale_cache
             (detectHands new_HandTracker true 0
                          (detected [handAt 0.5 0.5])).2 1 None eq_refl))).
  reflexivity.
Defined.

(** ** The tracker: a hand held still *)

Lemma blend_error (p r : Landmark) : errorScaled (1 # 5) (blend p r) r p r.
Proof.
  unfold errorScaled, blend, smoothingFactor. cbn [px py pz].
  repeat split; ring.
Qed.

Lemma blend_between (p r : Landmark) :
  between (px p) (px r) (px (blend p r)) ∧
  between (py p) (py r) (py (blend p r)) ∧
  between (pz p) (pz r) (pz (blend p r)).
Proof.
  unfold between, blend, smoothingFactor. cbn [px py pz].
  repeat split.
  - destruct (Qlt_le_dec (px r) (px p)); [right|left]; split; qlra.
  - destruct (Qlt_le_dec (py r) (py p)); [right|left]; split; qlra.
  - destruct (Qlt_le_dec (pz r) (pz p)); [right|left]; split; qlra.
Qed.

Lemma fifths_succ (n : nat) : (fifths (S n) == (1 # 5) * fifths n)%Q.
Proof.
  unfold fifths. rewrite Nat2Z.inj_succ, Z.pow_succ_r by lia.
  rewrite inject_Z_mult.
  assert (Hpos : (0 < 5 ^ Z.of_nat n)%Z) by (apply Z.pow_pos_nonneg; lia).
  assert (Hne : ¬ (inject_Z (5 ^ Z.of_nat n) == 0)%Q).
  { intros H0. unfold Qeq in H0. simpl in H0. lia. }
  change (inject_Z 5) with 5%Q. field. done.
Qed.

Lemma observe_error (lms : list Landmark) (h : nat) : ∀ n self prev,
  prevLandmarks self !! h = Some prev →
  ∃ now, prevLandmarks (observe n self lms h) !! h = Some now ∧
    ∀ i p r, prev !! i = Some p → lms !! i = Some r →
      ∃ s, now !! i = Some s ∧
           errorScaled (fifths n) s r p r.
Proof.
  induction n as [|n IH]; intros self prev Hprev.
  - exists prev. split; [done|]. intros i p r Hp Hr. exists p.
    split; [done|]. unfold errorScaled.
    change (fifths 0) with (1 / 1)%Q. repeat split; field.
  - simpl. pose proof (smoothLandmarks_spec self lms h) as Hs.
    cbv zeta in Hs. destruct Hs as (Hnew & _).
    assert (Hout : (smoothLandmarks self lms h).1 = smooth_against prev lms).
    { unfold smoothLandmarks. by rewrite Hprev. }
    rewrite Hout in Hnew.
    destruct (IH (smoothLandmarks self lms h).2 (smooth_against prev lms))
      as (now & Hnow & Herr).
    { rewrite Hnew. apply lookup_insert_eq. }
    exists now. split; [done|]. intros i p r Hp Hr.
    destruct (Herr i (blend p r) r) as (s & Hs & H1 & H2 & H3); [|done|].
    { rewrite (smooth_against_lookup _ _ _ _ Hr), Hp. done. }
    exists s. split; [done|].
    destruct (blend_error p r) as (B1 & B2 & B3).
    unfold errorScaled. rewrite fifths_succ.
    repeat split.
    + rewrite H1, B1. ring.
    + rewrite H2, B2. ring.
    + rewrite H3, B3. ring.
Qed.

(** X6.  Smoothing follows a hand that is held still without overshoot
    and geometrically: one call puts each coordinate between the previous
    and the raw value, at a fifth of the previous distance from the raw
    value; after [n] calls with the same raw landmarks the stored landmark
    differs from the raw one by [(1/5)^n] times the initial difference
    ([fifths n]). *)
Theorem smoothing_converges (self : HandTracker) (lms prev : list Landmark)
  (h n : nat) :
  prevLandmarks self !! h = Some prev →
  (∀ i p r, prev !! i = Some p → lms !! i = Some r →
     ∃ s, (smoothLandmarks self lms h).1 !! i = Some s ∧
          between (px p) (px r) (px s) ∧ between (py p) (py r) (py s) ∧
          between (pz p) (pz r) (pz s) ∧ errorScaled (1 # 5) s r p r) ∧
  ∃ now, prevLandmarks (observe n self lms h) !! h = Some now ∧
    ∀ i p r, prev !! i = Some p → lms !! i = Some r →
      ∃ s, now !! i = Some s ∧ errorScaled (fifths n) s r p r.
Proof.
  intros Hprev. split; [|by apply observe_error].
  intros i p r Hp Hr. exists (blend p r).
  unfold smoothLandmarks. rewrite Hprev. simpl.
  rewrite (smooth_against_lookup _ _ _ _ Hr), Hp.
  split; [done|]. destruct (blend_between p r) as (?&?&?).
  repeat split; try done; apply blend_error.
Qed.

(** X6 for a slot whose history is a hand at the origin, and a raw hand at
    [(1, 1)] seen twice. *)
Lemma smoothing_converges_witness :
  prevLandmarks (mkTracker 0 None {[0%nat := handAt 0 0]}) !! 0%nat
  = Some (handAt 0 0) ∧
  ∃ now,
    prevLandmarks (observe 2 (mkTracker 0 None {[0%nat := handAt 0 0]})
                           (handAt 1 1) 0) !! 0%nat = Some now ∧
    ∀ i p r, handAt 0 0 !! i = Some p → handAt 1 1 !! i = Some r →
      ∃ s, now !! i = Some s ∧ errorScaled (fifths 2) s r p r.
Proof.
  split; [reflexivity|].
  exact (proj2 (smoothing_converges
                  (mkTracker 0 None {[0%nat := handAt 0 0]})
                  (handAt 1 1) (handAt 0 0) 0 2 eq_refl)).
Defined.

(** ** The grid: the document follows the two maps *)

(** X7.  In every reachable state the document shows what the two maps
    record.  An object listed for a cell is a child of that grid cell,
    without the class [held] and without [left] / [top]; an object held by
    a hand slot is a child of the drag layer, has the class [held], has
    [left] and [top] set, and its inner element has the class [flipped]
    exactly when the slot's [isBack] is true. *)
Theorem document_follows_the_maps (st : HandGridController) :
  reachable st →
  (∀ c arr o, cellObjects st !! c = Some arr → o ∈ arr →
     ∃ e, elements st !! o = Some e ∧ parent e = InCell c ∧
          heldClass e = false ∧ styleLeftTop e = None) ∧
  (∀ h held, heldObjects st !! h = Some held →
     ∃ e, elements st !! element held = Some e ∧ parent e = DragLayer ∧
          heldClass e = true ∧ is_Some (styleLeftTop e) ∧
          flipped e = isBack held).
Proof. intros Hr. exact (reachable_domConsistent st Hr). Qed.

(** X7 after hand 0 has grabbed the object of cell 0. *)
Lemma document_follows_the_maps_witness :
  reachable (grabObject viewport start 0 0 (mkLandmark 0.9 0.1 0)
                        (fistAt 0.9 0.1)) ∧
  ∀ held,
    heldObjects (grabObject viewport start 0 0 (mkLandmark 0.9 0.1 0)
                            (fistAt 0.9 0.1)) !! 0%nat = Some held →
    ∃ e, elements (grabObject viewport start 0 0 (mkLandmark 0.9 0.1 0)
                              (fistAt 0.9 0.1)) !! element held = Some e ∧
         parent e = DragLayer ∧ heldClass e = true ∧
         is_Some (styleLeftTop e) ∧ flipped e = isBack held.
Proof.
  assert (Hr : reachable (grabObject viewport start 0 0
                 (mkLandmark 0.9 0.1 0) (fistAt 0.9 0.1))).
  { apply reach_grab; [apply reach_start|reflexivity]. }
  split; [exact Hr|].
  exact (proj2 (document_follows_the_maps _ Hr) 0%nat).
Defined.

(** ** The grid: the drop transition, and what a callback leaves alone *)

Lemma processGesture_open vp st h hand gesture recognizer :
  GridGestures.type gesture = OPEN →
  let palm := GridGestures.palmCenter gesture in
  let c := getCellIndex (px palm) (py palm) in
  let st1 :=
    mkController (cellObjects st) (heldObjects st) (elements st)
      (if ((0 <=? c) && (c <? 9))%Z then {[c]} ∪ activeCells st
       else activeCells st) recognizer in
  processGesture vp st h hand gesture recognizer =
    if bool_decide (is_Some (heldObjects st !! h)) && (0 <=? c)%Z
       && (c <? 9)%Z
    then default st1 (dropObject st1 h c) else st1.
Proof.
  intros Ho palm c st1. unfold processGesture. fold palm c. fold st1.
  destruct (decide (GridGestures.type gesture = FIST)) as [Hf|Hf];
    [rewrite Ho in Hf; done|].
  destruct (decide (GridGestures.type gesture = OPEN)); [|done].
  reflexivity.
Qed.

Lemma processGesture_other vp st h hand gesture recognizer :
  GridGestures.type gesture ≠ FIST → GridGestures.type gesture ≠ OPEN →
  nothingMoved st (processGesture vp st h hand gesture recognizer).
Proof.
  intros Hf Ho. unfold processGesture.
  destruct (decide (GridGestures.type gesture = FIST)); [done|].
  destruct (decide (GridGestures.type gesture = OPEN)); [done|].
  by repeat split.
Qed.

Lemma grabObject_other_slots vp st h c palm hand h' :
  h' ≠ h →
  heldObjects (grabObject vp st h c palm hand) !! h' = heldObjects st !! h'.
Proof.
  intros Hne. unfold grabObject.
  destruct (cellObjects st !! c) as [arr|]; [|done].
  destruct (last arr); [|done]. simpl. by rewrite lookup_insert_ne.
Qed.

Lemma dropObject_other_slots st h c st' h' :
  h' ≠ h → dropObject st h c = Some st' →
  heldObjects st' !! h' = heldObjects st !! h'.
Proof.
  intros Hne Hd. apply dropObject_maps in Hd
    as [[_ ->]|(held & _ & _ & _ & ->)]; [done|].
  by rewrite lookup_delete_ne.
Qed.

Lemma processGesture_other_slots vp st h hand gesture recognizer h' :
  h' ≠ h →
  heldObjects (processGesture vp st h hand gesture recognizer) !! h'
  = heldObjects st !! h'.
Proof.
  intros Hne.
  destruct (decide (GridGestures.type gesture = FIST)) as [Hf|Hf].
  { rewrite processGesture_fist by done. cbv zeta.
    destruct (_ && _); [|done]. by rewrite grabObject_other_slots. }
  destruct (decide (GridGestures.type gesture = OPEN)) as [Ho|Ho].
  { rewrite processGesture_open by done. cbv zeta.
    destruct (_ && _); [|done].
    match goal with |- context [dropObject ?s h ?c] =>
      destruct (dropObject s h c) as [st3|] eqn:E end; [|done].
    simpl. by rewrite (dropObject_other_slots _ _ _ _ _ Hne E). }
  by destruct (processGesture_other vp st h hand gesture recognizer Hf Ho)
    as (_ & -> & _).
Qed.

(** X8.  The callback of [processHands] for hand [h] never touches what
    another hand slot holds.  It moves nothing at all when the emitted
    gesture is neither FIST nor OPEN, when it is FIST and the slot already
    holds an object (a full hand cannot grab a second one), and when it is
    OPEN and the slot is empty. *)
Theorem callback_acts_on_its_own_slot (vp : Viewport)
  (st : HandGridController) (h : nat) (hand : Hand) :
  let seen := GridGestures.recognize (gestureRecognizer st) (landmarks hand) h in
  let t := GridGestures.type seen.1 in
  let st' := processHand vp st h hand in
  (∀ h', h' ≠ h → heldObjects st' !! h' = heldObjects st !! h') ∧
  (t ≠ FIST → t ≠ OPEN → nothingMoved st st') ∧
  (t = FIST → is_Some (heldObjects st !! h) → nothingMoved st st') ∧
  (t = OPEN → heldObjects st !! h = None → nothingMoved st st').
Proof.
  intros seen t st'. subst t st'. unfold processHand. fold seen.
  destruct seen as [gesture recognizer]. cbn [fst].
  split; [intros h' Hne; by apply processGesture_other_slots|].
  split; [apply processGesture_other|]. split.
  - intros Hf Hs. rewrite processGesture_fist by done. cbv zeta.
    rewrite bool_decide_eq_true_2 by done. by repeat split.
  - intros Ho Hn. rewrite processGesture_open by done. cbv zeta.
    rewrite bool_decide_eq_false_2 by (rewrite Hn; by intros [? ?]).
    by repeat split.
Qed.

Lemma processGesture_drop (vp : Viewport) (st : HandGridController) (h : nat)
  (hand : Hand) (gesture : GridGestures.Gesture)
  (recognizer : GestureRecognizer) :
  let palm := GridGestures.palmCenter gesture in
  let c := getCellIndex (px palm) (py palm) in
  let st' := processGesture vp st h hand gesture recognizer in
  (dropFires st st' h ↔
     GridGestures.type gesture = OPEN ∧ is_Some (heldObjects st !! h) ∧
     (0 <= c <= 8)%Z) ∧
  (∀ held,
     dropFires st st' h → heldObjects st !! h = Some held →
     cellObjects st' =
       <[c := default [] (cellObjects st !! c) ++ [element held]]>
         (cellObjects st) ∧
     heldObjects st' = delete h (heldObjects st)).
Proof.
  intros palm c st'.
  assert (Hopen : GridGestures.type gesture = OPEN →
                  is_Some (heldObjects st !! h) → (0 <= c <= 8)%Z →
                  ∃ held, heldObjects st !! h = Some held ∧
                    cellObjects st' =
                      <[c := default [] (cellObjects st !! c)
                               ++ [element held]]> (cellObjects st) ∧
                    heldObjects st' = delete h (heldObjects st)).
  { intros Ho [held Hh] Hc. exists held. split; [done|].
    subst st'. rewrite processGesture_open by done. fold palm c.
    rewrite bool_decide_eq_true_2 by (by rewrite Hh).
    replace (0 <=? c)%Z with true by (symmetry; apply Z.leb_le; lia).
    replace (c <? 9)%Z with true by (symmetry; apply Z.ltb_lt; lia).
    simpl. unfold dropObject. simpl. rewrite Hh.
    replace (hasGridCell c) with true; [done|].
    unfold hasGridCell. symmetry. apply andb_true_iff.
    split; [apply Z.leb_le|apply Z.ltb_lt]; lia. }
  assert (Hiff : dropFires st st' h ↔
     GridGestures.type gesture = OPEN ∧ is_Some (heldObjects st !! h) ∧
     (0 <= c <= 8)%Z).
  { split.
    - intros [Hs Hn]. split; [|split; [done|]].
      + destruct (decide (GridGestures.type gesture = OPEN)) as [|Ho];
          [done|exfalso].
        destruct (decide (GridGestures.type gesture = FIST)) as [Hf|Hf].
        * subst st'. rewrite processGesture_fist in Hn by done.
          cbv zeta in Hn. rewrite bool_decide_eq_true_2 in Hn by done.
          simpl in Hn. rewrite Hn in Hs. by destruct Hs.
        * destruct (processGesture_other vp st h hand gesture recognizer
                      Hf Ho) as (_ & Hheld & _).
          subst st'. rewrite Hheld in Hn. rewrite Hn in Hs. by destruct Hs.
      + destruct (decide (GridGestures.type gesture = OPEN)) as [Ho|Ho].
        * subst st'. rewrite processGesture_open in Hn by done.
          fold palm c in Hn.
          destruct (_ && _) eqn:E.
          -- apply andb_true_iff in E as [E H9].
             apply andb_true_iff in E as [_ H0].
             apply Z.leb_le in H0. apply Z.ltb_lt in H9. lia.
          -- simpl in Hn. rewrite Hn in Hs. by destruct Hs.
        * destruct (decide (GridGestures.type gesture = FIST)) as [Hf|Hf].
          -- subst st'. rewrite processGesture_fist in Hn by done.
             cbv zeta in Hn. rewrite bool_decide_eq_true_2 in Hn by done.
             simpl in Hn. rewrite Hn in Hs. by destruct Hs.
          -- destruct (processGesture_other vp st h hand gesture recognizer
                         Hf Ho) as (_ & Hheld & _).
             subst st'. rewrite Hheld in Hn. rewrite Hn in Hs.
             by destruct Hs.
    - intros (Ho & Hs & Hc). split; [done|].
      destruct (Hopen Ho Hs Hc) as (held & _ & _ & ->).
      apply lookup_delete_eq. }
  split; [exact Hiff|].
  intros held Hfires Hh. apply Hiff in Hfires as (Ho & Hs & Hc).
  destruct (Hopen Ho Hs Hc) as (held' & Hh' & Hcells & Hheld).
  rewrite Hh in Hh'. inversion Hh'; subst held'. done.
Qed.

(** X9.  In the callback for one hand, a drop fires (the slot held an
    object and is empty afterwards) exactly when the emitted gesture is
    OPEN, the slot holds an object and the cell index of the palm centre
    is in 0..8.  The object is then pushed onto the collection of the cell
    under the palm, on top of what that cell holds, whichever cell the
    object was taken from; the other cells and the other slots are
    untouched. *)
Theorem drop_transition (vp : Viewport) (st : HandGridController) (h : nat)
  (hand : Hand) :
  let seen := GridGestures.recognize (gestureRecognizer st) (landmarks hand) h in
  let palm := GridGestures.palmCenter seen.1 in
  let c := getCellIndex (px palm) (py palm) in
  let st' := processHand vp st h hand in
  (dropFires st st' h ↔
     GridGestures.type seen.1 = OPEN ∧ is_Some (heldObjects st !! h) ∧
     (0 <= c <= 8)%Z) ∧
  (∀ held,
     dropFires st st' h → heldObjects st !! h = Some held →
     cellObjects st' =
       <[c := default [] (cellObjects st !! c) ++ [element held]]>
         (cellObjects st) ∧
     heldObjects st' = delete h (heldObjects st)).
Proof.
  intros seen palm c st'. subst st' palm c. unfold processHand. fold seen.
  destruct seen as [gesture recognizer]. apply processGesture_drop.
Qed.

(** ** A spread hand *)

Lemma gridRecognize_openAt (rs : GestureRecognizer) (x y : Q) (h : nat) :
  GridGestures.recognize rs (openAt x y) h =
    let out := applyHysteresis rs (mkClassified OPEN 0.9) h in
    (GridGestures.mkGesture (gtype out.1) (Gestures.confidence out.1)
       (getPalmCenter (openAt x y)), out.2).
Proof.
  unfold GridGestures.recognize.
  change (length (openAt x y) <? 21)%nat with false. cbv iota.
  rewrite getFingerStates_openAt.
  change (GridGestures.classifyGesture _ h) with (mkClassified OPEN 0.9).
  cbv zeta. by destruct (applyHysteresis _ _ _).
Qed.

(** The state in which hand 0 holds the object of cell 0. *)
Lemma holding_reachable :
  reachable (grabObject viewport start 0 0 (mkLandmark 0.9 0.1 0)
                        (fistAt 0.9 0.1)).
Proof. apply reach_grab; [apply reach_start|reflexivity]. Qed.

(** X8 for hand 0 that holds the object of cell 0 and stays clenched. *)
Lemma callback_acts_on_its_own_slot_witness :
  nothingMoved
    (grabObject viewport start 0 0 (mkLandmark 0.9 0.1 0) (fistAt 0.9 0.1))
    (processHand viewport
       (grabObject viewport start 0 0 (mkLandmark 0.9 0.1 0) (fistAt 0.9 0.1))
       0 (fistAt 0.5 0.5)).
Proof.
  apply (proj1 (proj2 (proj2
           (callback_acts_on_its_own_slot viewport
              (grabObject viewport start 0 0 (mkLandmark 0.9 0.1 0)
                          (fistAt 0.9 0.1)) 0 (fistAt 0.5 0.5))))).
  - unfold fistAt. cbn [landmarks]. rewrite recognize_handAt.
    vm_compute. reflexivity.
  - vm_compute. eauto.
Defined.

(** X9 for hand 0 that holds the object of cell 0 and opens over the
    middle cell. *)
Lemma drop_transition_witness :
  dropFires
    (grabObject viewport start 0 0 (mkLandmark 0.9 0.1 0) (fistAt 0.9 0.1))
    (processHand viewport
       (grabObject viewport start 0 0 (mkLandmark 0.9 0.1 0) (fistAt 0.9 0.1))
       0 (spreadAt 0.5 0.5)) 0.
Proof.
  apply (proj1 (drop_transition viewport
                  (grabObject viewport start 0 0 (mkLandmark 0.9 0.1 0)
                              (fistAt 0.9 0.1)) 0 (spreadAt 0.5 0.5))).
  unfold spreadAt. cbn [landmarks]. rewrite gridRecognize_openAt.
  split; [vm_compute; reflexivity|].
  split; [vm_compute; eauto|].
  vm_compute. split; discriminate.
Defined.

(** ** The grid: drop, then grab *)

(** X10.  A cell's collection is a stack.  In a reachable state, when a
    hand slot drops its object into a cell and an empty hand slot (the same
    or another one) then grabs from that cell, it gets the object that was
    just dropped, [cellObjects] is what it was before the drop, and the
    object shows the side it showed when it was dropped: the new entry has
    [grabWasBack = isBack] equal to the old entry's [isBack]. *)
Theorem drop_then_grab_returns_the_object (st : HandGridController) :
  reachable st →
  ∀ vp h h' c palm hand held st1,
    heldObjects st !! h = Some held →
    dropObject st h c = Some st1 →
    heldObjects st1 !! h' = None →
    let st2 := grabObject vp st1 h' c palm hand in
    cellObjects st2 = cellObjects st ∧
    ∃ held2, heldObjects st2 !! h' = Some held2 ∧
             element held2 = element held ∧ fromCellIndex held2 = c ∧
             grabWasBack held2 = isBack held ∧ isBack held2 = isBack held.
Proof.
  intros Hreach vp h h' c palm hand held st1 Hh Hdrop Hh' st2.
  destruct (reachable_domConsistent st Hreach) as [_ Hshown].
  destruct (Hshown h held Hh) as (e & He & _ & _ & _ & Hflip).
  pose proof (reachable_cellsWellFormed st Hreach) as Hwf.
  unfold dropObject in Hdrop. rewrite Hh in Hdrop.
  destruct (hasGridCell c); [|done]. inversion Hdrop; subst st1. clear Hdrop.
  subst st2. unfold grabObject. cbn [cellObjects heldObjects elements].
  rewrite lookup_insert_eq, last_snoc, removelast_last.
  cbn [cellObjects heldObjects elements]. split.
  - destruct (cellObjects st !! c) as [arr|] eqn:Hc; simpl.
    + destruct (Hwf c arr Hc) as [_ Hne].
      destruct arr as [|a arr]; [done|].
      rewrite insert_insert_eq. by apply insert_id.
    + by apply delete_insert_id.
  - eexists. rewrite lookup_insert_eq. split; [done|]. simpl.
    rewrite !lookup_alter_eq, He. simpl. done.
Qed.

(** X10, with hand 0 dropping the object of cell 0 into the middle cell,
    onto the object that rests there, and hand 1 grabbing from that
    cell. *)
Lemma drop_then_grab_returns_the_object_witness :
  reachable (grabObject viewport start 0 0 (mkLandmark 0.9 0.1 0)
                        (fistAt 0.9 0.1)) ∧
  ∃ st1,
    dropObject (grabObject viewport start 0 0 (mkLandmark 0.9 0.1 0)
                           (fistAt 0.9 0.1)) 0 4 = Some st1 ∧
    cellObjects st1 !! 4%Z = Some [1; 0] ∧
    element <$> heldObjects
                  (grabObject viewport st1 1 4 (mkLandmark 0.5 0.5 0)
                              (fistAt 0.5 0.5)) !! 1%nat = Some 0.
Proof.
  split; [exact holding_reachable|].
  eexists. split; [reflexivity|]. split; [vm_compute; reflexivity|].
  match goal with |- context [grabObject viewport ?s 1 4%Z _ _] =>
    destruct (drop_then_grab_returns_the_object _ holding_reachable
                viewport 0 1 4%Z (mkLandmark 0.5 0.5 0) (fistAt 0.5 0.5)
                _ s eq_refl eq_refl eq_refl) as (_ & held2 & Hh & Hel & _)
  end.
  rewrite Hh. simpl. by rewrite Hel.
Defined.

(** ** The grid: the highlighted cells *)





(** ** The grid: placing the objects *)

Lemma createGridObjects_snoc (st : HandGridController) cs c :
  createGridObjects st (cs ++ [c])
  = createGridObject (createGridObjects st cs) (length cs) c.
Proof.
  unfold createGridObjects. rewrite imap_app, fold_left_app. simpl.
  by rewrite Nat.add_0_r.
Qed.

Lemma filter_ext_elem_of (P Q : nat → Prop) `{!∀ x, Decision (P x)}
  `{!∀ x, Decision (Q x)} (l : list nat) :
  (∀ x, x ∈ l → (P x ↔ Q x)) → filter P l = filter Q l.
Proof.
  induction l as [|x l IH]; intros Hpq; [done|].
  rewrite !filter_cons. rewrite IH.
  2: { intros y Hy. apply Hpq. by apply list_elem_of_further. }
  pose proof (Hpq x (list_elem_of_here _ _)) as Hx.
  destruct (decide (P x)), (decide (Q x)); tauto.
Qed.

Lemma createGridObjects_spec (cellIndices : list Z) :
  let st := createGridObjects new_HandGridController cellIndices in
  (∀ c, cellObjects st !! c =
        (λ i, [i]) <$> last (filter (λ i, cellIndices !! i = Some c)
                                    (seq 0 (length cellIndices)))) ∧
  (∀ c, c ∉ cellIndices → cellObjects st !! c = None) ∧
  heldObjects st = ∅ ∧
  (∀ i c, cellIndices !! i = Some c →
          elements st !! i = Some (mkElem (InCell c) false false None)).
Proof.
  induction cellIndices as [|c0 cs IH] using rev_ind.
  { cbv zeta. by repeat split. }
  cbv zeta in *. rewrite createGridObjects_snoc.
  destruct IH as (IHc & IHn & IHh & IHe).
  assert (Hcells : ∀ c, cellObjects
            (createGridObject (createGridObjects new_HandGridController cs)
                              (length cs) c0) !! c =
        (λ i, [i]) <$> last (filter (λ i, (cs ++ [c0]) !! i = Some c)
                                    (seq 0 (length (cs ++ [c0]))))).
  { intros c. rewrite length_app. simpl. rewrite seq_app, filter_app.
    simpl. rewrite filter_cons, filter_nil.
    rewrite (lookup_app_r cs [c0]) by lia. rewrite Nat.sub_diag. simpl.
    assert (Hsame : filter (λ i, (cs ++ [c0]) !! i = Some c) (seq 0 (length cs))
                    = filter (λ i, cs !! i = Some c) (seq 0 (length cs))).
    { apply filter_ext_elem_of. intros i Hi.
      apply elem_of_seq in Hi. by rewrite lookup_app_l by lia. }
    destruct (decide (Some c0 = Some c)) as [Heq|Hne].
    - inversion Heq; subst c0. rewrite lookup_insert_eq.
      by rewrite last_snoc.
    - rewrite app_nil_r, Hsame, <- IHc.
      apply lookup_insert_ne. congruence. }
  split; [exact Hcells|]. split; [|split].
  - intros c Hc. simpl. rewrite lookup_insert_ne.
    + apply IHn. intros Hin. apply Hc. apply elem_of_app. by left.
    + intros ->. apply Hc. apply elem_of_app. right.
      by apply list_elem_of_singleton.
  - exact IHh.
  - intros i c Hi. simpl.
    destruct (decide (i = length cs)) as [->|Hne].
    + rewrite lookup_app_r in Hi by lia. rewrite Nat.sub_diag in Hi.
      inversion Hi; subst. by rewrite lookup_insert_eq.
    + rewrite lookup_insert_ne by done. apply IHe.
      apply lookup_app_Some in Hi as [Hi|[Hge Hi]]; [done|].
      destruct (i - length cs) as [|k] eqn:E; simpl in Hi; [lia|done].
Qed.

(** X12.  [createGridObjects] gives every listed cell a collection of one
    object, the one created last for it: with [cellIndices] naming grid
    cells, the object number [i] (the [i]-th created) is the collection of
    cell [c] exactly when [c] is the [i]-th index and does not occur later
    in the list; an object created earlier for the same cell stays in the
    document but is in no collection.  Cells that are not listed have no
    entry, no hand slot holds anything, and every created object is a child
    of its grid cell, front side up. *)
Theorem createGridObjects_places_one_object_per_cell (cellIndices : list Z) :
  (∀ c, c ∈ cellIndices → hasGridCell c = true) →
  let st := createGridObjects new_HandGridController cellIndices in
  (∀ c, cellObjects st !! c =
        (λ i, [i]) <$> last (filter (λ i, cellIndices !! i = Some c)
                                    (seq 0 (length cellIndices)))) ∧
  (∀ c, c ∉ cellIndices → cellObjects st !! c = None) ∧
  heldObjects st = ∅ ∧
  (∀ i c, cellIndices !! i = Some c →
          elements st !! i = Some (mkElem (InCell c) false false None)).
Proof. intros _. apply createGridObjects_spec. Qed.

(** X12 for the call [createGridObjects([0, 4])] of [start], and for a
    list that names cell 4 twice. *)
Lemma createGridObjects_places_one_object_per_cell_witness :
  (∀ c, c ∈ [4; 0; 4]%Z → hasGridCell c = true) ∧
  cellObjects (createGridObjects new_HandGridController [4; 0; 4]%Z) !! 4%Z
  = Some [2].
Proof.
  assert (H : ∀ c, c ∈ [4; 0; 4]%Z → hasGridCell c = true).
  { intros c Hc. repeat (apply elem_of_cons in Hc as [->|Hc]; [done|]).
    by apply elem_of_nil in Hc. }
  split; [exact H|].
  by rewrite (proj1 (createGridObjects_places_one_object_per_cell
                       [4; 0; 4]%Z H) 4%Z).
Defined.

(** ** The grid: the direction of the palm *)

Lemma Math_atan2_range (y x : R) : (- PI <= Math_atan2 y x <= PI)%R.
Proof.
  pose proof PI_RGT_0 as Hpi. unfold Math_atan2.
  pose proof (atan_bound (y / x)) as [Hlo Hhi].
  destruct (Rlt_dec 0 x) as [Hx|Hx]; [lra|].
  destruct (Rlt_dec x 0) as [Hx'|Hx'].
  - destruct (Rlt_dec y 0) as [Hy|Hy].
    + assert (Hq : (0 < y / x)%R).
      { replace (y / x)%R with ((- y) * / (- x))%R by (field; lra).
        apply Rmult_lt_0_compat; [lra|]. apply Rinv_0_lt_compat. lra. }
      pose proof (atan_increasing 0 (y / x) Hq) as Hinc.
      rewrite atan_0 in Hinc. lra.
    + assert (Hq : (y / x <= 0)%R).
      { replace (y / x)%R with (- (y * / (- x)))%R by (field; lra).
        assert (0 <= y * / - x)%R; [|lra].
        apply Rmult_le_pos; [lra|]. apply Rlt_le, Rinv_0_lt_compat. lra. }
      destruct Hq as [Hq|Hq].
      * pose proof (atan_increasing (y / x) 0 Hq) as Hinc.
        rewrite atan_0 in Hinc. lra.
      * rewrite Hq, atan_0. lra.
  - destruct (Rlt_dec 0 y); [lra|]. destruct (Rlt_dec y 0); lra.
Qed.

Lemma Math_atan2_axes (d : R) :
  (0 < d)%R →
  Math_atan2 0 d = 0%R ∧ Math_atan2 d 0 = (PI / 2)%R ∧
  Math_atan2 0 (- d) = PI ∧ Math_atan2 (- d) 0 = (- (PI / 2))%R.
Proof.
  intros Hd. unfold Math_atan2. repeat split.
  - destruct (Rlt_dec 0 d); [|lra].
    replace (0 / d)%R with 0%R by (field; lra). apply atan_0.
  - destruct (Rlt_dec 0 0); [lra|]. destruct (Rlt_dec 0 0); [lra|].
    destruct (Rlt_dec 0 d); [done|lra].
  - destruct (Rlt_dec 0 (- d)); [lra|]. destruct (Rlt_dec (- d) 0); [|lra].
    destruct (Rlt_dec 0 0); [lra|].
    replace (0 / - d)%R with 0%R by (field; lra). rewrite atan_0. lra.
  - destruct (Rlt_dec 0 0); [lra|]. destruct (Rlt_dec 0 0); [lra|].
    destruct (Rlt_dec 0 (- d)); [lra|]. destruct (Rlt_dec (- d) 0); [done|lra].
Qed.

(** X13.  [getPalmAngle] is 0 for fewer than ten landmarks and otherwise
    the direction from the wrist to the middle-finger MCP in image
    coordinates, always within [[-PI, PI]]: 0 when the MCP is straight to
    the right of the wrist, [PI / 2] when it is straight below (larger
    [y]), [PI] straight to the left and [- PI / 2] straight above. *)
Theorem palm_angle_range (lms : list Landmark) :
  (length lms < 10 → getPalmAngle lms = 0%R) ∧
  (- PI <= getPalmAngle lms <= PI)%R ∧
  (10 ≤ length lms →
   ∀ d : Q, (0 < d)%Q →
     let wrist := at_ lms 0 in
     let mcp := at_ lms 9 in
     ((px mcp == px wrist + d ∧ py mcp == py wrist)%Q →
      getPalmAngle lms = 0%R) ∧
     ((px mcp == px wrist ∧ py mcp == py wrist + d)%Q →
      getPalmAngle lms = (PI / 2)%R) ∧
     ((px mcp == px wrist - d ∧ py mcp == py wrist)%Q →
      getPalmAngle lms = PI) ∧
     ((px mcp == px wrist ∧ py mcp == py wrist - d)%Q →
      getPalmAngle lms = (- (PI / 2))%R)).
Proof.
  pose proof PI_RGT_0 as Hpi. unfold getPalmAngle. split; [|split].
  - intros Hlen. by replace (length lms <? 10)%nat with true
      by (symmetry; apply Nat.ltb_lt; lia).
  - destruct (length lms <? 10)%nat; [lra|apply Math_atan2_range].
  - intros Hlen d Hd. cbv zeta.
    replace (length lms <? 10)%nat with false
      by (symmetry; apply Nat.ltb_ge; lia).
    set (wrist := at_ lms 0). set (mcp := at_ lms 9).
    assert (HdR : (0 < Q2R d)%R).
    { rewrite <- RMicromega.Q2R_0. by apply Qlt_Rlt. }
    destruct (Math_atan2_axes (Q2R d) HdR) as (A1 & A2 & A3 & A4).
    split; [|split; [|split]]; intros [Hx Hy].
    + replace (Q2R (py mcp - py wrist)) with 0%R.
      2: { rewrite <- RMicromega.Q2R_0. apply Qeq_eqR. rewrite Hy. ring. }
      replace (Q2R (px mcp - px wrist)) with (Q2R d); [done|].
      apply Qeq_eqR. rewrite Hx. ring.
    + replace (Q2R (px mcp - px wrist)) with 0%R.
      2: { rewrite <- RMicromega.Q2R_0. apply Qeq_eqR. rewrite Hx. ring. }
      replace (Q2R (py mcp - py wrist)) with (Q2R d); [done|].
      apply Qeq_eqR. rewrite Hy. ring.
    + replace (Q2R (py mcp - py wrist)) with 0%R.
      2: { rewrite <- RMicromega.Q2R_0. apply Qeq_eqR. rewrite Hy. ring. }
      replace (Q2R (px mcp - px wrist)) with (- Q2R d)%R; [done|].
      rewrite <- Q2R_opp. apply Qeq_eqR. rewrite Hx. ring.
    + replace (Q2R (px mcp - px wrist)) with 0%R.
      2: { rewrite <- RMicromega.Q2R_0. apply Qeq_eqR. rewrite Hx. ring. }
      replace (Q2R (py mcp - py wrist)) with (- Q2R d)%R; [done|].
      rewrite <- Q2R_opp. apply Qeq_eqR. rewrite Hy. ring.
Qed.

(** ** The grid: a rotation, measured around the circle *)

Lemma IZR_nonzero_ge_1 (m : Z) : m ≠ 0%Z → (1 <= Rabs (IZR m))%R.
Proof.
  intros Hm. rewrite <- abs_IZR. apply (IZR_le 1). lia.
Qed.

(** X14.  The angle path of the flip tracking measures the rotation
    around the circle: [handRotated] is true exactly when the current palm
    angle is more than [PI / 6] away from the angle at the grab whichever
    number of full turns is added, that is, when no [k] brings
    [currentAngle - grabAngle + 2 * PI * k] within [PI / 6] of 0. *)
Theorem hand_rotated_modulo_full_turns (currentAngle grabAngle : R) :
  handRotated currentAngle grabAngle = true ↔
  ∀ k : Z, (PI / 6 < Rabs (currentAngle - grabAngle + 2 * PI * IZR k))%R.
Proof.
  pose proof PI_RGT_0 as Hpi. rewrite handRotated_iff.
  set (d := (currentAngle - grabAngle)%R).
  destruct (wrapAngle_spec d) as ([Hlo Hhi] & [k0 Hk0] & _).
  split.
  - intros Hrot k.
    destruct (Z.eq_dec k k0) as [->|Hne]; [by rewrite <- Hk0|].
    replace (d + 2 * PI * IZR k)%R
      with (wrapAngle d + 2 * PI * IZR (k - k0))%R
      by (rewrite Hk0, minus_IZR; ring).
    assert (Hm : (1 <= Rabs (IZR (k - k0)))%R)
      by (apply IZR_nonzero_ge_1; lia).
    assert (Hw : (Rabs (wrapAngle d) <= PI)%R) by (apply Rabs_le; lra).
    pose proof (Rabs_triang_inv (2 * PI * IZR (k - k0))
                                (- wrapAngle d)) as Htri.
    rewrite Rabs_Ropp in Htri.
    replace (2 * PI * IZR (k - k0) - - wrapAngle d)%R
      with (wrapAngle d + 2 * PI * IZR (k - k0))%R in Htri by ring.
    rewrite Rabs_mult in Htri. rewrite (Rabs_pos_eq (2 * PI)) in Htri by lra.
    nra.
  - intros Hall. specialize (Hall k0). by rewrite <- Hk0 in Hall.
Qed.

(** ** The particle field: loops over the particles *)

Lemma particleAt_total (xs : list R) (i : nat) :
  i * 3 + 2 < length xs →
  particleAt xs i
  = Some (mkVector3 (xs !!! (i * 3)) (xs !!! (i * 3 + 1))
                    (xs !!! (i * 3 + 2))).
Proof.
  intros Hlen. unfold particleAt.
  rewrite !list_lookup_lookup_total_lt by lia. reflexivity.
Qed.

Lemma particleAt_Some (xs : list R) (i : nat) p :
  particleAt xs i = Some p →
  xs !!! (i * 3) = vx p ∧ xs !!! (i * 3 + 1) = vy p ∧
  xs !!! (i * 3 + 2) = vz p ∧ i * 3 + 2 < length xs.
Proof.
  unfold particleAt. intros H.
  destruct (xs !! (i * 3)) as [x|] eqn:Ex; [|done].
  destruct (xs !! (i * 3 + 1)) as [y|] eqn:Ey; [|done].
  destruct (xs !! (i * 3 + 2)) as [z|] eqn:Ez; [|done].
  simpl in H. inversion H; subst p. simpl.
  repeat split; try by apply list_lookup_total_correct.
  by apply lookup_lt_Some in Ez.
Qed.

Lemma triple_insert_other (xs : list R) (i j : nat) (x y z : R) :
  i ≠ j →
  particleAt (<[(i * 3 + 2)%nat := z]>
                (<[(i * 3 + 1)%nat := y]> (<[(i * 3)%nat := x]> xs))) j
  = particleAt xs j.
Proof.
  intros Hne. unfold particleAt.
  rewrite !list_lookup_insert_ne by lia. reflexivity.
Qed.

Lemma triple_insert_at (xs : list R) (i : nat) (x y z : R) :
  i * 3 + 2 < length xs →
  particleAt (<[(i * 3 + 2)%nat := z]>
                (<[(i * 3 + 1)%nat := y]> (<[(i * 3)%nat := x]> xs))) i
  = Some (mkVector3 x y z).
Proof.
  intros Hlen. unfold particleAt.
  edestruct (triple_insert_lookup xs (i * 3)) as (-> & -> & ->); [exact Hlen|].
  reflexivity.
Qed.

(** A loop whose round [i] rewrites the three entries of particle [i] from
    what they hold: afterwards every particle has been rewritten once. *)
Section TripleLoop.

Variable f : list R → nat → list R.
Variable g : nat → Vector3 → Vector3.
Hypothesis f_length : ∀ xs i, length (f xs i) = length xs.
Hypothesis f_other :
  ∀ xs i j, i ≠ j → particleAt (f xs i) j = particleAt xs j.
Hypothesis f_at :
  ∀ xs i p, particleAt xs i = Some p → particleAt (f xs i) i = Some (g i p).

Lemma loop_length (m : nat) : ∀ s xs,
  length (fold_left f (seq s m) xs) = length xs.
Proof.
  induction m as [|m IH]; intros s xs; simpl; [done|].
  by rewrite IH, f_length.
Qed.

Lemma loop_untouched (m : nat) : ∀ s xs j,
  j < s ∨ s + m ≤ j →
  particleAt (fold_left f (seq s m) xs) j = particleAt xs j.
Proof.
  induction m as [|m IH]; intros s xs j Hj; simpl; [done|].
  rewrite IH by lia. apply f_other. lia.
Qed.

Lemma loop_at (xs : list R) : ∀ m i p,
  i < m → particleAt xs i = Some p →
  particleAt (fold_left f (seq 0 m) xs) i = Some (g i p).
Proof.
  induction m as [|m IH]; intros i p Hi Hp; [lia|].
  rewrite seq_S, fold_left_app. simpl.
  destruct (decide (i = m)) as [->|Hne].
  - apply f_at. rewrite loop_untouched by lia. done.
  - rewrite f_other by done. apply IH; [lia|done].
Qed.

End TripleLoop.

(** ** The particle field: moving the gathered swarm *)

Lemma shiftParticle_length delta xs i :
  length (Field.shiftParticle delta xs i) = length xs.
Proof. unfold Field.shiftParticle. by rewrite !length_insert. Qed.

Lemma shiftParticle_other delta xs i j :
  i ≠ j → particleAt (Field.shiftParticle delta xs i) j = particleAt xs j.
Proof. intros Hne. unfold Field.shiftParticle. by apply triple_insert_other. Qed.

Lemma shiftParticle_at delta xs i p :
  particleAt xs i = Some p →
  particleAt (Field.shiftParticle delta xs i) i = Some (translate p delta).
Proof.
  intros Hp. apply particleAt_Some in Hp as (Hx & Hy & Hz & Hlen).
  unfold Field.shiftParticle. cbv zeta.
  rewrite triple_insert_at by lia. unfold translate.
  rewrite (list_lookup_total_insert_ne _ (i * 3) (i * 3 + 1)) by lia.
  rewrite (list_lookup_total_insert_ne _ (i * 3 + 1) (i * 3 + 2)) by lia.
  rewrite (list_lookup_total_insert_ne _ (i * 3) (i * 3 + 2)) by lia.
  by rewrite Hx, Hy, Hz.
Qed.

Lemma spherePoint_translate center center' r n i :
  translate (spherePoint center r n i) (offsetTo center' center)
  = spherePoint center' r n i.
Proof.
  unfold translate, spherePoint, offsetTo. simpl. f_equal; ring.
Qed.

Lemma updateGatherCenter_drawn (f : MagicParticleField) center :
  state f ≠ scattered →
  Field.updateGatherCenter f center =
    mkField (particleCount f) (positions f)
      (fold_left (Field.shiftParticle (offsetTo center (targetCenter f)))
                 (seq 0 (particleCount f)) (targetPositions f))
      (velocities f) (originalScatterPositions f) (state f) center
      (sphereRadius f) (scatterRange f)
      (mkVector3
         (vx (velocity f)
          + vx (offsetTo center (targetCenter f)) * Field.inertia)
         (vy (velocity f)
          + vy (offsetTo center (targetCenter f)) * Field.inertia)
         (vz (velocity f)
          + vz (offsetTo center (targetCenter f)) * Field.inertia)).
Proof.
  intros Hs. unfold Field.updateGatherCenter.
  destruct (state f); [done|reflexivity|reflexivity].
Qed.

(** X15.  [updateGatherCenter] does nothing while the field is scattered.
    Otherwise it keeps the state, makes [center] the target centre, adds
    0.15 times the displacement of the centre to the velocity and moves
    the target of every particle by that displacement.  After
    [gather(c)], [updateGatherCenter(c')] leaves the targets that
    [gather(c')] would have set: the sphere moves as a whole. *)
Theorem updateGatherCenter_moves_the_sphere (f : MagicParticleField)
  (center : Vector3) :
  length (targetPositions f) = (3 * particleCount f)%nat →
  (state f = scattered → Field.updateGatherCenter f center = f) ∧
  (state f ≠ scattered →
   let f' := Field.updateGatherCenter f center in
   let delta := offsetTo center (targetCenter f) in
   state f' = state f ∧ targetCenter f' = center ∧
   positions f' = positions f ∧
   velocity f' = translate (velocity f)
                   (mkVector3 (vx delta * 0.15) (vy delta * 0.15)
                              (vz delta * 0.15)) ∧
   ∀ i p, i < particleCount f →
     particleAt (targetPositions f) i = Some p →
     particleAt (targetPositions f') i = Some (translate p delta)) ∧
  (∀ c i, i < particleCount f →
     particleAt (targetPositions (Field.updateGatherCenter (gather f c) center))
                i
     = particleAt (targetPositions (gather f center)) i).
Proof.
  intros Hlen. split; [|split].
  - intros Hs. unfold Field.updateGatherCenter. by rewrite Hs.
  - intros Hs. cbv zeta. rewrite updateGatherCenter_drawn by done.
    cbn [state targetCenter positions velocity targetPositions].
    repeat split; try done.
    intros i p Hi Hp.
    apply (loop_at _ (λ _ p, translate p (offsetTo center (targetCenter f))));
      auto using shiftParticle_other, shiftParticle_at.
  - intros c i Hi.
    rewrite updateGatherCenter_drawn by done.
    cbn [targetPositions gather targetCenter particleCount].
    rewrite (loop_at _ (λ _ p, translate p (offsetTo center c))
               (shiftParticle_other _) (shiftParticle_at _) _ _ i
               (spherePoint c (sphereRadius f) (particleCount f) i));
      [|done|by apply gather_loop].
    rewrite spherePoint_translate. symmetry. by apply gather_loop.
Qed.

(** X15 for the field as constructed, gathered at the origin and moved. *)
Lemma updateGatherCenter_moves_the_sphere_witness :
  length (targetPositions (new_MagicParticleField (λ _, 0.5%R)))
  = (3 * particleCount (new_MagicParticleField (λ _, 0.5%R)))%nat ∧
  particleAt (targetPositions
                (Field.updateGatherCenter
                   (gather (new_MagicParticleField (λ _, 0.5%R))
                           (mkVector3 0 0 0)) (mkVector3 1 2 3))) 7
  = particleAt (targetPositions
                  (gather (new_MagicParticleField (λ _, 0.5%R))
                          (mkVector3 1 2 3))) 7.
Proof.
  split; [apply new_field_length|].
  apply (proj2 (proj2 (updateGatherCenter_moves_the_sphere
                         (new_MagicParticleField (λ _, 0.5%R))
                         (mkVector3 1 2 3) (new_field_length _)))).
  change (7 < 800). lia.
Defined.

(** ** The particle field: scattering *)

Lemma scatterParticle_length random orig xs i :
  length (Field.scatterParticle random orig xs i) = length xs.
Proof. unfold Field.scatterParticle. by rewrite !length_insert. Qed.

Lemma scatterParticle_other random orig xs i j :
  i ≠ j →
  particleAt (Field.scatterParticle random orig xs i) j = particleAt xs j.
Proof.
  intros Hne. unfold Field.scatterParticle. by apply triple_insert_other.
Qed.

Lemma scatterParticle_at random orig xs i p :
  particleAt xs i = Some p →
  particleAt (Field.scatterParticle random orig xs i) i
  = Some (mkVector3
            (orig !!! (i * 3)%nat + (random (3 * i)%nat - 0.5) * 2)
            (orig !!! (i * 3 + 1)%nat + (random (3 * i + 1)%nat - 0.5) * 2)
            (orig !!! (i * 3 + 2)%nat + (random (3 * i + 2)%nat - 0.5) * 1)).
Proof.
  intros Hp. apply particleAt_Some in Hp as (_ & _ & _ & Hlen).
  unfold Field.scatterParticle. cbv zeta. by rewrite triple_insert_at by lia.
Qed.

(** X16.  [scatter] does nothing while the field is scattered: holding
    the hand open does not draw new targets frame after frame.  Otherwise
    the state becomes [scattered], positions and target centre stay, and
    the target of every particle is its original scatter position plus an
    offset drawn for each coordinate; with draws in [[0, 1)] the offset is
    at most 1 in [x] and [y] and at most 0.5 in [z]. *)
Theorem scatter_returns_to_the_original_places (f : MagicParticleField)
  (random : nat → R) :
  wellFormed f →
  (state f = scattered → Field.scatter f random = f) ∧
  (state f ≠ scattered →
   let f' := Field.scatter f random in
   state f' = scattered ∧ positions f' = positions f ∧
   targetCenter f' = targetCenter f ∧
   originalScatterPositions f' = originalScatterPositions f ∧
   ∀ i, i < particleCount f →
     ∃ o t, particleAt (originalScatterPositions f) i = Some o ∧
            particleAt (targetPositions f') i = Some t ∧
            vx t = (vx o + (random (3 * i)%nat - 0.5) * 2)%R ∧
            vy t = (vy o + (random (3 * i + 1)%nat - 0.5) * 2)%R ∧
            vz t = (vz o + (random (3 * i + 2)%nat - 0.5) * 1)%R ∧
            (unitDraws random →
             (Rabs (vx t - vx o) <= 1 ∧ Rabs (vy t - vy o) <= 1 ∧
              Rabs (vz t - vz o) <= 0.5)%R)).
Proof.
  intros (Hp & Ht & Ho). split.
  - intros Hs. unfold Field.scatter. by rewrite Hs.
  - intros Hs. cbv zeta.
    assert (Hsc : Field.scatter f random =
      mkField (particleCount f) (positions f)
        (fold_left (Field.scatterParticle random (originalScatterPositions f))
                   (seq 0 (particleCount f)) (targetPositions f))
        (velocities f) (originalScatterPositions f) scattered
        (targetCenter f) (sphereRadius f) (scatterRange f) (velocity f)).
    { unfold Field.scatter. by destruct (state f). }
    rewrite Hsc. cbn [state positions targetCenter originalScatterPositions
                      targetPositions].
    repeat split; try done. intros i Hi.
    set (orig := originalScatterPositions f) in *.
    pose proof (loop_at (Field.scatterParticle random orig)
      (λ i _, mkVector3
         (orig !!! (i * 3)%nat + (random (3 * i)%nat - 0.5) * 2)
         (orig !!! (i * 3 + 1)%nat + (random (3 * i + 1)%nat - 0.5) * 2)
         (orig !!! (i * 3 + 2)%nat + (random (3 * i + 2)%nat - 0.5) * 1))
      (scatterParticle_other random orig) (scatterParticle_at random orig)
      (targetPositions f) (particleCount f) i _ Hi
      (particleAt_total (targetPositions f) i ltac:(lia))) as Hloop.
    eexists _, _. split; [apply particleAt_total; lia|].
    split; [exact Hloop|].
    cbn [vx vy vz]. split; [done|]. split; [done|]. split; [done|].
    intros Hu.
    pose proof (Hu (3 * i)%nat). pose proof (Hu (3 * i + 1)%nat).
    pose proof (Hu (3 * i + 2)%nat).
    repeat split; apply Rabs_le; lra.
Qed.

(** ** The particle field: a frame of [update] *)

Section UpdateLoop.

Variable setHSL : R → R → R → Vector3.
Variable now : nat → nat → R.
Variable random : nat → R.
Variable self : MagicParticleField.

Lemma updateParticle_spec (round : Field.Round) (i : nat) (p t : Vector3) :
  particleAt (Field.r_positions round) i = Some p →
  particleAt (targetPositions self) i = Some t →
  let round' := Field.updateParticle setHSL now random self round i in
  particleAt (Field.r_positions round') i = Some (moved self now i t p) ∧
  (∀ j, i ≠ j → particleAt (Field.r_positions round') j
                = particleAt (Field.r_positions round) j) ∧
  length (Field.r_positions round') = length (Field.r_positions round) ∧
  (Field.allReached round' = true ↔
   Field.allReached round = true ∧ arrived self t p).
Proof.
  intros Hp Ht.
  apply particleAt_Some in Hp as (Hx & Hy & Hz & Hlen).
  apply particleAt_Some in Ht as (Htx & Hty & Htz & _).
  destruct p as [x y z], t as [tx ty tz]. simpl in *.
  unfold Field.updateParticle, moved, arrived, aim, pace, flutter, translate,
    squaredDistance.
  rewrite Hx, Hy, Hz, Htx, Hty, Htz. cbn [vx vy vz].
  assert (Hsq : ∀ a b c : R,
             (a * a + b * b + c * c = a ^ 2 + b ^ 2 + c ^ 2)%R)
    by (intros; ring).
  destruct (state self) eqn:Es; cbn [Field.drawnIn Field.r_positions
    Field.allReached vx vy vz]; rewrite Hsq;
    (split; [rewrite triple_insert_at by lia; do 2 f_equal; ring|]);
    (split; [intros j Hne; by apply triple_insert_other|]);
    (split; [by rewrite !length_insert|]);
    match goal with
    | |- context [Rltb 0.01 ?d] =>
        destruct (Rltb 0.01 d) eqn:E;
        [apply Rltb_lt in E|apply Rltb_ge in E]
    end;
    (split; [intros H; first [discriminate|split; [done|lra]]
            |intros [H1 H2]; first [done|lra]]).
Qed.

Lemma update_loop (round : Field.Round) : ∀ m,
  length (Field.r_positions round) = (3 * particleCount self)%nat →
  length (targetPositions self) = (3 * particleCount self)%nat →
  m ≤ particleCount self →
  let round' :=
    fold_left (Field.updateParticle setHSL now random self) (seq 0 m) round in
  length (Field.r_positions round') = length (Field.r_positions round) ∧
  (∀ j, m ≤ j → particleAt (Field.r_positions round') j
                = particleAt (Field.r_positions round) j) ∧
  (∀ i p t, i < m → particleAt (Field.r_positions round) i = Some p →
            particleAt (targetPositions self) i = Some t →
            particleAt (Field.r_positions round') i
            = Some (moved self now i t p)) ∧
  (Field.allReached round' = true ↔
   Field.allReached round = true ∧
   ∀ i p t, i < m → particleAt (Field.r_positions round) i = Some p →
            particleAt (targetPositions self) i = Some t → arrived self t p).
Proof.
  induction m as [|m IH]; intros Hlen Htl Hm.
  { simpl. repeat split; try done; try (intros; lia). by intros [? _]. }
  specialize (IH Hlen Htl ltac:(lia)). cbv zeta in IH |- *.
  rewrite seq_S, fold_left_app. simpl.
  set (prev := fold_left _ (seq 0 m) round) in *.
  destruct IH as (IHlen & IHrest & IHat & IHall).
  assert (Hpm : particleAt (Field.r_positions prev) m
                = particleAt (Field.r_positions round) m)
    by (apply IHrest; lia).
  assert (Hsome : particleAt (Field.r_positions round) m
                  = Some (mkVector3 (Field.r_positions round !!! (m * 3))
                            (Field.r_positions round !!! (m * 3 + 1))
                            (Field.r_positions round !!! (m * 3 + 2))))
    by (apply particleAt_total; lia).
  assert (Htm : particleAt (targetPositions self) m
                = Some (mkVector3 (targetPositions self !!! (m * 3))
                          (targetPositions self !!! (m * 3 + 1))
                          (targetPositions self !!! (m * 3 + 2))))
    by (apply particleAt_total; lia).
  rewrite Hsome in Hpm.
  destruct (updateParticle_spec prev m _ _ Hpm Htm)
    as (Sat & Sother & Slen & Sall).
  split; [congruence|]. split; [|split].
  - intros j Hj. rewrite Sother by lia. apply IHrest. lia.
  - intros i p t Hi Hp Ht. destruct (decide (i = m)) as [->|Hne].
    + rewrite Sat. rewrite Hsome in Hp. rewrite Htm in Ht.
      by inversion Hp; inversion Ht; subst.
    + rewrite Sother by done. apply IHat; [lia|done|done].
  - rewrite Sall, IHall. split.
    + intros [[H0 Hbefore] Hm']. split; [done|].
      intros i p t Hi Hp Ht. destruct (decide (i = m)) as [->|Hne].
      * rewrite Hsome in Hp. rewrite Htm in Ht.
        by inversion Hp; inversion Ht; subst.
      * apply (Hbefore i); [lia|done|done].
    + intros [H0 Hall]. split; [split; [done|]|].
      * intros i p t Hi. apply Hall. lia.
      * by apply (Hall m); [lia|..].
Qed.

End UpdateLoop.

Lemma update_unfold setHSL now random (f : MagicParticleField) colors :
  let round :=
    fold_left (Field.updateParticle setHSL now random (slowed f))
              (seq 0 (particleCount f))
              (Field.mkRound (positions f) colors true) in
  (Field.update setHSL now random f colors).1 =
    mkField (particleCount f) (Field.r_positions round) (targetPositions f)
      (velocities f) (originalScatterPositions f)
      (match state f with
       | gathering =>
           if Field.allReached round then gathered else gathering
       | s => s
       end)
      (targetCenter f) (sphereRadius f) (scatterRange f)
      (velocity (slowed f)).
Proof.
  cbv zeta. unfold Field.update, slowed, Field.damping, Field.gravity.
  cbn [fst state particleCount positions targetPositions velocities
       originalScatterPositions targetCenter sphereRadius scatterRange
       velocity vx vy vz].
  destruct (state f); cbn [Field.drawnIn vx vy vz];
    repeat (f_equal; try lra).
Qed.

Lemma pace_contracts (x a : R) :
  ((x + (a - x) * 0.12 + 0 - a) ^ 2 = 0.88 ^ 2 * (x - a) ^ 2)%R.
Proof.
  replace 0.12%R with (12 / 100)%R by lra.
  replace 0.88%R with (88 / 100)%R by lra. field.
Qed.

Lemma moved_contracts (f : MagicParticleField) now i t p :
  state f ≠ scattered →
  squaredDistance (moved f now i t p) (aim f t)
  = (0.88 ^ 2 * squaredDistance p (aim f t))%R.
Proof.
  intros Hs. unfold moved, pace, flutter, translate. cbv zeta.
  generalize (aim f t). intros a. unfold squaredDistance.
  destruct (state f); [done|..]; cbn [vx vy vz];
    rewrite !pace_contracts; lra.
Qed.

Lemma update_frame (setHSL : R → R → R → Vector3)
  (now : nat → nat → R) (random : nat → R) (f : MagicParticleField)
  (colors : list R) :
  wellFormed f →
  let out := (Field.update setHSL now random f colors).1 in
  let f1 := slowed f in
  wellFormed out ∧
  targetPositions out = targetPositions f ∧
  targetCenter out = targetCenter f ∧
  velocity out = velocity f1 ∧
  (∀ i p t, i < particleCount f →
     particleAt (positions f) i = Some p →
     particleAt (targetPositions f) i = Some t →
     particleAt (positions out) i = Some (moved f1 now i t p) ∧
     (state f ≠ scattered →
      squaredDistance (moved f1 now i t p) (aim f1 t)
      = (0.88 ^ 2 * squaredDistance p (aim f1 t))%R)) ∧
  (state f ≠ gathering → state out = state f) ∧
  (state f = gathering →
   (state out = gathered ∨ state out = gathering) ∧
   (state out = gathered ↔
    ∀ i p t, i < particleCount f →
      particleAt (positions f) i = Some p →
      particleAt (targetPositions f) i = Some t → arrived f1 t p)).
Proof.
  intros (Hp & Ht & Ho) out f1. subst out.
  pose proof (update_unfold setHSL now random f colors) as Hu.
  cbv zeta in Hu. rewrite Hu. clear Hu.
  pose proof (update_loop setHSL now random f1
                (Field.mkRound (positions f) colors true)
                (particleCount f) Hp Ht (Nat.le_refl _)) as Hloop.
  cbv zeta in Hloop. fold f1.
  change (particleCount f1) with (particleCount f) in Hloop.
  set (round := fold_left _ (seq 0 (particleCount f)) _) in *.
  destruct Hloop as (Hlen & _ & Hat & Hall).
  cbn [Field.r_positions Field.allReached] in Hlen, Hat, Hall.
  cbn [targetPositions targetCenter velocity positions state particleCount].
  split; [|split; [done|split; [done|split; [done|split; [|split]]]]].
  - unfold wellFormed. cbn [positions targetPositions particleCount
                            originalScatterPositions]. by rewrite Hlen.
  - intros i p t Hi Hpi Hti. split; [by apply Hat|].
    intros Hs. by apply moved_contracts.
  - intros Hs. by destruct (state f).
  - intros Hs. rewrite Hs. split.
    + destruct (Field.allReached round); auto.
    + destruct (Field.allReached round) eqn:E.
      * split; [|done]. intros _. by apply Hall.
      * split; [done|]. intros Hevery.
        assert (Hno : false = true); [|done].
        apply Hall. split; [done|]. exact Hevery.
Qed.

(** X17.  One frame of [update] first slows the velocity of the swarm to
    0.92 of it (less 0.003 in [y] while the swarm is drawn in) and then
    moves every particle a fixed share of the way to its aim: 0.12 while
    the swarm is drawn in, where the aim is the target held back by the
    velocity, and 0.04 plus a flutter while it is scattered.  Targets and
    target centre are not touched.  The state changes only from
    [gathering] to [gathered], and exactly when every particle was within
    0.01 of its aim before the move. *)
Theorem update_steers_every_particle (setHSL : R → R → R → Vector3)
  (now : nat → nat → R) (random : nat → R) (f : MagicParticleField)
  (colors : list R) :
  wellFormed f →
  let out := (Field.update setHSL now random f colors).1 in
  let f1 := slowed f in
  wellFormed out ∧
  targetPositions out = targetPositions f ∧
  targetCenter out = targetCenter f ∧
  velocity out = velocity f1 ∧
  (∀ i p t, i < particleCount f →
     particleAt (positions f) i = Some p →
     particleAt (targetPositions f) i = Some t →
     particleAt (positions out) i = Some (moved f1 now i t p) ∧
     (state f ≠ scattered →
      squaredDistance (moved f1 now i t p) (aim f1 t)
      = (0.88 ^ 2 * squaredDistance p (aim f1 t))%R)) ∧
  (state f ≠ gathering → state out = state f) ∧
  (state f = gathering →
   (state out = gathered ∨ state out = gathering) ∧
   (state out = gathered ↔
    ∀ i p t, i < particleCount f →
      particleAt (positions f) i = Some p →
      particleAt (targetPositions f) i = Some t → arrived f1 t p)).
Proof. apply update_frame. Qed.

(** X17 for the field as constructed: a scattered field stays
    scattered. *)
Lemma update_steers_every_particle_witness :
  wellFormed (new_MagicParticleField (λ _, 0.5%R)) ∧
  state (Field.update (λ _ _ _, mkVector3 0 0 0) (λ _ _, 0%R) (λ _, 0.5%R)
           (new_MagicParticleField (λ _, 0.5%R)) []).1 = scattered.
Proof.
  assert (Hwf : wellFormed (new_MagicParticleField (λ _, 0.5%R))).
  { repeat split; apply (scatter_length 8 (λ _, 0.5%R) 800 0). }
  split; [exact Hwf|].
  refine (proj1 (proj2 (proj2 (proj2 (proj2 (proj2
            (update_steers_every_particle _ _ _ _ [] Hwf)))))) _).
  discriminate.
Defined.

(** ** The particle field over a session *)

Lemma gather_wellFormed f center : wellFormed f → wellFormed (gather f center).
Proof.
  intros (Hp & Ht & Ho). unfold wellFormed, gather.
  cbn [positions targetPositions particleCount originalScatterPositions].
  by rewrite gather_loop_length.
Qed.

Lemma updateGatherCenter_wellFormed f center :
  wellFormed f → wellFormed (Field.updateGatherCenter f center).
Proof.
  intros (Hp & Ht & Ho). unfold wellFormed, Field.updateGatherCenter.
  destruct (state f); [done|..];
    cbn [positions targetPositions particleCount originalScatterPositions];
    by rewrite (loop_length _ (shiftParticle_length _)).
Qed.

Lemma scatter_wellFormed f random :
  wellFormed f → wellFormed (Field.scatter f random).
Proof.
  intros (Hp & Ht & Ho). unfold wellFormed, Field.scatter.
  destruct (state f); [done|..];
    cbn [positions targetPositions particleCount originalScatterPositions];
    by rewrite (loop_length _ (scatterParticle_length _ _)).
Qed.

Lemma new_field_wellFormed random : wellFormed (new_MagicParticleField random).
Proof. repeat split; apply (scatter_length 8 random 800 0). Qed.

(** What holds of every field of a session. *)
(** X16 for the swarm that was called together at the origin. *)
Lemma scatter_returns_to_the_original_places_witness :
  wellFormed (gather (new_MagicParticleField (λ _, 0.5%R))
                     (mkVector3 0 0 0)) ∧
  state (Field.scatter
           (gather (new_MagicParticleField (λ _, 0.5%R)) (mkVector3 0 0 0))
           (λ _, 0.5%R)) = scattered.
Proof.
  assert (Hw : wellFormed (gather (new_MagicParticleField (λ _, 0.5%R))
                                  (mkVector3 0 0 0))).
  { apply gather_wellFormed, new_field_wellFormed. }
  split; [exact Hw|].
  refine (proj1 (proj2 (scatter_returns_to_the_original_places _
                          (λ _, 0.5%R) Hw) _)).
  discriminate.
Defined.

Lemma fieldSession_invariant f :
  fieldSession f →
  wellFormed f ∧ particleCount f = 800 ∧ sphereRadius f = 1.2%R ∧
  (state f ≠ scattered → targetsOnSphere f).
Proof.
  induction 1 as [random|f center _ IH|f center _ IH|f random _ IH
                  |setHSL now random f colors _ IH].
  - split; [apply new_field_wellFormed|]. by repeat split.
  - destruct IH as (Hwf & Hn & Hr & _).
    split; [by apply gather_wellFormed|]. split; [done|]. split; [done|].
    intros _ i Hi. unfold gather.
    cbn [targetPositions targetCenter sphereRadius particleCount] in *.
    apply gather_loop; [apply Hwf|done|done].
  - destruct IH as (Hwf & Hn & Hr & Hsphere).
    split; [by apply updateGatherCenter_wellFormed|].
    destruct (decide (state f = scattered)) as [Hs|Hs].
    { unfold Field.updateGatherCenter. rewrite Hs. by repeat split. }
    rewrite updateGatherCenter_drawn by done.
    cbn [targetPositions targetCenter sphereRadius particleCount state].
    split; [done|]. split; [done|]. intros _ i Hi.
    cbn [targetPositions targetCenter sphereRadius particleCount].
    rewrite (loop_at _ (λ _ p, translate p (offsetTo center (targetCenter f)))
               (shiftParticle_other _) (shiftParticle_at _) _ _ i
               (spherePoint (targetCenter f) (sphereRadius f)
                            (particleCount f) i));
      [|done|by apply Hsphere].
    by rewrite spherePoint_translate.
  - destruct IH as (Hwf & Hn & Hr & Hsphere).
    split; [by apply scatter_wellFormed|].
    unfold Field.scatter. destruct (state f) eqn:Es; by repeat split.
  - destruct IH as (Hwf & Hn & Hr & Hsphere).
    destruct (update_frame setHSL now random f colors Hwf)
      as (Hwf' & Htp & Htc & _ & _ & Hkeep & Hgo).
    rewrite update_unfold in *. cbv zeta in *.
    cbn [targetPositions targetCenter sphereRadius particleCount state] in *.
    split; [done|]. split; [done|]. split; [done|].
    intros Hs i Hi.
    cbn [targetPositions targetCenter sphereRadius particleCount] in *.
    apply Hsphere; [|done]. intros Hsc. rewrite Hsc in Hs. done.
Qed.

(** X18.  While the field of a session is gathering or gathered, the
    target of every one of its 800 particles is the point of the
    golden-angle sphere of radius 1.2 around the current target centre,
    however often the centre has been moved since the swarm was called
    together: every target is at distance 1.2 from the target centre. *)
Theorem gathered_swarm_keeps_its_sphere (f : MagicParticleField) :
  fieldSession f → state f ≠ scattered →
  particleCount f = 800 ∧ sphereRadius f = 1.2%R ∧
  ∀ i, i < 800 →
    ∃ target,
      particleAt (targetPositions f) i = Some target ∧
      target = spherePoint (targetCenter f) 1.2 800 i ∧
      squaredDistance target (targetCenter f) = (1.2 ^ 2)%R ∧
      sqrt (squaredDistance target (targetCenter f)) = 1.2%R.
Proof.
  intros Hf Hs.
  destruct (fieldSession_invariant f Hf) as (_ & Hn & Hr & Hsphere).
  split; [done|]. split; [done|]. intros i Hi.
  exists (spherePoint (targetCenter f) 1.2 800 i).
  split; [rewrite <- Hr, <- Hn; apply Hsphere; [done|lia]|].
  split; [done|]. rewrite spherePoint_on_sphere. split; [done|].
  replace (1.2 ^ 2)%R with (Rsqr 1.2) by (unfold Rsqr; ring).
  apply sqrt_Rsqr. lra.
Qed.

(** X18 after [gather] at the origin and a move of the centre. *)
Lemma gathered_swarm_keeps_its_sphere_witness :
  fieldSession
    (Field.updateGatherCenter
       (gather (new_MagicParticleField (λ _, 0.5%R)) (mkVector3 0 0 0))
       (mkVector3 1 2 3)) ∧
  sphereRadius
    (Field.updateGatherCenter
       (gather (new_MagicParticleField (λ _, 0.5%R)) (mkVector3 0 0 0))
       (mkVector3 1 2 3)) = 1.2%R.
Proof.
  assert (Hf : fieldSession
    (Field.updateGatherCenter
       (gather (new_MagicParticleField (λ _, 0.5%R)) (mkVector3 0 0 0))
       (mkVector3 1 2 3)))
    by exact (field_shift _ _ (field_gather _ _ (field_new _))).
  split; [exact Hf|].
  refine (proj1 (proj2 (gathered_swarm_keeps_its_sphere _ Hf _))).
  discriminate.
Defined.

(** ** The Studio: a frame *)









(** ** The Studio: from the image to the scene *)

Lemma toWorld_wide (va sa : Q) (lm : Landmark) :
  (0 < va)%Q → (0 < sa)%Q → Qltb sa va = true →
  (px (Studio.toWorld va sa lm) == 8 * (va / sa) * (0.5 - px lm) ∧
   py (Studio.toWorld va sa lm) == 8 / sa * (0.5 - py lm) ∧
   pz (Studio.toWorld va sa lm) == - (4 * pz lm))%Q.
Proof.
  intros Hva Hsa Hlt. unfold Studio.toWorld. rewrite Hlt. cbn [px py pz].
  assert (Hva' : ¬ (va == 0)%Q) by (intros H; rewrite H in Hva; qlra).
  assert (Hsa' : ¬ (sa == 0)%Q) by (intros H; rewrite H in Hsa; qlra).
  repeat split; field; repeat split; try done.
Qed.

Lemma toWorld_tall (va sa : Q) (lm : Landmark) :
  (0 < va)%Q → (0 < sa)%Q → Qltb sa va = false →
  (px (Studio.toWorld va sa lm) == 8 * (0.5 - px lm) ∧
   py (Studio.toWorld va sa lm) == 8 / va * (0.5 - py lm) ∧
   pz (Studio.toWorld va sa lm) == - (4 * pz lm))%Q.
Proof.
  intros Hva Hsa Hlt. unfold Studio.toWorld. rewrite Hlt. cbn [px py pz].
  assert (Hva' : ¬ (va == 0)%Q) by (intros H; rewrite H in Hva; qlra).
  assert (Hsa' : ¬ (sa == 0)%Q) by (intros H; rewrite H in Hsa; qlra).
  repeat split; field; repeat split; try done.
Qed.

(** X20.  [toWorld] is a mirror scaling about the centre of the image
    that keeps the proportions of the video: for positive aspect ratios
    the point under [(x, y, z)] is [(k * (0.5 - x), k / videoAspect *
    (0.5 - y), - 4 * z)], where [k] is 8 when the video is not wider than
    the window and [8 * videoAspect / screenAspect] when it is wider, so
    the video covers the window 8 units wide.  The centre of the image
    goes to the origin, and when video and window have the same aspect
    ratio [toWorld] is [normalizedToWorld] with [scaleX = 8] and
    [scaleY = 8 / screenAspect]. *)
Theorem toWorld_is_a_mirror_scaling (videoAspect screenAspect : Q)
  (lm : Landmark) :
  (0 < videoAspect)%Q → (0 < screenAspect)%Q →
  let w := Studio.toWorld videoAspect screenAspect lm in
  let k := coverScale videoAspect screenAspect in
  (px w == k * (0.5 - px lm) ∧ py w == k / videoAspect * (0.5 - py lm) ∧
   pz w == - (4 * pz lm) ∧ 8 <= k)%Q ∧
  ((px lm == 0.5 ∧ py lm == 0.5)%Q → (px w == 0 ∧ py w == 0)%Q) ∧
  ((videoAspect == screenAspect)%Q →
   sameLandmark w
     (Utils.normalizedToWorld lm
        (Utils.mkOptions (Some 8%Q) (Some (8 / screenAspect)%Q) None None))).
Proof.
  intros Hva Hsa w k. subst w k. unfold coverScale.
  assert (Hva' : ¬ (videoAspect == 0)%Q)
    by (intros H; rewrite H in Hva; qlra).
  assert (Hsa' : ¬ (screenAspect == 0)%Q)
    by (intros H; rewrite H in Hsa; qlra).
  assert (Hmain :
    (px (Studio.toWorld videoAspect screenAspect lm)
     == (if Qltb screenAspect videoAspect
         then 8 * (videoAspect / screenAspect) else 8) * (0.5 - px lm) ∧
     py (Studio.toWorld videoAspect screenAspect lm)
     == (if Qltb screenAspect videoAspect
         then 8 * (videoAspect / screenAspect) else 8) / videoAspect
        * (0.5 - py lm) ∧
     pz (Studio.toWorld videoAspect screenAspect lm) == - (4 * pz lm) ∧
     8 <= (if Qltb screenAspect videoAspect
           then 8 * (videoAspect / screenAspect) else 8))%Q).
  { destruct (Qltb screenAspect videoAspect) eqn:E.
    - destruct (toWorld_wide _ _ lm Hva Hsa E) as (Hx & Hy & Hz).
      split; [done|]. split; [rewrite Hy; field; by split|].
      split; [done|].
      apply Qltb_lt in E.
      assert (H1 : (1 <= videoAspect / screenAspect)%Q).
      { apply Qle_shift_div_l; [done|]. qlra. }
      qlra.
    - destruct (toWorld_tall _ _ lm Hva Hsa E) as (Hx & Hy & Hz).
      repeat split; try done; qlra. }
  destruct Hmain as (Hx & Hy & Hz & Hk).
  split; [done|]. split.
  - intros [Ex Ey]. rewrite Hx, Hy, Ex, Ey. split; field; done.
  - intros Heq. unfold sameLandmark, Utils.normalizedToWorld.
    cbn [px py pz Utils.scaleX Utils.scaleY Utils.scaleZ Utils.offsetZ
         from_option]. cbv [Datatypes.id].
    assert (E : Qltb screenAspect videoAspect = false).
    { destruct (Qltb screenAspect videoAspect) eqn:E; [|done].
      apply Qltb_lt in E. rewrite Heq in E. qlra. }
    rewrite E in Hx, Hy. rewrite Hx, Hy, Hz.
    split; [ring|]. split; [|ring].
    assert (Hs : (8 / videoAspect == 8 / screenAspect)%Q)
      by (rewrite Heq; reflexivity).
    rewrite Hs. ring.
Qed.

(** X20 for a 16:9 video in a 4:3 window: the centre of the image. *)
Lemma toWorld_is_a_mirror_scaling_witness :
  (0 < 16 # 9)%Q ∧ (0 < 4 # 3)%Q ∧
  (px (Studio.toWorld (16 # 9) (4 # 3) (mkLandmark 0.5 0.5 0)) == 0)%Q.
Proof.
  split; [reflexivity|]. split; [reflexivity|].
  refine (proj1 (proj1 (proj2 (toWorld_is_a_mirror_scaling (16 # 9) (4 # 3)
                   (mkLandmark 0.5 0.5 0) _ _)) _));
    [reflexivity|reflexivity|]. split; reflexivity.
Defined.

(** ** The cell mapping in doubles: the result is an index *)

Section CellIndex.
Import Doubles.

Lemma compare_total (a b : spec_float) :
  a ≠ S754_nan → b ≠ S754_nan → SFltb a b = true ∨ SFleb b a = true.
Proof.
  intros Ha Hb. unfold SFltb, SFleb.
  destruct a as [sa|sa| |sa ma ea], b as [sb|sb| |sb mb eb]; try done;
    cbn; try (destruct sa; eauto; fail); try (destruct sb; eauto; fail);
    try (destruct sa, sb; eauto; fail).
  destruct sa, sb; eauto.
  - rewrite (Z.compare_antisym ea eb).
    destruct (ea ?= eb)%Z; cbn; eauto.
    change (Pos.compare_cont Eq mb ma) with (mb ?= ma)%positive.
    change (Pos.compare_cont Eq ma mb) with (ma ?= mb)%positive.
    rewrite (Pos.compare_antisym ma mb).
    destruct (ma ?= mb)%positive; cbn; eauto.
  - rewrite (Z.compare_antisym ea eb).
    destruct (ea ?= eb)%Z; cbn; eauto.
    change (Pos.compare_cont Eq mb ma) with (mb ?= ma)%positive.
    change (Pos.compare_cont Eq ma mb) with (ma ?= mb)%positive.
    rewrite (Pos.compare_antisym ma mb).
    destruct (ma ?= mb)%positive; cbn; eauto.
Qed.

Lemma pow2_54_not_nan : pow2 (-54) ≠ S754_nan.
Proof. done. Qed.

(** X21.  For doubles other than NaN the result of [getCellIndex] is -1
    or one of the integers 0..8: the value that [processHands] uses as an
    index into [gridCells] after the check [cellIndex >= 0 && cellIndex <
    9] is never a fraction and never out of range.  With a NaN among the
    arguments the result is -1 or NaN, and so fails that check. *)
Theorem getCellIndex_is_minus_one_or_a_cell (x y : spec_float) :
  valid x → valid y →
  (x ≠ S754_nan → y ≠ S754_nan →
   getCellIndex x y = js (-1) ∨
   ∃ i : Z, (0 <= i <= 8)%Z ∧ getCellIndex x y = js i) ∧
  (x = S754_nan ∨ y = S754_nan →
   (getCellIndex x y = js (-1) ∨ getCellIndex x y = S754_nan) ∧
   ge (getCellIndex x y) (js 0) && lt (getCellIndex x y) (js 9) = false).
Proof.
  intros Hx Hy.
  assert (H1 : js 1 ≠ S754_nan) by done.
  assert (H0 : js 0 ≠ S754_nan) by done.
  assert (Hout : ∀ a b, lt a (js 0) = true ∨ lt (js 1) a = true ∨
                        lt b (js 0) = true ∨ ge b (js 1) = true →
                        valid a → valid b → getCellIndex a b = js (-1)).
  { intros a b H Ha Hb. by apply getCellIndex_outside. }
  assert (Hrow : y ≠ S754_nan →
                 (lt y (js 0) = true ∨ ge y (js 1) = true) ∨
                 (ge y (js 0) = true ∧ lt y (js 1) = true)).
  { intros Hny. unfold lt, ge.
    destruct (compare_total y (js 0) Hny H0) as [?|Hy0]; [left; by left|].
    destruct (compare_total y (js 1) Hny H1) as [?|?]; [by right|].
    left. by right. }
  assert (Hcol : x ≠ S754_nan →
                 (getCellIndex x y = js (-1)) ∨
                 (lt (pow2 (-54)) x = true ∧ ge (js 1) x = true)).
  { intros Hnx. unfold lt, ge.
    destruct (compare_total x (js 0) Hnx H0) as [?|Hx0].
    { left. apply Hout; [by left|done..]. }
    destruct (compare_total (js 1) x H1 Hnx) as [?|Hx1].
    { left. apply Hout; [right; by left|done..]. }
    destruct (compare_total (pow2 (-54)) x pow2_54_not_nan Hnx)
      as [?|Hxt]; [by right|].
    left. by apply getCellIndex_tiny. }
  split.
  - intros Hnx Hny.
    destruct (Hcol Hnx) as [?|[Hx1 Hx2]]; [by left|].
    destruct (Hrow Hny) as [[?|?]|[Hy1 Hy2]].
    + left. apply Hout; [right; right; by left|done..].
    + left. apply Hout; [right; right; by right|done..].
    + right.
      destruct (getCellIndex_inside x y Hx Hy Hx1 Hx2 Hy1 Hy2)
        as (c & r & Hc & Hr & _ & _ & Hcell).
      exists (r * 3 + c)%Z. split; [lia|exact Hcell].
  - assert (Hfail : ∀ v, v = js (-1) ∨ v = S754_nan →
                         (v = js (-1) ∨ v = S754_nan) ∧
                         ge v (js 0) && lt v (js 9) = false).
    { intros v [->| ->]; split; eauto. }
    assert (Hdec : ∀ z : spec_float, z = S754_nan ∨ z ≠ S754_nan).
    { intros []; try (by right). by left. }
    intros [->| ->]; apply Hfail.
    + destruct (Hdec y) as [->|Hny]; [by right|].
      destruct (Hrow Hny) as [[?|?]|[Hy1 Hy2]].
      * left. apply Hout; [right; right; by left|done..].
      * left. apply Hout; [right; right; by right|done..].
      * right. by apply getCellIndex_nan_left.
    + destruct (Hdec x) as [->|Hnx]; [by right|].
      destruct (Hcol Hnx) as [?|[Hx1 Hx2]]; [by left|].
      right. by apply getCellIndex_nan_right.
Qed.

(** X21 at [x = 0.25], [y = 0.5]. *)
Lemma getCellIndex_is_minus_one_or_a_cell_witness :
  valid (ratio 1 4) ∧ valid (ratio 1 2) ∧
  (getCellIndex (ratio 1 4) (ratio 1 2) = js (-1) ∨
   ∃ i : Z, (0 <= i <= 8)%Z ∧ getCellIndex (ratio 1 4) (ratio 1 2) = js i).
Proof.
  split; [reflexivity|]. split; [reflexivity|].
  apply (proj1 (getCellIndex_is_minus_one_or_a_cell (ratio 1 4) (ratio 1 2)
                  eq_refl eq_refl)); done.
Defined.

End CellIndex.
